(** * quackfetch: a shallow embedding of the fetch / parse / cache pipeline

    The first part follows the layout of the JavaScript sources:

    - [Js]        values, string methods and the URI codecs of the platform;
    - [Url]       the WHATWG [URL] object, as far as the sources use it;
    - [Utils]     [src/utils.js]: [normalizeUrl], [checkRobotsTxt],
                  [pathMatchesRule];
    - [Lru], [Cache]  the [lru-cache] package and [src/cache.js] over it;
    - [Dom], [Parser] the elements selected by [cheerio] and
                  [src/parser.js];
    - [Net], [Fetcher] the network with its clock, and [src/fetcher.js]:
                  rate limiting, retries, the search URL;
    - [Index]     [src/index.js]: the cache key and the orchestrator
                  [search];
    - [Basic]     a concrete URL parser, HTML fixtures and clock, to run
                  the functions on examples.

    The second part states and proves the properties, component by
    component; the third part adds properties read off the sources:
    edge cases, invariants, round trips and bounds.

    JavaScript strings are modelled as Rocq strings of bytes (the UTF-8
    form of the text); numbers that count milliseconds, attempts or
    entries are integers. The URL parser, the HTML loader and the clock
    are parameters (type classes): the theorems hold for all of them. *)

From Stdlib Require Import ZArith Lia Ascii String List Bool.
From stdpp Require Import base list gmap strings pretty.

Local Open Scope Z_scope.

(* ================================================================== *)
(** * JavaScript values and string methods *)
(* ================================================================== *)

Module Js.

(** The values a dynamically typed argument can hold. *)
Inductive value : Type :=
| Undefined
| Null
| Bool (b : bool)
| Number (n : Z)
| Str (s : string)
| Object.

(** [!v] is false exactly on the truthy values. *)
Definition truthy (v : value) : bool :=
  match v with
  | Undefined | Null => false
  | Bool b => b
  | Number n => negb (n =? 0)
  | Str s => negb (String.eqb s "")
  | Object => true
  end.

(** [typeof v === 'string'] *)
Definition is_string (v : value) : bool :=
  match v with Str _ => true | _ => false end.

(** An [Error] object: its [name] and its [message]. *)
Record error : Type := mkError { name : string; message : string }.

Definition Error (msg : string) : error := mkError "Error" msg.
Definition TypeError (msg : string) : error := mkError "TypeError" msg.

(** ** String methods *)

(** [s.startsWith(p)] *)
Definition startsWith (s p : string) : bool := String.prefix p s.

(** [s.endsWith(p)] *)
Definition endsWith (s p : string) : bool :=
  let n := String.length s in
  let m := String.length p in
  (m <=? n)%nat && String.eqb (String.substring (n - m) m s) p.

(** [s.slice(0, -1)] *)
Definition slice_0_m1 (s : string) : string :=
  String.substring 0 (String.length s - 1) s.

(** [s.substring(n)] *)
Definition substring_from (n : nat) (s : string) : string :=
  String.substring n (String.length s - n) s.

Definition byte_of (c : ascii) : N := N_of_ascii c.

Definition string_of_bytes (bs : list N) : string :=
  string_of_list_ascii (map ascii_of_N bs).

(** A character that starts with the byte [c] takes [utf8_width c]
    bytes in the UTF-8 form of a text and [utf16_units c] code units in
    the JavaScript string: a character of four bytes is a surrogate
    pair. *)
Definition utf8_width (c : ascii) : nat :=
  if (byte_of c <? 192)%N then 1%nat
  else if (byte_of c <? 224)%N then 2%nat
  else if (byte_of c <? 240)%N then 3%nat
  else if (byte_of c <? 248)%N then 4%nat
  else 1%nat.

Definition utf16_units (c : ascii) : nat :=
  if (utf8_width c =? 4)%nat then 2%nat else 1%nat.

(** U+FFFD, which a surrogate without its pair reads as in the UTF-8
    form of a text. *)
Definition replacement_character : string := string_of_bytes [239; 191; 189]%N.

(** The first [n] code units of [s]; [inside] counts the bytes still to
    copy of the character being taken.  A cut inside a surrogate pair
    leaves its first half alone. *)
Fixpoint take_units (n inside : nat) (s : string) : string :=
  match s with
  | EmptyString => EmptyString
  | String c s' =>
      match inside with
      | S k => String c (take_units n k s')
      | O =>
          if (utf16_units c <=? n)%nat
          then String c (take_units (n - utf16_units c) (utf8_width c - 1) s')
          else if (n =? 0)%nat then EmptyString
          else replacement_character
      end
  end.

(** [s.substring(0, n)]: positions count UTF-16 code units. *)
Definition substring_to (n : nat) (s : string) : string := take_units n 0 s.

(** [s.includes(sub)] *)
Fixpoint includes (s sub : string) : bool :=
  String.prefix sub s ||
  match s with
  | EmptyString => false
  | String _ s' => includes s' sub
  end.

Definition in_range (lo hi : N) (c : ascii) : bool :=
  ((lo <=? byte_of c) && (byte_of c <=? hi))%N.

Definition is_upper : ascii -> bool := in_range 65 90.
Definition is_lower : ascii -> bool := in_range 97 122.
Definition is_digit : ascii -> bool := in_range 48 57.
Definition is_alnum (c : ascii) : bool := is_upper c || is_lower c || is_digit c.

Definition lower_char (c : ascii) : ascii :=
  if is_upper c then ascii_of_N (byte_of c + 32) else c.

(** [s.toLowerCase()], on the ASCII letters. *)
Fixpoint toLowerCase (s : string) : string :=
  match s with
  | EmptyString => EmptyString
  | String c s' => String (lower_char c) (toLowerCase s')
  end.

(** The white space and the line terminators that [trim] removes, each
    in its UTF-8 form: tab, line feed, vertical tab, form feed, carriage
    return and space; U+00A0, U+1680, U+2000 to U+200A, U+2028, U+2029,
    U+202F, U+205F, U+3000 and U+FEFF. *)
Definition white_space : list string :=
  map string_of_bytes
    [ [9]; [10]; [11]; [12]; [13]; [32];
      [194; 160];
      [225; 154; 128];
      [226; 128; 128]; [226; 128; 129]; [226; 128; 130]; [226; 128; 131];
      [226; 128; 132]; [226; 128; 133]; [226; 128; 134]; [226; 128; 135];
      [226; 128; 136]; [226; 128; 137]; [226; 128; 138];
      [226; 128; 168]; [226; 128; 169];
      [226; 128; 175];
      [226; 129; 159];
      [227; 128; 128];
      [239; 187; 191] ]%N.

(** The number of bytes of the white-space character that [s] starts
    with; 0 when it starts with none. *)
Definition white_width (s : string) : nat :=
  match List.find (fun p => String.prefix p s) white_space with
  | Some p => String.length p
  | None => 0%nat
  end.

(** Drops leading white space; [inside] counts the bytes still to drop
    of the white-space character being passed. *)
Fixpoint trimStart_go (inside : nat) (s : string) : string :=
  match s with
  | EmptyString => EmptyString
  | String _ s' =>
      match inside with
      | S k => trimStart_go k s'
      | O =>
          match white_width s with
          | S k => trimStart_go k s'
          | O => s
          end
      end
  end.

Definition trimStart (s : string) : string := trimStart_go 0 s.

(** Whether [s] is white space throughout. *)
Fixpoint all_white_go (inside : nat) (s : string) : bool :=
  match s with
  | EmptyString => true
  | String _ s' =>
      match inside with
      | S k => all_white_go k s'
      | O =>
          match white_width s with
          | S k => all_white_go k s'
          | O => false
          end
      end
  end.

Definition all_white (s : string) : bool := all_white_go 0 s.

(** Drops trailing white space: the text ends before the first place
    from which everything is white space. *)
Fixpoint trimEnd (s : string) : string :=
  match s with
  | EmptyString => EmptyString
  | String c s' => if all_white s then EmptyString else String c (trimEnd s')
  end.

(** [s.trim()] *)
Definition trim (s : string) : string := trimEnd (trimStart s).

(** [s.split(sep)] for a separator of one character. *)
Fixpoint split_char (sep : ascii) (s : string) : list string :=
  match s with
  | EmptyString => [EmptyString]
  | String c s' =>
      if Ascii.eqb c sep then EmptyString :: split_char sep s'
      else match split_char sep s' with
           | [] => [String c EmptyString]
           | p :: ps => String c p :: ps
           end
  end.

(** [s.split(sep)] for a non-empty separator string: the pieces between
    the occurrences of [sep], found from left to right without overlap.
    [skip] counts the characters of an occurrence still to be passed. *)
Fixpoint split_go (sep : string) (skip : nat) (s : string) : list string :=
  match s with
  | EmptyString => [EmptyString]
  | String c s' =>
      match skip with
      | S k => split_go sep k s'
      | O =>
          if String.prefix sep s
          then EmptyString :: split_go sep (String.length sep - 1) s'
          else match split_go sep 0 s' with
               | [] => [String c EmptyString]
               | p :: ps => String c p :: ps
               end
      end
  end.

Definition split (sep s : string) : list string := split_go sep 0 s.

(** ** Percent encoding *)

Definition hex_digit (n : N) : ascii :=
  if (n <? 10)%N then ascii_of_N (48 + n) else ascii_of_N (55 + n).

(** [%XX] with upper-case digits. *)
Definition percent_byte (c : ascii) (rest : string) : string :=
  String "%" (String (hex_digit (byte_of c / 16))
                (String (hex_digit (byte_of c mod 16)) rest)).

Definition one_of (cs : string) (c : ascii) : bool :=
  existsb (Ascii.eqb c) (list_ascii_of_string cs).

(** The characters [encodeURIComponent] leaves alone. *)
Definition uri_unreserved (c : ascii) : bool :=
  is_alnum c || one_of "-_.!~*'()" c.

(** [encodeURIComponent(s)]: every byte of the UTF-8 form that is not
    unreserved becomes [%XX]. *)
Fixpoint encodeURIComponent (s : string) : string :=
  match s with
  | EmptyString => EmptyString
  | String c s' =>
      if uri_unreserved c then String c (encodeURIComponent s')
      else percent_byte c (encodeURIComponent s')
  end.

(** The application/x-www-form-urlencoded serializer of
    [URLSearchParams]: alphanumerics and [*-._] stay, a space becomes
    [+], every other byte becomes [%XX]. *)
Fixpoint form_encode (s : string) : string :=
  match s with
  | EmptyString => EmptyString
  | String c s' =>
      if is_alnum c || one_of "*-._" c then String c (form_encode s')
      else if (byte_of c =? 32)%N then String "+" (form_encode s')
      else percent_byte c (form_encode s')
  end.

Definition hex_value (c : ascii) : option N :=
  if is_digit c then Some (byte_of c - 48)%N
  else if in_range 65 70 c then Some (byte_of c - 55)%N
  else if in_range 97 102 c then Some (byte_of c - 87)%N
  else None.

(** Whether the escaped octets [bs] (a lead byte and its continuation
    bytes) are the UTF-8 encoding of one code point: shortest form, no
    surrogate, at most U+10FFFF. *)
Definition utf8_valid (bs : list N) : bool :=
  let cont b := ((128 <=? b) && (b <=? 191))%N in
  match bs with
  | [b0; b1] => ((194 <=? b0) && (b0 <=? 223))%N && cont b1
  | [b0; b1; b2] =>
      ((224 <=? b0) && (b0 <=? 239))%N && cont b1 && cont b2
      && negb ((b0 =? 224) && (b1 <? 160))%N
      && negb ((b0 =? 237) && (160 <=? b1))%N
  | [b0; b1; b2; b3] =>
      ((240 <=? b0) && (b0 <=? 244))%N && cont b1 && cont b2 && cont b3
      && negb ((b0 =? 240) && (b1 <? 144))%N
      && negb ((b0 =? 244) && (144 <=? b1))%N
  | _ => false
  end.

(** Number of octets announced by a lead byte at or above 128; [None]
    for a continuation byte or more than four leading one bits. *)
Definition utf8_length (b : N) : option nat :=
  if (b <? 192)%N then None
  else if (b <? 224)%N then Some 2%nat
  else if (b <? 240)%N then Some 3%nat
  else if (b <? 248)%N then Some 4%nat
  else None.

(** Where the decoder stands inside an escape. *)
Inductive escape : Type :=
| Plain                (* not inside an escape *)
| Percent              (* after [%] *)
| Digit (hi : N).      (* after [%h] *)

(** [decode_go esc pending s]: [pending] holds the octets of a
    multi-byte character read so far and the number still expected.
    [None] is the [URIError] the platform throws. *)
Fixpoint decode_go (esc : escape) (pending : option (list N * nat))
    (s : string) : option string :=
  match s with
  | EmptyString =>
      match esc, pending with
      | Plain, None => Some EmptyString
      | _, _ => None
      end
  | String c s' =>
      match esc with
      | Plain =>
          if Ascii.eqb c "%" then decode_go Percent pending s'
          else match pending with
               | None => option_map (String c) (decode_go Plain None s')
               | Some _ => None
               end
      | Percent =>
          match hex_value c with
          | Some h => decode_go (Digit h) pending s'
          | None => None
          end
      | Digit hi =>
          match hex_value c with
          | None => None
          | Some lo =>
              let b := (16 * hi + lo)%N in
              match pending with
              | None =>
                  if (b <? 128)%N
                  then option_map (String (ascii_of_N b)) (decode_go Plain None s')
                  else match utf8_length b with
                       | Some n => decode_go Plain (Some ([b], (n - 1)%nat)) s'
                       | None => None
                       end
              | Some (bs, 1%nat) =>
                  if utf8_valid (bs ++ [b])
                  then option_map (String.append (string_of_bytes (bs ++ [b])))
                         (decode_go Plain None s')
                  else None
              | Some (bs, k) => decode_go Plain (Some (bs ++ [b], (k - 1)%nat)) s'
              end
          end
      end
  end.

(** [decodeURIComponent(s)]; [None] when it throws. *)
Definition decodeURIComponent (s : string) : option string :=
  decode_go Plain None s.

End Js.

(* ================================================================== *)
(** * The URL object *)
(* ================================================================== *)

Module Url.

(** The parts of a parsed hierarchical URL that the sources read.
    [query] is the URL's query ([None] when absent), [searchParams] the
    list behind [url.searchParams], [hash] the fragment with its [#], or
    empty. *)
Record t : Type := mk {
  protocol : string;
  hostname : string;
  port : string;
  pathname : string;
  query : option string;
  searchParams : list (string * string);
  hash : string
}.

(** [url.search] *)
Definition search (u : t) : string :=
  match query u with
  | Some q => if String.eqb q "" then "" else "?" +:+ q
  | None => ""
  end.

(** [url.host] *)
Definition host (u : t) : string :=
  if String.eqb (port u) "" then hostname u else hostname u +:+ ":" +:+ port u.

(** [url.toString()], the serialization [url.href]. *)
Definition href (u : t) : string :=
  protocol u +:+ "//" +:+ host u +:+ pathname u
  +:+ match query u with Some q => "?" +:+ q | None => "" end
  +:+ hash u.

(** The serialization of a parameter list. *)
Definition serialize_params (l : list (string * string)) : string :=
  String.concat "&"
    (map (fun p => Js.form_encode (fst p) +:+ "=" +:+ Js.form_encode (snd p)) l).

(** [url.searchParams.delete(name)]: removes every pair called [name],
    then updates the URL's query from the list (an empty serialization
    leaves the URL without a query). *)
Definition searchParams_delete (name : string) (u : t) : t :=
  let l := List.filter (fun p => negb (String.eqb (fst p) name)) (searchParams u) in
  let q := serialize_params l in
  {| protocol := protocol u; hostname := hostname u; port := port u;
     pathname := pathname u;
     query := if String.eqb q "" then None else Some q;
     searchParams := l;
     hash := hash u |}.

(** The platform's parser, [new URL(s)]: [None] when it throws. *)
Class Parser : Type := new : string -> option t.

(** [new URL(path, base)] for an absolute path [path] that the parser
    leaves as it is: the scheme, the host and the port of the base with
    that path, no query and no fragment. It throws when [base] does not
    parse. *)
Definition new_at {U : Parser} (path base : string) : option t :=
  match new base with
  | Some b =>
      Some {| protocol := protocol b; hostname := hostname b; port := port b;
              pathname := path; query := None; searchParams := []; hash := "" |}
  | None => None
  end.

End Url.

(* ================================================================== *)
(** * src/utils.js *)
(* ================================================================== *)

Module Utils.

Definition trackingParams : list string :=
  [ "utm_source"; "utm_medium"; "utm_campaign"; "utm_term"; "utm_content";
    "ref"; "source"; "fbclid"; "gclid"; "msclkid"; "twclid";
    "igshid"; "_ga"; "_gid"; "mc_cid"; "mc_eid" ].

(** [trackingParams.forEach(param => urlObj.searchParams.delete(param))] *)
Definition removeTracking (urlObj : Url.t) : Url.t :=
  fold_left (fun u param => Url.searchParams_delete param u) trackingParams urlObj.

(** [normalizeUrl(url)] *)
Definition normalizeUrl {U : Url.Parser} (url : Js.value) : string :=
  if negb (Js.truthy url) || negb (Js.is_string url) then ""
  else
    match url with
    | Js.Str s =>
        match Url.new s with
        | Some parsed =>
            let urlObj := removeTracking parsed in
            let normalized := Url.href urlObj in
            if Js.endsWith normalized "/" && negb (String.eqb (Url.pathname urlObj) "/")
            then Js.slice_0_m1 normalized
            else normalized
        | None => s
        end
    | _ => ""
    end.

(** [pathMatchesRule(path, rule)] *)
Definition pathMatchesRule (path rule : string) : bool :=
  if String.eqb rule "" || String.eqb path "" then false
  else if String.eqb path rule then true
  else if Js.endsWith rule "*" then Js.startsWith path (Js.slice_0_m1 rule)
  else if Js.startsWith path rule then true
  else false.

(** The three variables the scan of [checkRobotsTxt] updates. *)
Record scan : Type := mkScan {
  currentUserAgent : option string;
  disallowRules : list string;
  allowRules : list string
}.

(** One turn of the loop over the lines. *)
Definition scan_line (userAgent : string) (st : scan) (line : string) : scan :=
  let lowerLine := Js.toLowerCase line in
  if Js.startsWith lowerLine "user-agent:" then
    let agent := Js.trim (Js.substring_from 11 line) in
    if String.eqb agent "*" || Js.includes userAgent agent
    then mkScan (Some agent) [] []
    else mkScan None (disallowRules st) (allowRules st)
  else
    match currentUserAgent st with
    | None => st
    | Some _ =>
        if Js.startsWith lowerLine "disallow:" then
          let rule := Js.trim (Js.substring_from 9 line) in
          if negb (String.eqb rule "")
          then mkScan (currentUserAgent st) (disallowRules st ++ [rule]) (allowRules st)
          else mkScan (currentUserAgent st) [] (allowRules st)
        else if Js.startsWith lowerLine "allow:" then
          let rule := Js.trim (Js.substring_from 6 line) in
          if negb (String.eqb rule "")
          then mkScan (currentUserAgent st) (disallowRules st) (allowRules st ++ [rule])
          else st
        else st
    end.

(** The final loop over the disallow rules, leaving at the first rule
    that matches without an allow rule overriding it. *)
Fixpoint verdict (path : string) (allow rules : list string) : bool :=
  match rules with
  | [] => true
  | rule :: rest =>
      if pathMatchesRule path rule
      then
        let hasAllowOverride := existsb (fun allowRule => pathMatchesRule path allowRule) allow in
        if negb hasAllowOverride then false else verdict path allow rest
      else verdict path allow rest
  end.

(** [robotsTxt.split('\n').map(line => line.trim())] *)
Definition robots_lines (robotsTxt : string) : list string :=
  map Js.trim (Js.split_char "010" robotsTxt).

(** [checkRobotsTxt(robotsTxt, userAgent, path)] *)
Definition checkRobotsTxt (robotsTxt : Js.value) (userAgent path : string) : bool :=
  if negb (Js.truthy robotsTxt) || negb (Js.is_string robotsTxt) then true
  else
    match robotsTxt with
    | Js.Str text =>
        let st := fold_left (scan_line userAgent) (robots_lines text) (mkScan None [] []) in
        verdict path (allowRules st) (disallowRules st)
    | _ => true
    end.

End Utils.

(* ================================================================== *)
(** * The lru-cache package and src/cache.js *)
(* ================================================================== *)

(** [LRUCache] of the [lru-cache] package, for the options and methods
    that [src/cache.js] uses.  The entries are kept in order of use: the
    head of [items] is the least recently used entry, the one [set]
    evicts; the last one is the most recently used.  Every method reads
    the clock once; the reading is the argument [now]. *)
Module Lru.

Section WithValue.

Context {V : Type}.

Record entry : Type := mkEntry {
  key : string;
  val : V;
  start : Z;      (* clock reading when the age was last set; 0 without a ttl *)
  ttl_of : Z      (* the entry's time to live; 0 for none *)
}.

Record t : Type := mk {
  max : Z;
  ttl : Z;
  updateAgeOnGet : bool;
  updateAgeOnHas : bool;
  items : list entry
}.

(** [new LRUCache({max, ttl, updateAgeOnGet, updateAgeOnHas})]: [max] and
    [ttl] are non-negative integers, not both zero, and [max] is below
    [2^32], from where on the arrays of the cache cannot be made.
    [None] is the error that the constructor throws: a [TypeError], or a
    [RangeError] for a [max] that large. *)
Definition create (max ttl : Z) (updateAgeOnGet updateAgeOnHas : bool) : option t :=
  if (max <? 0) || (ttl <? 0) || ((max =? 0) && (ttl =? 0)) || (2 ^ 32 <=? max) then None
  else Some (mk max ttl updateAgeOnGet updateAgeOnHas []).

Definition with_items (c : t) (l : list entry) : t :=
  mk (max c) (ttl c) (updateAgeOnGet c) (updateAgeOnHas c) l.

Definition has_key (k : string) (e : entry) : bool := String.eqb (key e) k.

Definition lookup (k : string) (c : t) : option entry :=
  List.find (has_key k) (items c).

Definition without (k : string) (l : list entry) : list entry :=
  List.filter (fun e => negb (has_key k e)) l.

(** An entry is stale when it has a ttl and is older than it. *)
Definition isStale (now : Z) (e : entry) : bool :=
  negb (ttl_of e =? 0) && negb (start e =? 0) && (ttl_of e <? now - start e).

(** The age of an entry restarts: at the clock reading if it has a ttl. *)
Definition restart (now : Z) (e : entry) : entry :=
  mkEntry (key e) (val e) (if ttl_of e =? 0 then 0 else now) (ttl_of e).

(** [cache.size] *)
Definition size (c : t) : Z := Z.of_nat (length (items c)).

(** [cache.get(k)]: a stale entry is deleted and reported absent; a live
    entry moves to the most recently used end, and its age restarts only
    under [updateAgeOnGet]. *)
Definition get (k : string) (now : Z) (c : t) : option V * t :=
  match lookup k c with
  | None => (None, c)
  | Some e =>
      if isStale now e then (None, with_items c (without k (items c)))
      else
        let e' := if updateAgeOnGet c then restart now e else e in
        (Some (val e), with_items c (without k (items c) ++ [e']))
  end.

(** [cache.has(k)]: no entry is moved or deleted; the age restarts only
    under [updateAgeOnHas]. *)
Definition has (k : string) (now : Z) (c : t) : bool * t :=
  match lookup k c with
  | None => (false, c)
  | Some e =>
      if isStale now e then (false, c)
      else if updateAgeOnHas c
      then (true, with_items c (map (fun x => if has_key k x then restart now x else x) (items c)))
      else (true, c)
  end.

(** [cache.set(k, v)] for a defined value [v]: an existing entry is
    replaced and moved to the most recently used end; a new key evicts
    the least recently used entry when the cache is full
    ([size === max], which an unbounded cache, [max = 0], never
    reaches once it holds an entry). *)
Definition set (k : string) (v : V) (now : Z) (c : t) : t :=
  let e := mkEntry k v (if ttl c =? 0 then 0 else now) (ttl c) in
  match lookup k c with
  | Some _ => with_items c (without k (items c) ++ [e])
  | None =>
      let kept :=
        if negb (size c =? 0) && (size c =? max c) then tl (items c) else items c in
      with_items c (kept ++ [e])
  end.

(** [cache.clear()] *)
Definition clear (c : t) : t := with_items c [].

Definition keys (c : t) : list string := map key (items c).

End WithValue.

Arguments entry : clear implicits.
Arguments t : clear implicits.

End Lru.

Module Cache.

(** The options object of [createCache]; an absent property is [None]. *)
Record options : Type := mkOptions { maxSize : option Z; ttl : option Z }.

Record stats : Type := mkStats {
  stat_size : Z; calculatedSize : Z; stat_maxSize : Z; stat_ttl : Z
}.

(** [createCache(options)]: the wrapped [LRUCache]; [None] when the
    constructor throws. *)
Definition createCache {V : Type} (options : options) : option (Lru.t V) :=
  let maxSize := default 100 (maxSize options) in
  let ttl := default 300000 (ttl options) in
  Lru.create maxSize ttl false false.

Definition get {V : Type} (key : string) (now : Z) (cache : Lru.t V) : option V * Lru.t V :=
  Lru.get key now cache.

Definition set {V : Type} (key : string) (value : V) (now : Z) (cache : Lru.t V) : Lru.t V :=
  Lru.set key value now cache.

Definition has {V : Type} (key : string) (now : Z) (cache : Lru.t V) : bool * Lru.t V :=
  Lru.has key now cache.

Definition clear {V : Type} (cache : Lru.t V) : Lru.t V := Lru.clear cache.

Definition getStats {V : Type} (cache : Lru.t V) : stats :=
  mkStats (Lru.size cache) 0 (Lru.max cache) (Lru.ttl cache).

(** The calls a client makes on a cache, each with the clock reading at
    which it happens. *)
Inductive call (V : Type) : Type :=
| DoSet (key : string) (value : V) (now : Z)
| DoGet (key : string) (now : Z)
| DoHas (key : string) (now : Z).

Arguments DoSet {V}.
Arguments DoGet {V}.
Arguments DoHas {V}.

Definition step {V : Type} (cache : Lru.t V) (c : call V) : Lru.t V :=
  match c with
  | DoSet k v now => set k v now cache
  | DoGet k now => snd (get k now cache)
  | DoHas k now => snd (has k now cache)
  end.

(** The cache after a sequence of calls. *)
Definition run {V : Type} (calls : list (call V)) (cache : Lru.t V) : Lru.t V :=
  fold_left step calls cache.

(** The keys inserted by a sequence of calls, in order. *)
Fixpoint inserted {V : Type} (calls : list (call V)) : list string :=
  match calls with
  | [] => []
  | DoSet k _ _ :: rest => k :: inserted rest
  | _ :: rest => inserted rest
  end.

Definition is_get {V : Type} (c : call V) : bool :=
  match c with DoGet _ _ => true | _ => false end.

End Cache.

(* ================================================================== *)
(** * src/parser.js *)
(* ================================================================== *)

(** What the selectors of [parser.js] read off the document that
    [cheerio.load(html)] builds.  The HTML parser itself belongs to the
    [cheerio] package; the sources only see the selected elements and
    the texts and attributes below. *)
Module Dom.

(** One element of [$('div.result, div.web-result')]. *)
Record result_element : Type := mkResult {
  link_text : string;         (* find('a.result__a, a.result-link').text() *)
  link_href : option string;  (* ... .attr('href'), [None] for undefined *)
  snippet_text : string;      (* find('a.result__snippet, div.result__snippet').text() *)
  span_snippet_text : string; (* find('span.result__snippet').text() *)
  url_text : string           (* find('span.result__url, a.result__url').text() *)
}.

(** One element of [$('div[class*="result"]')]. *)
Record generic_element : Type := mkGeneric {
  first_link_text : string;         (* find('a').first().text() *)
  first_link_href : option string;  (* find('a').first().attr('href') *)
  element_text : string             (* the element's own .text() *)
}.

Record document : Type := mkDocument {
  result_elements : list result_element;
  generic_elements : list generic_element
}.

(** [cheerio.load(html)] with the two selections, in document order. *)
Class Loader : Type := load : string -> document.

(** [new Date(ms).toISOString()] *)
Class Clock : Type := toISOString : Z -> string.

End Dom.

Module Parser.

Record SearchResult : Type := mkSearchResult {
  title : string;
  url : string;
  snippet : string;
  rank : nat;
  source : string;
  retrievedAt : string;
  cached : option bool     (* the optional property; [None] when absent *)
}.

Record options : Type := mkOptions { maxResults : option nat }.

(** [a || b] on strings *)
Definition or_else (a b : string) : string :=
  if String.eqb a "" then b else a.

Fixpoint take_while (p : ascii -> bool) (s : string) : string :=
  match s with
  | EmptyString => EmptyString
  | String c s' => if p c then String c (take_while p s') else EmptyString
  end.

Definition not_char (x c : ascii) : bool := negb (Ascii.eqb c x).

(** [s.match(/uddg=([^&]+)/)]: the first group of the leftmost match. *)
Fixpoint match_uddg (s : string) : option string :=
  match s with
  | EmptyString => None
  | String _ s' =>
      let group := take_while (not_char "&") (Js.substring_from 5 s) in
      if String.prefix "uddg=" s && negb (String.eqb group "")
      then Some group
      else match_uddg s'
  end.

(** [s.match(/https?:\/\/([^\/]+)/)]: the first group of the leftmost
    match. *)
Fixpoint match_http (s : string) : option string :=
  match s with
  | EmptyString => None
  | String _ s' =>
      let after :=
        if String.prefix "https://" s then Some (Js.substring_from 8 s)
        else if String.prefix "http://" s then Some (Js.substring_from 7 s)
        else None in
      match after with
      | Some rest =>
          let group := take_while (not_char "/") rest in
          if negb (String.eqb group "") then Some group else match_http s'
      | None => match_http s'
      end
  end.

(** [h.replace(/^www\./, '')] *)
Definition strip_www (h : string) : string :=
  if String.prefix "www." h then Js.substring_from 4 h else h.

(** [extractDomain(url)] *)
Definition extractDomain {U : Url.Parser} (url : string) : string :=
  if String.eqb url "" then ""
  else
    match Url.new url with
    | Some urlObj => strip_www (Url.hostname urlObj)
    | None =>
        match match_http url with
        | Some m => strip_www m
        | None => ""
        end
    end.

(** The regular-expression path shared by the two redirect branches. *)
Definition decode_match (rawUrl : string) : string :=
  match match_uddg rawUrl with
  | Some m =>
      match Js.decodeURIComponent m with
      | Some decoded => decoded
      | None => rawUrl
      end
  | None => rawUrl
  end.

(** Lines 40 to 67: the target of a DuckDuckGo redirect.  In the first
    branch [rawUrl.split('uddg=')[1]] is decoded; an undefined piece would
    read as the text [undefined]. *)
Definition resolve_redirect (rawUrl : string) : string :=
  if Js.startsWith rawUrl "/l/?uddg=" then
    match Js.decodeURIComponent (nth 1 (Js.split "uddg=" rawUrl) "undefined") with
    | Some decoded => decoded
    | None => decode_match rawUrl
    end
  else if Js.startsWith rawUrl "/l/?kh=" then decode_match rawUrl
  else rawUrl.

(** The body of the first [.each]: the result pushed for one element, if
    any. [n] is [results.length]. *)
Definition result_of {U : Url.Parser} {C : Dom.Clock} (now : Z) (n : nat)
    (element : Dom.result_element) : option SearchResult :=
  let title := Js.trim (Dom.link_text element) in
  let rawUrl := default "" (Dom.link_href element) in
  let url := resolve_redirect rawUrl in
  let snippet :=
    or_else (Js.trim (Dom.snippet_text element))
      (or_else (Js.trim (Dom.span_snippet_text element)) "") in
  let source := or_else (Js.trim (Dom.url_text element)) (extractDomain url) in
  if negb (String.eqb title "") || negb (String.eqb url "") then
    let normalizedUrl := Utils.normalizeUrl (Js.Str url) in
    Some {| title := or_else title "Untitled";
            url := normalizedUrl;
            snippet := or_else snippet "";
            rank := (n + 1)%nat;
            source := or_else source (extractDomain normalizedUrl);
            retrievedAt := Dom.toISOString now;
            cached := None |}
  else None.

(** [s.replace(pat, '')]: the first occurrence of the text [pat] goes. *)
Fixpoint remove_first (pat s : string) : string :=
  if String.prefix pat s then Js.substring_from (String.length pat) s
  else match s with
       | EmptyString => EmptyString
       | String c s' => String c (remove_first pat s')
       end.

(** The body of the second [.each]. *)
Definition generic_result_of {U : Url.Parser} {C : Dom.Clock} (now : Z) (n : nat)
    (element : Dom.generic_element) : option SearchResult :=
  let title := Js.trim (Dom.first_link_text element) in
  let url := default "" (Dom.first_link_href element) in
  let snippet := Js.trim (remove_first title (Js.trim (Dom.element_text element))) in
  if negb (String.eqb title "") || negb (String.eqb url "") then
    Some {| title := or_else title "Untitled";
            url := Utils.normalizeUrl (Js.Str url);
            snippet := Js.substring_to 200 snippet;
            rank := (n + 1)%nat;
            source := extractDomain url;
            retrievedAt := Dom.toISOString now;
            cached := None |}
  else None.

(** [$(...).each(...)] with its early [return false]: the loop stops at
    the first element met with [results.length >= maxResults]. *)
Fixpoint each {E : Type} (body : nat -> E -> option SearchResult)
    (maxResults : nat) (elements : list E) (results : list SearchResult)
    : list SearchResult :=
  match elements with
  | [] => results
  | element :: rest =>
      if (maxResults <=? length results)%nat then results
      else
        match body (length results) element with
        | Some r => each body maxResults rest (results ++ [r])
        | None => each body maxResults rest results
        end
  end.

(** [parseSearchHtml(html, options)]; [now] is the reading of the clock
    during the call. *)
Definition parseSearchHtml {U : Url.Parser} {L : Dom.Loader} {C : Dom.Clock}
    (now : Z) (html : Js.value) (options : options) : list SearchResult :=
  let maxResults := default 10%nat (maxResults options) in
  if negb (Js.truthy html) || negb (Js.is_string html) then []
  else
    match html with
    | Js.Str text =>
        let doc := Dom.load text in
        let results := each (result_of now) maxResults (Dom.result_elements doc) [] in
        if (length results =? 0)%nat
        then each (generic_result_of now) maxResults (Dom.generic_elements doc) results
        else results
    | _ => []
    end.

End Parser.

(* ================================================================== *)
(** * The network, the clock and the timers *)
(* ================================================================== *)

Module Net.

(** How the body of a response arrives once its headers are there:
    whole after [delay] more milliseconds, or broken off after them by an
    error of the connection. *)
Inductive body : Type :=
| Text (delay : Z) (text : string)
| Broken (delay : Z) (message : string).

Definition delay_of (b : body) : Z :=
  match b with Text delay _ | Broken delay _ => delay end.

(** What comes back for one request: a response with its status line and
    the body to read, or a network error. *)
Inductive outcome : Type :=
| Response (status : Z) (statusText : string) (body : body)
| NetworkError (message : string).

(** The headers of a reply arrive [latency] milliseconds after the
    request started. *)
Record reply : Type := mkReply { latency : Z; result : outcome }.

Record tracker : Type := mkTracker { lastRequest : Z; rateLimitMs : Z }.

Inductive event : Type :=
| Request (url : string) (at_time : Z)   (* an HTTP GET starts *)
| Sleep (ms : Z) (at_time : Z).          (* [sleep(ms)] is called *)

(** The state the module-level code of [fetcher.js] lives in: the clock,
    the per-host map, the replies the network holds for the requests to
    come (in the order of the requests) and the trace of what happened,
    oldest event first. *)
Record world : Type := mkWorld {
  now : Z;
  rateLimitMap : gmap string tracker;
  network : list reply;
  trace : list event
}.

(** An asynchronous computation: it runs on a world and settles with a
    value or with the error it throws. *)
Definition M (A : Type) : Type := world -> (A + Js.error) * world.

Definition ret {A : Type} (a : A) : M A := fun w => (inl a, w).

Definition throw {A : Type} (e : Js.error) : M A := fun w => (inr e, w).

Definition bind {A B : Type} (m : M A) (k : A -> M B) : M B :=
  fun w =>
    match m w with
    | (inl a, w') => k a w'
    | (inr e, w') => (inr e, w')
    end.

(** [try { m } catch (error) { handler(error) }] *)
Definition try_catch {A : Type} (m : M A) (handler : Js.error -> M A) : M A :=
  fun w =>
    match m w with
    | (inl a, w') => (inl a, w')
    | (inr e, w') => handler e w'
    end.

(** [Date.now()] *)
Definition date_now : M Z := fun w => (inl (now w), w).

Definition record (e : event) (w : world) : world :=
  mkWorld (now w) (rateLimitMap w) (network w) (trace w ++ [e]).

Definition advance (ms : Z) (w : world) : world :=
  mkWorld (now w + Z.max 0 ms) (rateLimitMap w) (network w) (trace w).

(** [await sleep(ms)]: the timer fires [ms] milliseconds later. *)
Definition sleep (ms : Z) : M unit :=
  fun w => (inl tt, advance ms (record (Sleep ms (now w)) w)).

(** The next reply of the network; a network without replies left
    refuses the connection. *)
Definition next_reply (w : world) : reply * world :=
  match network w with
  | r :: rest => (r, mkWorld (now w) (rateLimitMap w) rest (trace w))
  | [] => (mkReply 0 (NetworkError "fetch failed"), w)
  end.

(** [await fetch(url, {signal})] where the signal aborts after [timeout]
    milliseconds with an error called [abortName]: the promise resolves
    with the response once its headers are there, whatever its status,
    and rejects on a network error or on the abort. *)
Definition fetch (url : string) (timeout : Z) (abortName : string)
    : M (Z * string * body) :=
  fun w =>
    let w1 := record (Request url (now w)) w in
    let '(r, w2) := next_reply w1 in
    if timeout <=? latency r
    then (inr (Js.mkError abortName "This operation was aborted"), advance timeout w2)
    else
      match result r with
      | Response status statusText body =>
          (inl (status, statusText, body), advance (latency r) w2)
      | NetworkError msg => (inr (Js.TypeError msg), advance (latency r) w2)
      end.

(** [await response.text()]. [signal] is the signal of the request when
    it can still abort, with the clock reading at which it does and the
    name of its error: the read is then given up at that moment. With no
    signal left the read lasts as long as the body takes. *)
Definition text (b : body) (signal : option (Z * string)) : M string :=
  fun w =>
    let settled :=
      match b with
      | Text delay t => (inl t, advance delay w)
      | Broken delay msg => (inr (Js.TypeError msg), advance delay w)
      end in
    match signal with
    | Some (deadline, abortName) =>
        if deadline - now w <=? delay_of b
        then (inr (Js.mkError abortName "This operation was aborted"),
              advance (deadline - now w) w)
        else settled
    | None => settled
    end.

(** [response.ok] *)
Definition ok (status : Z) : bool := (200 <=? status) && (status <=? 299).

Definition requests (l : list event) : list (string * Z) :=
  omap (fun e => match e with Request u t => Some (u, t) | Sleep _ _ => None end) l.

Definition sleeps (l : list event) : list Z :=
  omap (fun e => match e with Sleep ms _ => Some ms | Request _ _ => None end) l.

Definition time_of (e : event) : Z :=
  match e with Request _ t => t | Sleep _ t => t end.

(** An event without its time: the URL requested or the delay slept. *)
Definition shape (e : event) : string + Z :=
  match e with Request u _ => inl u | Sleep ms _ => inr ms end.

End Net.

Notation "'await' x <- m 'in' k" := (Net.bind m (fun x => k))
  (at level 10, x pattern, m at level 100, k at level 200).

(* ================================================================== *)
(** * src/fetcher.js *)
(* ================================================================== *)

Module Fetcher.

Import Net.

Definition defaultUserAgent : string :=
  "quackfetch/0.1 (+https://github.com/your-repo/quackfetch)".

(** [getRateLimitTracker(host, rateLimitMs)]: creates the host's tracker
    when the map has none, and returns the one in the map. *)
Definition getRateLimitTracker (host : string) (rateLimitMs : Z) : M tracker :=
  fun w =>
    match rateLimitMap w !! host with
    | Some t => (inl t, w)
    | None =>
        let t := mkTracker 0 rateLimitMs in
        (inl t, mkWorld (now w) (<[host := t]> (rateLimitMap w)) (network w) (trace w))
    end.

(** [tracker.lastRequest = value] on the tracker that the map holds for
    [host]. *)
Definition set_lastRequest (host : string) (value : Z) : M unit :=
  fun w =>
    (inl tt,
     mkWorld (now w)
       (alter (fun t => mkTracker value (Net.rateLimitMs t)) host (rateLimitMap w))
       (network w) (trace w)).

(** [enforceRateLimit(host, rateLimitMs)] *)
Definition enforceRateLimit (host : string) (rateLimitMs : Z) : M unit :=
  await tracker <- getRateLimitTracker host rateLimitMs in
  await now <- date_now in
  let timeSinceLastRequest := now - lastRequest tracker in
  await _ <- (if timeSinceLastRequest <? rateLimitMs
              then sleep (rateLimitMs - timeSinceLastRequest)
              else ret tt) in
  await now' <- date_now in
  set_lastRequest host now'.

(** [fetchRobotsTxt(baseUrl, userAgent)] of [utils.js]: the text of the
    robots.txt at [baseUrl], or [null] for a status that is not ok and
    for every failure, an invalid [baseUrl] among them. The signal
    [AbortSignal.timeout(5000)] covers the request and the reading of the
    body. *)
Definition fetchRobotsTxt {U : Url.Parser} (baseUrl userAgent : string) : M Js.value :=
  try_catch
    (match Url.new_at "/robots.txt" baseUrl with
     | None => throw (Js.TypeError "Invalid URL")
     | Some resolved =>
         let robotsUrl := Url.href resolved in
         await start <- date_now in
         await response <- fetch robotsUrl 5000 "TimeoutError" in
         let '(status, _, body) := response in
         if ok status
         then await content <- text body (Some (start + 5000, "TimeoutError")) in
              ret (Js.Str content)
         else ret Js.Null
     end)
    (fun _ => ret Js.Null).

Record options : Type := mkOptions {
  userAgent : option string;
  timeout : option Z;
  retries : option Z;
  retryDelay : option Z;
  checkRobots : option bool
}.

(** Lines 79 to 85 of [fetchHtml]: the robots.txt gate. *)
Definition robots_gate {U : Url.Parser} (checkRobots : bool)
    (baseUrl userAgent path : string) : M unit :=
  if checkRobots then
    await robotsTxt <- fetchRobotsTxt baseUrl userAgent in
    if Js.truthy robotsTxt && negb (Utils.checkRobotsTxt robotsTxt userAgent path)
    then throw (Js.Error ("Access to " +:+ path +:+ " is disallowed by robots.txt"))
    else ret tt
  else ret tt.

(** An error the [catch] of the loop throws again at once. *)
Definition not_retried (error : Js.error) : bool :=
  String.eqb (Js.name error) "AbortError" || Js.includes (Js.message error) "robots.txt".

(** The error thrown after the loop; reading [lastError.message] of an
    undefined [lastError] is a [TypeError]. *)
Definition exhausted (url : string) (retries : Z) (lastError : option Js.error) : Js.error :=
  match lastError with
  | Some e =>
      Js.Error ("Failed to fetch " +:+ url +:+ " after "
                +:+ pretty (retries + 1) +:+ " attempts: " +:+ Js.message e)
  | None => Js.TypeError "Cannot read properties of undefined (reading 'message')"
  end.

(** The [for (let attempt = 0; attempt <= retries; attempt++)] loop with
    the [throw] that follows it; [n] counts the turns still to run. The
    timer of the abort is cleared once [fetch] has resolved, so the body
    is read with no signal left. *)
Fixpoint attempts (url : string) (timeout retries retryDelay : Z)
    (n : nat) (attempt : Z) (lastError : option Js.error) : M string :=
  match n with
  | O => throw (exhausted url retries lastError)
  | S n' =>
      try_catch
        (await response <- fetch url timeout "AbortError" in
         let '(status, statusText, body) := response in
         if negb (ok status)
         then throw (Js.Error ("HTTP " +:+ pretty status +:+ ": " +:+ statusText))
         else await html <- text body None in
              ret html)
        (fun error =>
           if not_retried error then throw error
           else
             await _ <- (if attempt <? retries
                         then sleep (retryDelay * 2 ^ attempt)
                         else ret tt) in
             attempts url timeout retries retryDelay n' (attempt + 1) (Some error))
  end.

(** [fetchHtml(url, options)] *)
Definition fetchHtml {U : Url.Parser} (url : string) (options : options) : M string :=
  let userAgent := default defaultUserAgent (userAgent options) in
  let timeout := default 10000 (timeout options) in
  let retries := default 2 (retries options) in
  let retryDelay := default 1000 (retryDelay options) in
  let checkRobots := default true (checkRobots options) in
  match Url.new url with
  | None => throw (Js.TypeError "Invalid URL")
  | Some urlObj =>
      let baseUrl := Url.protocol urlObj +:+ "//" +:+ Url.hostname urlObj in
      let path := Url.pathname urlObj +:+ Url.search urlObj in
      await _ <- robots_gate checkRobots baseUrl userAgent path in
      attempts url timeout retries retryDelay (Z.to_nat (retries + 1)) 0 None
  end.

Record search_options : Type := mkSearchOptions {
  s_userAgent : option string;
  s_rateLimitMs : option Z;
  s_timeout : option Z;
  s_checkRobots : option bool
}.

(** The URL that [searchDuckDuckGoHtml] builds for a query. *)
Definition searchUrl (query : string) : string :=
  let encodedQuery := Js.encodeURIComponent query in
  "https://html.duckduckgo.com/html/?q=" +:+ encodedQuery.

(** [searchDuckDuckGoHtml(query, options)] *)
Definition searchDuckDuckGoHtml {U : Url.Parser} (query : string) (options : search_options)
    : M string :=
  let userAgent := default defaultUserAgent (s_userAgent options) in
  let rateLimitMs := default 1000 (s_rateLimitMs options) in
  let timeout := default 10000 (s_timeout options) in
  let checkRobots := default true (s_checkRobots options) in
  await _ <- enforceRateLimit "html.duckduckgo.com" rateLimitMs in
  fetchHtml (searchUrl query)
    (mkOptions (Some userAgent) (Some timeout) None None (Some checkRobots)).

End Fetcher.

(* ================================================================== *)
(** * src/index.js *)
(* ================================================================== *)

Module Index.

Import Parser.

(** The options object of [search]; an absent property is [None]. *)
Record options : Type := mkOptions {
  max : option nat;
  cacheTTL : option Z;
  cacheSize : option Z;
  userAgent : option string;
  rateLimit : option Z;
  useInstantApi : option bool;
  useCache : option bool
}.

(** The state the module lives in: the world of the fetcher and the
    variable [defaultCache], [None] while it is [null]. *)
Record state : Type := mkState {
  world : Net.world;
  defaultCache : option (Lru.t (list SearchResult))
}.

(** Time passes between two calls. *)
Definition elapse (ms : Z) (st : state) : state :=
  mkState (Net.advance ms (world st)) (defaultCache st).

(** What a call of [search] rejects with: an error made by the sources,
    or the error that the constructor of [LRUCache] throws on the options
    it is given. *)
Inductive failure : Type :=
| Thrown (error : Js.error)
| CacheOptions.

(** The character of the double quote. *)
Definition quote : string := String (ascii_of_N 34) EmptyString.

(** The two properties of [relevantOptions]: [options.max || 10] and
    [options.useInstantApi || false]. *)
Definition relevantOptions (options : options) : nat * bool :=
  (match max options with
   | Some (S n) => S n
   | Some O | None => 10%nat
   end,
   default false (useInstantApi options)).

(** [JSON.stringify(relevantOptions)] *)
Definition stringify (relevant : nat * bool) : string :=
  "{" +:+ quote +:+ "max" +:+ quote +:+ ":" +:+ pretty (fst relevant)
  +:+ "," +:+ quote +:+ "useInstantApi" +:+ quote +:+ ":"
  +:+ (if snd relevant then "true" else "false") +:+ "}".

(** [generateCacheKey(query, options)] *)
Definition generateCacheKey (query : string) (options : options) : string :=
  "search:" +:+ query +:+ ":" +:+ stringify (relevantOptions options).

(** The copy [{...result, cached: true}] of a result. *)
Definition stamp (r : SearchResult) : SearchResult :=
  {| title := title r; url := url r; snippet := snippet r; rank := rank r;
     source := source r; retrievedAt := retrievedAt r; cached := Some true |}.

Definition invalid_query : failure :=
  Thrown (Js.Error "Query must be a non-empty string").

(** Lines 73 to 79: the cache is made by the first call that wants one,
    from the options of that call. *)
Definition initialize (useCache : bool) (cacheSize cacheTTL : Z) (st : state)
    : option state :=
  match defaultCache st with
  | None =>
      if useCache then
        match Cache.createCache (Cache.mkOptions (Some cacheSize) (Some cacheTTL)) with
        | Some cache => Some (mkState (world st) (Some cache))
        | None => None
        end
      else Some st
  | Some _ => Some st
  end.

(** Lines 94 to 104: the page from the fetcher, then the results from
    the parser, which reads the clock once the page is there. *)
Definition fetch_and_parse {U : Url.Parser} {L : Dom.Loader} {C : Dom.Clock}
    (query : string) (max : nat) (userAgent : string) (rateLimit : Z)
    : Net.M (list SearchResult) :=
  await html <-
    Fetcher.searchDuckDuckGoHtml query
      (Fetcher.mkSearchOptions (Some userAgent) (Some rateLimit) None (Some true)) in
  fun w => (inl (parseSearchHtml (Net.now w) (Js.Str html) (Parser.mkOptions (Some max))), w).

(** The [try] block of [search] with its [catch]: on success the results
    are stored under [cacheKey] when the cache is in use and there are
    some; every error is thrown again with the query in front. *)
Definition search_miss {U : Url.Parser} {L : Dom.Loader} {C : Dom.Clock}
    (query cacheKey : string) (max : nat) (userAgent : string) (rateLimit : Z)
    (useCache : bool) (st : state) : (list SearchResult + failure) * state :=
  match fetch_and_parse query max userAgent rateLimit (world st) with
  | (inl results, w') =>
      let cache' :=
        if useCache && (0 <? length results)%nat
        then option_map (Cache.set cacheKey results (Net.now w')) (defaultCache st)
        else defaultCache st in
      (inl results, mkState w' cache')
  | (inr error, w') =>
      (inr (Thrown (Js.Error ("Search failed for query " +:+ quote +:+ query +:+ quote
                              +:+ ": " +:+ Js.message error))),
       mkState w' (defaultCache st))
  end.

(** [search(query, options)]. The cache reads the clock at each of its
    calls, and its clock is taken to run with the one of the fetcher;
    [has] and [get] follow each other at one reading. A [get] that found
    nothing after [has] would make [cachedResults.map] throw. *)
Definition search {U : Url.Parser} {L : Dom.Loader} {C : Dom.Clock}
    (query : Js.value) (options : options) (st : state)
    : (list SearchResult + failure) * state :=
  if negb (Js.truthy query) || negb (Js.is_string query) then (inr invalid_query, st)
  else
    match query with
    | Js.Str q =>
        if (String.length (Js.trim q) =? 0)%nat then (inr invalid_query, st)
        else
          let max := default 10%nat (max options) in
          let cacheTTL := default 300000 (cacheTTL options) in
          let cacheSize := default 100 (cacheSize options) in
          let userAgent := default Fetcher.defaultUserAgent (userAgent options) in
          let rateLimit := default 1000 (rateLimit options) in
          let useCache := default true (useCache options) in
          match initialize useCache cacheSize cacheTTL st with
          | None => (inr CacheOptions, st)
          | Some st1 =>
              let cacheKey := generateCacheKey q options in
              let now := Net.now (world st1) in
              match (if useCache then defaultCache st1 else None) with
              | Some cache =>
                  let '(present, cache1) := Cache.has cacheKey now cache in
                  if present then
                    match Cache.get cacheKey now cache1 with
                    | (Some cachedResults, cache2) =>
                        (inl (map stamp cachedResults), mkState (world st1) (Some cache2))
                    | (None, cache2) =>
                        (inr (Thrown (Js.TypeError
                                "Cannot read properties of undefined (reading 'map')")),
                         mkState (world st1) (Some cache2))
                    end
                  else
                    search_miss q cacheKey max userAgent rateLimit useCache
                      (mkState (world st1) (Some cache1))
              | None =>
                  search_miss q cacheKey max userAgent rateLimit useCache st1
              end
          end
    | _ => (inr invalid_query, st)
    end.

(** [clearCache()] *)
Definition clearCache (st : state) : state :=
  mkState (world st) (option_map Cache.clear (defaultCache st)).

(** [getCacheStats()]; [None] is [null]. *)
Definition getCacheStats (st : state) : option Cache.stats :=
  option_map Cache.getStats (defaultCache st).

End Index.

(* ================================================================== *)
(** * A concrete platform for the examples *)
(* ================================================================== *)

(** The statements below hold for every URL parser, HTML loader and
    clock. To run the functions on concrete inputs this module supplies
    a parser for a fragment of the URL syntax, the documents of a few
    HTML fixtures and the calendar arithmetic of [toISOString]. *)
Module Basic.

Fixpoint all_chars (p : ascii -> bool) (s : string) : bool :=
  match s with
  | EmptyString => true
  | String c s' => p c && all_chars p s'
  end.

(** [s] cut before its first character among [stops]. *)
Fixpoint break_at (stops : string) (s : string) : string * string :=
  match s with
  | EmptyString => (EmptyString, EmptyString)
  | String c s' =>
      if Js.one_of stops c then (EmptyString, s)
      else let '(a, b) := break_at stops s' in (String c a, b)
  end.

Definition host_char (c : ascii) : bool :=
  Js.is_lower c || Js.is_digit c || Js.one_of "-." c.
Definition path_char (c : ascii) : bool := Js.is_alnum c || Js.one_of "-_~./" c.
Definition query_char (c : ascii) : bool := Js.is_alnum c || Js.one_of "-_.~*+%=&/:" c.
Definition fragment_char (c : ascii) : bool := Js.is_alnum c || Js.one_of "-_" c.

Definition starts_with_letter (s : string) : bool :=
  match s with
  | String c _ => Js.is_lower c
  | EmptyString => false
  end.

(** A lower-case domain name whose labels are non-empty, none of them
    punycode, the last one starting with a letter. *)
Definition plain_domain (h : string) : bool :=
  let labels := Js.split_char "." h in
  all_chars host_char h
  && forallb (fun l => negb (String.eqb l "") && negb (String.prefix "xn--" l)) labels
  && starts_with_letter (List.last labels "").

Definition plain_path (p : string) : bool :=
  all_chars path_char p
  && forallb (fun seg => negb (String.eqb seg ".") && negb (String.eqb seg ".."))
       (Js.split_char "/" p).

(** Form decoding of one name or value: [+] is a space and [%XX] an
    ASCII character; anything else with a [%] is outside the fragment. *)
Fixpoint form_decode (s : string) : option string :=
  match s with
  | EmptyString => Some EmptyString
  | String c s' =>
      if Ascii.eqb c "+" then option_map (String " ") (form_decode s')
      else if Ascii.eqb c "%" then
        match s' with
        | String h (String l s'') =>
            match Js.hex_value h, Js.hex_value l with
            | Some hi, Some lo =>
                if (16 * hi + lo <? 128)%N
                then option_map (String (ascii_of_N (16 * hi + lo))) (form_decode s'')
                else None
            | _, _ => None
            end
        | _ => None
        end
      else option_map (String c) (form_decode s')
  end.

Definition parse_pair (piece : string) : option (string * string) :=
  let '(name, rest) := break_at "=" piece in
  match form_decode name, form_decode (Js.substring_from 1 rest) with
  | Some n, Some v => Some (n, v)
  | _, _ => None
  end.

Fixpoint sequence {A : Type} (l : list (option A)) : option (list A) :=
  match l with
  | [] => Some []
  | Some a :: rest => option_map (cons a) (sequence rest)
  | None :: _ => None
  end.

Definition parse_query (q : string) : option (list (string * string)) :=
  sequence (map parse_pair
              (List.filter (fun p => negb (String.eqb p "")) (Js.split_char "&" q))).

Definition parse_after_scheme (protocol rest : string) : option Url.t :=
  let '(host, r1) := break_at "/?#" rest in
  let '(path, r2) := break_at "?#" r1 in
  let '(q, r3) :=
    if String.prefix "?" r2 then
      let '(q, r3) := break_at "#" (Js.substring_from 1 r2) in (Some q, r3)
    else (None, r2) in
  let fragment := Js.substring_from 1 r3 in
  if plain_domain host && plain_path path
     && all_chars query_char (default "" q) && all_chars fragment_char fragment
  then
    match parse_query (default "" q) with
    | Some params =>
        Some {| Url.protocol := protocol; Url.hostname := host; Url.port := "";
                Url.pathname := if String.eqb path "" then "/" else path;
                Url.query := q; Url.searchParams := params; Url.hash := r3 |}
    | None => None
    end
  else None.

(** [new URL(s)] on the strings [http(s)://domain/path?query#fragment]
    that the URL standard leaves as they are (but for the [/] of an empty
    path); every other string is refused, which the platform's parser
    does for a string without a scheme and not in general. *)
Definition parse_url (s : string) : option Url.t :=
  if String.prefix "https://" s then parse_after_scheme "https:" (Js.substring_from 8 s)
  else if String.prefix "http://" s then parse_after_scheme "http:" (Js.substring_from 7 s)
  else None.

#[export] Instance parser : Url.Parser := parse_url.

(** The page of the cache test of [test/integration.test.js], on one
    line and with single quotes around the attribute values. *)
Definition page_one_result : string :=
  "<html><body><div class='result'>"
  +:+ "<a class='result__a' href='https://example.com'>Title</a>"
  +:+ "<a class='result__snippet'>Snippet</a>"
  +:+ "</div></body></html>".

(** A page with one redirect link, as in [test/parser.test.js]. *)
Definition page_redirect : string :=
  "<div class='result'>"
  +:+ "<a class='result__a' href='/l/?uddg=https%3A%2F%2Fexample.com'>Example Title</a>"
  +:+ "</div>".

(** The same link without the class names that the first strategy
    selects. *)
Definition page_generic_redirect : string :=
  "<div class='results'>"
  +:+ "<a href='/l/?uddg=https%3A%2F%2Fexample.com'>Example Title</a>"
  +:+ "</div>".

(** Three blocks with a link only, as in the rank test of
    [test/parser.test.js]. *)
Definition link_only_block : string :=
  "<div class='result'><a class='result__a' href='https://example.com'>Title</a></div>".

Definition page_three_results : string :=
  link_only_block +:+ link_only_block +:+ link_only_block.

(** The redirect of the normalization test of [test/parser.test.js]:
    its target carries a tracking parameter. *)
Definition page_tracking : string :=
  "<div class='result'>"
  +:+ "<a class='result__a' "
  +:+ "href='/l/?uddg=https%3A%2F%2Fexample.com%2Fpage%3Futm_source%3Dtest'>Title</a>"
  +:+ "<a class='result__snippet'>Snippet</a>"
  +:+ "</div>".

Definition fixtures : list (string * Dom.document) :=
  [ (page_three_results,
     Dom.mkDocument
       (repeat (Dom.mkResult "Title" (Some "https://example.com") "" "" "") 3)
       (repeat (Dom.mkGeneric "Title" (Some "https://example.com") "Title") 3));
    (page_tracking,
     Dom.mkDocument
       [Dom.mkResult "Title"
          (Some "/l/?uddg=https%3A%2F%2Fexample.com%2Fpage%3Futm_source%3Dtest")
          "Snippet" "" ""]
       [Dom.mkGeneric "Title"
          (Some "/l/?uddg=https%3A%2F%2Fexample.com%2Fpage%3Futm_source%3Dtest")
          "TitleSnippet"]);
    (page_one_result,
     Dom.mkDocument
       [Dom.mkResult "Title" (Some "https://example.com") "Snippet" "" ""]
       [Dom.mkGeneric "Title" (Some "https://example.com") "TitleSnippet"]);
    (page_redirect,
     Dom.mkDocument
       [Dom.mkResult "Example Title" (Some "/l/?uddg=https%3A%2F%2Fexample.com") "" "" ""]
       [Dom.mkGeneric "Example Title" (Some "/l/?uddg=https%3A%2F%2Fexample.com")
          "Example Title"]);
    (page_generic_redirect,
     Dom.mkDocument
       []
       [Dom.mkGeneric "Example Title" (Some "/l/?uddg=https%3A%2F%2Fexample.com")
          "Example Title"]) ].

(** What the selectors find in the fixtures; a text that is not a
    fixture is taken to hold no result element. *)
Definition load_fixture (html : string) : Dom.document :=
  match List.find (fun p => String.eqb (fst p) html) fixtures with
  | Some p => snd p
  | None => Dom.mkDocument [] []
  end.

#[export] Instance loader : Dom.Loader := load_fixture.

Definition digits (width : nat) (n : Z) : string :=
  let s := pretty n in
  String.concat "" (repeat "0" (width - String.length s)) +:+ s.

(** [new Date(ms).toISOString()] for the years 0 to 9999. *)
Definition iso_string (ms : Z) : string :=
  let days := ms / 86400000 in
  let rest := ms mod 86400000 in
  let z := days + 719468 in
  let era := z / 146097 in
  let doe := z - era * 146097 in
  let yoe := (doe - doe / 1460 + doe / 36524 - doe / 146096) / 365 in
  let doy := doe - (365 * yoe + yoe / 4 - yoe / 100) in
  let mp := (5 * doy + 2) / 153 in
  let d := doy - (153 * mp + 2) / 5 + 1 in
  let m := if mp <? 10 then mp + 3 else mp - 9 in
  let y := yoe + era * 400 + (if m <=? 2 then 1 else 0) in
  digits 4 y +:+ "-" +:+ digits 2 m +:+ "-" +:+ digits 2 d +:+ "T"
  +:+ digits 2 (rest / 3600000) +:+ ":" +:+ digits 2 (rest / 60000 mod 60) +:+ ":"
  +:+ digits 2 (rest / 1000 mod 60) +:+ "." +:+ digits 3 (rest mod 1000) +:+ "Z".

#[export] Instance clock : Dom.Clock := iso_string.

End Basic.

(* ================================================================== *)
(** * Properties *)
(* ================================================================== *)

(** ** The platform on examples *)

Example iso_string_examples :
  Basic.iso_string 0 = "1970-01-01T00:00:00.000Z"
  /\ Basic.iso_string 1700000000000 = "2023-11-14T22:13:20.000Z"
  /\ Basic.iso_string 951782400123 = "2000-02-29T00:00:00.123Z".
Proof. repeat split; vm_compute; reflexivity. Qed.

Example parse_url_examples :
  Basic.parse_url "https://example.com"
  = Some (Url.mk "https:" "example.com" "" "/" None [] "")
  /\ Basic.parse_url "https://example.com/page/?a=1&utm_source=x#top"
     = Some (Url.mk "https:" "example.com" "" "/page/" (Some "a=1&utm_source=x")
               [("a", "1"); ("utm_source", "x")] "#top")
  /\ Basic.parse_url "https://html.duckduckgo.com/html/?q=a%20b"
     = Some (Url.mk "https:" "html.duckduckgo.com" "" "/html/" (Some "q=a%20b")
               [("q", "a b")] "")
  /\ Basic.parse_url "/l/?uddg=x" = None
  /\ Basic.parse_url "not a url" = None.
Proof. repeat split; vm_compute; reflexivity. Qed.

Example normalizeUrl_examples :
  let normalizeUrl := Utils.normalizeUrl (U := Basic.parser) in
  normalizeUrl (Js.Str "https://example.com/page/?utm_source=x") = "https://example.com/page"
  /\ normalizeUrl (Js.Str "https://example.com") = "https://example.com/"
  /\ normalizeUrl (Js.Str "https://example.com/a/?ref=1&b=c%20d") = "https://example.com/a/?b=c+d"
  /\ normalizeUrl (Js.Str "/l/?uddg=x") = "/l/?uddg=x".
Proof. repeat split; vm_compute; reflexivity. Qed.

Example encodeURIComponent_space :
  Js.encodeURIComponent "a b&c" = "a%20b%26c".
Proof. reflexivity. Qed.

Example decodeURIComponent_example :
  Js.decodeURIComponent "https%3A%2F%2Fexample.com" = Some "https://example.com".
Proof. reflexivity. Qed.

Example decodeURIComponent_utf8 :
  Js.decodeURIComponent "caf%C3%A9" = Some ("caf" +:+ Js.string_of_bytes [195%N; 169%N])
  /\ Js.decodeURIComponent "%C3" = None
  /\ Js.decodeURIComponent "%zz" = None
  /\ Js.decodeURIComponent "%C0%80" = None.
Proof. repeat split; reflexivity. Qed.

Example split_example :
  Js.split "uddg=" "/l/?uddg=a&b=uddg=c" = ["/l/?"; "a&b="; "c"]
  /\ Js.split_char "010" ("a" +:+ String "010" "b") = ["a"; "b"]
  /\ Js.trim "  a b  " = "a b".
Proof. repeat split; reflexivity. Qed.

(** [trim] on white space beyond ASCII: a no-break space (U+00A0) in
    front, an ideographic space (U+3000) and a line separator (U+2028)
    behind; the no-break space inside stays, and so does a byte [A0]
    that belongs to another character (U+0100 and U+0120 here). *)
Example trim_unicode :
  let nbsp := Js.string_of_bytes [194; 160]%N in
  let ideographic := Js.string_of_bytes [227; 128; 128]%N in
  let line_separator := Js.string_of_bytes [226; 128; 168]%N in
  let a_macron := Js.string_of_bytes [196; 128]%N in
  let g_dot := Js.string_of_bytes [196; 160]%N in
  Js.trim (nbsp +:+ " a" +:+ nbsp +:+ "b" +:+ ideographic +:+ line_separator) = "a" +:+ nbsp +:+ "b"
  /\ Js.trim (a_macron +:+ g_dot +:+ " ") = a_macron +:+ g_dot
  /\ Js.trim (nbsp +:+ ideographic) = "".
Proof. repeat split; vm_compute; reflexivity. Qed.

(** [substring(0, n)] counts UTF-16 code units: [e] with an acute accent
    (two bytes) is one unit, an emoji (four bytes) is two, and a cut
    between them leaves half a pair. *)
Example substring_units :
  let e_acute := Js.string_of_bytes [195; 169]%N in
  let emoji := Js.string_of_bytes [240; 159; 152; 128]%N in
  Js.substring_to 2 ("a" +:+ e_acute +:+ "b") = "a" +:+ e_acute
  /\ Js.substring_to 3 ("a" +:+ emoji +:+ "b") = "a" +:+ emoji
  /\ Js.substring_to 2 ("a" +:+ emoji +:+ "b") = "a" +:+ Js.replacement_character
  /\ Js.substring_to 200 "short" = "short"
  /\ Js.substring_to 0 "abc" = "".
Proof. repeat split; vm_compute; reflexivity. Qed.

(** ** Facts about the string methods *)

Lemma append_nil (s : string) : "" +:+ s = s.
Proof. reflexivity. Qed.

Lemma append_cons (c : ascii) (s t : string) : String c s +:+ t = String c (s +:+ t).
Proof. reflexivity. Qed.

Lemma append_empty_r (s : string) : s +:+ "" = s.
Proof. induction s as [|c s IH]; [reflexivity | rewrite append_cons; congruence]. Qed.

Lemma append_assoc (a b c : string) : (a +:+ b) +:+ c = a +:+ (b +:+ c).
Proof. induction a as [|x a IH]; [reflexivity | rewrite !append_cons; congruence]. Qed.

Lemma length_append (a b : string) :
  String.length (a +:+ b) = (String.length a + String.length b)%nat.
Proof.
  induction a as [|x a IH]; [reflexivity | rewrite append_cons; simpl; congruence].
Qed.

Lemma substring_all (s : string) : String.substring 0 (String.length s) s = s.
Proof. induction s as [|c s IH]; simpl; [reflexivity | congruence]. Qed.

Lemma substring_app_prefix (a b : string) :
  String.substring 0 (String.length a) (a +:+ b) = a.
Proof.
  induction a as [|x a IH]; rewrite ?append_cons, ?append_nil; simpl.
  - destruct b; reflexivity.
  - congruence.
Qed.

Lemma substring_app_suffix (a b : string) (k : nat) :
  String.substring (String.length a) k (a +:+ b) = String.substring 0 k b.
Proof.
  induction a as [|x a IH]; [reflexivity | rewrite append_cons; simpl; congruence].
Qed.

Lemma substring_split (s : string) (k : nat) :
  (k <= String.length s)%nat ->
  s = String.substring 0 k s +:+ String.substring k (String.length s - k) s.
Proof.
  revert k. induction s as [|c s IH]; intros k Hk; simpl in *.
  - destruct k; [reflexivity | lia].
  - destruct k as [|k]; simpl.
    + rewrite append_nil. now rewrite substring_all.
    + rewrite append_cons. f_equal. apply IH. lia.
Qed.

Lemma string_eqb_true (a b : string) : String.eqb a b = true -> a = b.
Proof. apply String.eqb_eq. Qed.

Lemma endsWith_app (t p : string) : Js.endsWith (t +:+ p) p = true.
Proof.
  unfold Js.endsWith. rewrite length_append.
  apply andb_true_intro. split.
  - apply Nat.leb_le. lia.
  - replace (String.length t + String.length p - String.length p)%nat
      with (String.length t) by lia.
    rewrite substring_app_suffix, substring_all. apply String.eqb_refl.
Qed.

Lemma endsWith_inv (s p : string) :
  Js.endsWith s p = true ->
  s = String.substring 0 (String.length s - String.length p) s +:+ p.
Proof.
  unfold Js.endsWith. intros H. apply andb_prop in H as [Hle Heq].
  apply Nat.leb_le in Hle. apply string_eqb_true in Heq.
  rewrite (substring_split s (String.length s - String.length p)) at 1 by lia.
  f_equal. rewrite <- Heq at 3. f_equal. lia.
Qed.

Lemma slice_0_m1_app (t : string) (c : ascii) :
  Js.slice_0_m1 (t +:+ String c "") = t.
Proof.
  unfold Js.slice_0_m1. rewrite length_append. simpl.
  replace (String.length t + 1 - 1)%nat with (String.length t) by lia.
  apply substring_app_prefix.
Qed.





(** ** normalizeUrl *)

(** What a run of [searchParams.delete] over a list of names leaves. *)
Definition kept_params (names : list string) (l : list (string * string))
    : list (string * string) :=
  List.filter (fun p => forallb (fun n => negb (String.eqb (fst p) n)) names) l.







Definition is_tracking (name : string) : bool :=
  existsb (String.eqb name) Utils.trackingParams.

Lemma kept_params_nil (l : list (string * string)) :
  forallb (fun p => is_tracking (fst p)) l = true ->
  kept_params Utils.trackingParams l = [].
Proof.
  induction l as [|p l IH]; intros H; [reflexivity|].
  simpl in H. apply andb_prop in H as [Hp Hl].
  unfold kept_params in *. cbn [List.filter].
  rewrite (IH Hl).
  replace (forallb (fun n => negb (String.eqb (fst p) n)) Utils.trackingParams)
    with (negb (is_tracking (fst p))); [now rewrite Hp|].
  unfold is_tracking. generalize Utils.trackingParams as names.
  induction names as [|n names IHn]; simpl; [reflexivity|].
  rewrite negb_orb. now rewrite IHn.
Qed.


Lemma normalizeUrl_unparsed {U : Url.Parser} (s : string) :
  s <> "" -> Url.new s = None -> Utils.normalizeUrl (Js.Str s) = s.
Proof.
  intros Hs Hnew. unfold Utils.normalizeUrl. simpl.
  destruct (String.eqb_spec s "") as [->|_]; [congruence|]. simpl.
  now rewrite Hnew.
Qed.

(** C10. [normalizeUrl] gives the empty string, and throws nothing, for
    [null], [undefined], the empty string and every value that is not a
    string; a non-empty string that the URL parser refuses comes back
    unchanged. *)
Theorem normalizeUrl_guard {U : Url.Parser} :
  Utils.normalizeUrl Js.Null = ""
  /\ Utils.normalizeUrl Js.Undefined = ""
  /\ Utils.normalizeUrl (Js.Str "") = ""
  /\ (forall v, Js.is_string v = false -> Utils.normalizeUrl v = "")
  /\ (forall s, s <> "" -> Url.new s = None -> Utils.normalizeUrl (Js.Str s) = s).
Proof.
  repeat split.
  - intros v Hv. destruct v; simpl in Hv; try discriminate; try reflexivity.
    + unfold Utils.normalizeUrl. simpl. now rewrite orb_true_r.
    + unfold Utils.normalizeUrl. simpl. now rewrite orb_true_r.
  - intros s Hs Hnew. now apply normalizeUrl_unparsed.
Qed.

(** The guard on concrete values, and a string that does not parse. *)
Lemma normalizeUrl_guard_witness :
  Utils.normalizeUrl (U := Basic.parser) (Js.Number 42) = ""
  /\ Utils.normalizeUrl (U := Basic.parser) (Js.Str "not a url") = "not a url".
Proof.
  destruct (normalizeUrl_guard (U := Basic.parser)) as (_ & _ & _ & Hv & Hs).
  split.
  - apply Hv. reflexivity.
  - apply Hs; [discriminate | reflexivity].
Defined.




(** ** checkRobotsTxt *)

(** The reading of robots.txt that the specification words: records
    headed by [User-agent:] lines, the last applicable one deciding, and
    a path matching a rule by equality, by prefix or by the prefix before
    a final [*]. *)
Module RobotsSpec.

Definition field (name line : string) : bool :=
  Js.startsWith (Js.toLowerCase line) name.

Definition value_after (n : nat) (line : string) : string :=
  Js.trim (Js.substring_from n line).

Definition is_agent_line (line : string) : bool := field "user-agent:" line.

(** A record applies when its agent is [*] or occurs in the caller's
    user agent. *)
Definition applies (userAgent line : string) : bool :=
  let agent := value_after 11 line in
  String.eqb agent "*" || Js.includes userAgent agent.

(** The lines of a record: those up to the next [User-agent:] line. *)
Fixpoint body_of (lines : list string) : list string :=
  match lines with
  | [] => []
  | line :: rest => if is_agent_line line then [] else line :: body_of rest
  end.

(** The body of the last record that applies, if one does. *)
Fixpoint last_applicable_record (userAgent : string) (lines : list string)
    : option (list string) :=
  match lines with
  | [] => None
  | line :: rest =>
      match last_applicable_record userAgent rest with
      | Some body => Some body
      | None =>
          if is_agent_line line && applies userAgent line
          then Some (body_of rest)
          else None
      end
  end.

(** [Disallow: rule] adds a rule; [Disallow:] alone clears the rules
    gathered so far. *)
Definition add_disallow (rules : list string) (line : string) : list string :=
  if field "disallow:" line
  then if String.eqb (value_after 9 line) "" then [] else rules ++ [value_after 9 line]
  else rules.

(** [Allow: rule] adds a rule. *)
Definition add_allow (rules : list string) (line : string) : list string :=
  if field "allow:" line && negb (String.eqb (value_after 6 line) "")
  then rules ++ [value_after 6 line]
  else rules.

Definition disallow_of (body : list string) : list string := fold_left add_disallow body [].
Definition allow_of (body : list string) : list string := fold_left add_allow body [].

(** Equality, or prefix, or the rule ends in [*] and what precedes the
    [*] is a prefix of the path. *)
Definition rule_matches (path rule : string) : bool :=
  String.eqb path rule
  || String.prefix rule path
  || (Js.endsWith rule "*" && String.prefix (Js.slice_0_m1 rule) path).

(** The verdict: disallowed when some disallow rule matches and no allow
    rule does. *)
Definition disallowed (userAgent path : string) (lines : list string) : Prop :=
  exists body,
    last_applicable_record userAgent lines = Some body
    /\ (exists d, In d (disallow_of body) /\ rule_matches path d = true)
    /\ (forall a, In a (allow_of body) -> rule_matches path a = false).

End RobotsSpec.

(** The text that a reply carries; a network error and a body that
    breaks off carry none. *)
Definition reply_text (r : Net.reply) : string :=
  match Net.result r with
  | Net.Response _ _ (Net.Text _ content) => content
  | _ => ""
  end.

(** The network gives no robots.txt to the next request: a network
    error, a status that is not ok, a body that breaks off, or headers
    and body that are not there within five seconds. *)
Definition robots_unavailable (w : Net.world) : bool :=
  let r := fst (Net.next_reply w) in
  (5000 <=? Net.latency r)
  || match Net.result r with
     | Net.Response status _ body =>
         negb (Net.ok status)
         || match body with
            | Net.Text delay _ => 5000 - Z.max 0 (Net.latency r) <=? delay
            | Net.Broken _ _ => true
            end
     | Net.NetworkError _ => true
     end.

(** The time that [fetchRobotsTxt] takes on a reply: the five seconds of
    its signal when the headers or the body are late, else the time of
    the headers and, for a status that is ok, of the body. *)
Definition robots_time (r : Net.reply) : Z :=
  if 5000 <=? Net.latency r then 5000
  else
    Z.max 0 (Net.latency r)
    + match Net.result r with
      | Net.Response status _ body =>
          if Net.ok status
          then if 5000 - Z.max 0 (Net.latency r) <=? Net.delay_of body
               then 5000 - Z.max 0 (Net.latency r)
               else Z.max 0 (Net.delay_of body)
          else 0
      | Net.NetworkError _ => 0
      end.

Lemma prefix_cons (c d : ascii) (p s : string) :
  String.prefix (String c p) (String d s)
  = if Ascii.eqb c d then String.prefix p s else false.
Proof.
  cbn -[ascii_dec Ascii.eqb].
  destruct (ascii_dec c d) as [->|Hne].
  - now rewrite Ascii.eqb_refl.
  - destruct (Ascii.eqb_spec c d); [congruence | reflexivity].
Qed.

Lemma prefix_iff (p s : string) :
  String.prefix p s = true <-> exists x, s = p +:+ x.
Proof.
  revert s. induction p as [|c p IH]; intros s.
  - split; [intros _; exists s; reflexivity | intros _; destruct s; reflexivity].
  - destruct s as [|d s].
    + split; [discriminate | intros [x Hx]; discriminate].
    + rewrite prefix_cons. destruct (Ascii.eqb_spec c d) as [->|Hne].
      * rewrite IH. split; intros [x Hx]; exists x.
        -- rewrite append_cons. congruence.
        -- rewrite append_cons in Hx. congruence.
      * split; [discriminate|]. intros [x Hx]. rewrite append_cons in Hx. congruence.
Qed.

Lemma prefix_disallow_not_allow (s : string) :
  String.prefix "disallow:" s = true -> String.prefix "allow:" s = false.
Proof. intros H. apply prefix_iff in H as [x ->]. reflexivity. Qed.

Lemma prefix_agent_not_rule (s : string) :
  String.prefix "user-agent:" s = true ->
  String.prefix "disallow:" s = false /\ String.prefix "allow:" s = false.
Proof. intros H. apply prefix_iff in H as [x ->]. split; reflexivity. Qed.

(** One turn of the scan inside a record, on a line that is no header. *)
Lemma scan_line_body (userAgent agent line : string) (d a : list string) :
  RobotsSpec.is_agent_line line = false ->
  Utils.scan_line userAgent (Utils.mkScan (Some agent) d a) line
  = Utils.mkScan (Some agent) (RobotsSpec.add_disallow d line) (RobotsSpec.add_allow a line).
Proof.
  unfold RobotsSpec.is_agent_line, RobotsSpec.field. intros Hline.
  unfold Utils.scan_line, RobotsSpec.add_disallow, RobotsSpec.add_allow,
    RobotsSpec.field, RobotsSpec.value_after.
  rewrite Hline. simpl.
  destruct (Js.startsWith (Js.toLowerCase line) "disallow:") eqn:Hd.
  - unfold Js.startsWith in *. rewrite (prefix_disallow_not_allow _ Hd). simpl.
    destruct (String.eqb _ ""); reflexivity.
  - destruct (Js.startsWith (Js.toLowerCase line) "allow:"); simpl; [|reflexivity].
    destruct (String.eqb _ ""); reflexivity.
Qed.

Lemma scan_line_outside (userAgent line : string) (d a : list string) :
  RobotsSpec.is_agent_line line = false ->
  Utils.scan_line userAgent (Utils.mkScan None d a) line = Utils.mkScan None d a.
Proof.
  unfold RobotsSpec.is_agent_line, RobotsSpec.field, Utils.scan_line.
  intros ->. reflexivity.
Qed.

Lemma scan_line_header (userAgent line : string) (st : Utils.scan) :
  RobotsSpec.is_agent_line line = true ->
  Utils.scan_line userAgent st line
  = if RobotsSpec.applies userAgent line
    then Utils.mkScan (Some (RobotsSpec.value_after 11 line)) [] []
    else Utils.mkScan None (Utils.disallowRules st) (Utils.allowRules st).
Proof.
  unfold RobotsSpec.is_agent_line, RobotsSpec.field, Utils.scan_line.
  intros ->. reflexivity.
Qed.

(** The rules the scan ends with, from any state: those of the last
    applicable record when there is one; otherwise the rules it started
    with, extended by the rest of the current record when it is inside
    one. *)
Lemma scan_rules (userAgent : string) (lines : list string) (st : Utils.scan) :
  let final := fold_left (Utils.scan_line userAgent) lines st in
  match RobotsSpec.last_applicable_record userAgent lines with
  | Some body =>
      Utils.disallowRules final = RobotsSpec.disallow_of body
      /\ Utils.allowRules final = RobotsSpec.allow_of body
  | None =>
      match Utils.currentUserAgent st with
      | Some _ =>
          Utils.disallowRules final
          = fold_left RobotsSpec.add_disallow (RobotsSpec.body_of lines) (Utils.disallowRules st)
          /\ Utils.allowRules final
             = fold_left RobotsSpec.add_allow (RobotsSpec.body_of lines) (Utils.allowRules st)
      | None =>
          Utils.disallowRules final = Utils.disallowRules st
          /\ Utils.allowRules final = Utils.allowRules st
      end
  end.
Proof.
  revert st. induction lines as [|line rest IH]; intros st; cbn zeta.
  - simpl. destruct (Utils.currentUserAgent st); split; reflexivity.
  - cbn [fold_left RobotsSpec.last_applicable_record RobotsSpec.body_of].
    specialize (IH (Utils.scan_line userAgent st line)). cbn zeta in IH.
    destruct (RobotsSpec.last_applicable_record userAgent rest) as [body|]; [exact IH|].
    destruct (RobotsSpec.is_agent_line line) eqn:Hline.
    + rewrite (scan_line_header _ _ _ Hline) in *. simpl andb.
      destruct (RobotsSpec.applies userAgent line); simpl in IH |- *.
      * exact IH.
      * destruct (Utils.currentUserAgent st); exact IH.
    + simpl andb. cbv iota. destruct st as [[agent|] d a].
      * rewrite (scan_line_body _ _ _ _ _ Hline) in *. exact IH.
      * rewrite (scan_line_outside _ _ _ _ Hline) in *. exact IH.
Qed.

Lemma add_disallow_nonempty (rules : list string) (line : string) :
  Forall (fun r => r <> "") rules ->
  Forall (fun r => r <> "") (RobotsSpec.add_disallow rules line).
Proof.
  intros H. unfold RobotsSpec.add_disallow.
  destruct (RobotsSpec.field "disallow:" line); [|exact H].
  destruct (String.eqb_spec (RobotsSpec.value_after 9 line) ""); [constructor|].
  apply Forall_app. split; [exact H | constructor; [assumption | constructor]].
Qed.

Lemma add_allow_nonempty (rules : list string) (line : string) :
  Forall (fun r => r <> "") rules ->
  Forall (fun r => r <> "") (RobotsSpec.add_allow rules line).
Proof.
  intros H. unfold RobotsSpec.add_allow.
  destruct (RobotsSpec.field "allow:" line); simpl; [|exact H].
  destruct (String.eqb_spec (RobotsSpec.value_after 6 line) ""); simpl; [exact H|].
  apply Forall_app. split; [exact H | constructor; [assumption | constructor]].
Qed.

Lemma fold_nonempty (step : list string -> string -> list string) :
  (forall rules line, Forall (fun r => r <> "") rules ->
                      Forall (fun r => r <> "") (step rules line)) ->
  forall body rules, Forall (fun r => r <> "") rules ->
                     Forall (fun r => r <> "") (fold_left step body rules).
Proof.
  intros Hstep body. induction body as [|l body IH]; intros rules H; simpl; auto.
Qed.

(** On a non-empty path and a non-empty rule, [pathMatchesRule] is the
    matching relation of the specification. *)
Lemma pathMatchesRule_spec (path rule : string) :
  path <> "" -> rule <> "" ->
  Utils.pathMatchesRule path rule = RobotsSpec.rule_matches path rule.
Proof.
  intros Hp Hr. unfold Utils.pathMatchesRule, RobotsSpec.rule_matches, Js.startsWith.
  destruct (String.eqb_spec rule "") as [|_]; [congruence|].
  destruct (String.eqb_spec path "") as [|_]; [congruence|]. simpl.
  destruct (String.eqb_spec path rule) as [->|Hne]; [reflexivity|]. simpl.
  destruct (Js.endsWith rule "*") eqn:Hstar.
  - rewrite andb_true_l.
    destruct (String.prefix rule path) eqn:Hpre; [|reflexivity]. simpl.
    apply prefix_iff in Hpre as [x Hx]. apply endsWith_inv in Hstar.
    apply prefix_iff. exists ("*" +:+ x). rewrite Hx. rewrite Hstar at 1.
    now rewrite append_assoc.
  - rewrite andb_false_l, orb_false_r. destruct (String.prefix rule path); reflexivity.
Qed.

Lemma verdict_false (path : string) (allow rules : list string) :
  Utils.verdict path allow rules = false <->
  (exists d, In d rules /\ Utils.pathMatchesRule path d = true)
  /\ (forall a, In a allow -> Utils.pathMatchesRule path a = false).
Proof.
  assert (Hall : existsb (fun a => Utils.pathMatchesRule path a) allow = false <->
                 forall a, In a allow -> Utils.pathMatchesRule path a = false).
  { induction allow as [|a allow IH]; simpl.
    - split; [intros _ a [] | reflexivity].
    - rewrite orb_false_iff, IH. split.
      + intros [Ha Hrest] b [<-|Hb]; auto.
      + intros Hb. split; [apply Hb; now left | intros b Hin; apply Hb; now right]. }
  induction rules as [|r rules IH]; simpl.
  - split; [discriminate | intros [[d [[] _]] _]].
  - destruct (Utils.pathMatchesRule path r) eqn:Hr.
    + destruct (existsb _ allow) eqn:Hover; simpl.
      * rewrite IH. split.
        -- intros [[d [Hd Hm]] Ha]. split; [exists d; auto | exact Ha].
        -- intros [_ Ha]. apply Hall in Ha. congruence.
      * split; [|reflexivity]. intros _. split; [exists r; auto | now apply Hall].
    + rewrite IH. split.
      * intros [[d [Hd Hm]] Ha]. split; [exists d; auto | exact Ha].
      * intros [[d [[<-|Hd] Hm]] Ha]; [congruence|]. split; [exists d; auto | exact Ha].
Qed.

Lemma scan_result (userAgent : string) (lines : list string) :
  let final := fold_left (Utils.scan_line userAgent) lines (Utils.mkScan None [] []) in
  match RobotsSpec.last_applicable_record userAgent lines with
  | Some body =>
      Utils.disallowRules final = RobotsSpec.disallow_of body
      /\ Utils.allowRules final = RobotsSpec.allow_of body
  | None => Utils.disallowRules final = [] /\ Utils.allowRules final = []
  end.
Proof. exact (scan_rules userAgent lines (Utils.mkScan None [] [])). Qed.

Lemma rules_nonempty (body : list string) :
  Forall (fun r => r <> "") (RobotsSpec.disallow_of body)
  /\ Forall (fun r => r <> "") (RobotsSpec.allow_of body).
Proof.
  split.
  - apply fold_nonempty; [apply add_disallow_nonempty | constructor].
  - apply fold_nonempty; [apply add_allow_nonempty | constructor].
Qed.

(** What [fetchRobotsTxt] does: nothing but answer [null] when the base
    does not parse; else one request for the resolved address, answered
    by the next reply of the network. *)
Lemma fetchRobotsTxt_run {U : Url.Parser} (baseUrl userAgent : string) (w : Net.world) :
  Fetcher.fetchRobotsTxt baseUrl userAgent w
  = match Url.new_at "/robots.txt" baseUrl with
    | None => (inl Js.Null, w)
    | Some resolved =>
        let r := fst (Net.next_reply w) in
        (inl (if robots_unavailable w then Js.Null else Js.Str (reply_text r)),
         Net.mkWorld (Net.now w + robots_time r) (Net.rateLimitMap w) (tl (Net.network w))
           (Net.trace w ++ [Net.Request (Url.href resolved) (Net.now w)]))
    end.
Proof.
  unfold Fetcher.fetchRobotsTxt.
  destruct (Url.new_at "/robots.txt" baseUrl) as [resolved|]; [|reflexivity].
  unfold robots_unavailable, robots_time, reply_text, Net.try_catch, Net.bind, Net.date_now,
    Net.fetch, Net.next_reply, Net.text, Net.advance, Net.record, Net.ret.
  destruct (Net.network w) as [|r rest] eqn:Hnet; cbn -[Z.add Z.sub Z.max Z.leb].
  - reflexivity.
  - destruct (Z.leb_spec 5000 (Net.latency r)) as [Hlate|Hfast];
      cbn -[Z.add Z.sub Z.max Z.leb].
    + do 2 f_equal; lia.
    + destruct (Net.result r) as [status statusText body|msg];
        cbn -[Z.add Z.sub Z.max Z.leb]; [|do 2 f_equal; lia].
      destruct (Net.ok status); cbn -[Z.add Z.sub Z.max Z.leb]; [|do 2 f_equal; lia].
      replace (Net.now w + 5000 - (Net.now w + Z.max 0 (Net.latency r)))
        with (5000 - Z.max 0 (Net.latency r)) by lia.
      destruct body as [delay content|delay msg]; cbn -[Z.add Z.sub Z.max Z.leb];
        destruct (Z.leb_spec (5000 - Z.max 0 (Net.latency r)) delay);
        cbn -[Z.add Z.sub Z.max Z.leb]; do 2 f_equal; lia.
Qed.

Lemma robots_time_bound (r : Net.reply) : 0 <= robots_time r <= 5000.
Proof.
  unfold robots_time.
  destruct (Z.leb_spec 5000 (Net.latency r)); [lia|].
  destruct (Net.result r) as [status statusText body|msg]; [|lia].
  destruct (Net.ok status); [|lia].
  destruct (Z.leb_spec (5000 - Z.max 0 (Net.latency r)) (Net.delay_of body)); lia.
Qed.

(** When the network gives no robots.txt, [fetchRobotsTxt] settles with
    [null]. *)
Lemma fetchRobotsTxt_unavailable {U : Url.Parser} (baseUrl userAgent : string)
    (w : Net.world) :
  robots_unavailable w = true ->
  fst (Fetcher.fetchRobotsTxt baseUrl userAgent w) = inl Js.Null.
Proof.
  intros H. rewrite fetchRobotsTxt_run.
  destruct (Url.new_at "/robots.txt" baseUrl); [|reflexivity].
  simpl. now rewrite H.
Qed.

(** C5. On a non-empty path, [checkRobotsTxt] answers [false] exactly
    when, in the last applicable record, some disallow rule matches the
    path (by equality, by prefix, or by the prefix before a final [*])
    and no allow rule matches it by the same relation, whatever the
    lengths of the rules. Absent or empty content is allowed, and a
    robots.txt that cannot be fetched lets [fetchHtml] pass. *)
Theorem checkRobotsTxt_last_record {U : Url.Parser} (text userAgent path : string) :
  path <> "" ->
  (Utils.checkRobotsTxt (Js.Str text) userAgent path = false
   <-> RobotsSpec.disallowed userAgent path (Utils.robots_lines text))
  /\ Utils.checkRobotsTxt Js.Null userAgent path = true
  /\ Utils.checkRobotsTxt Js.Undefined userAgent path = true
  /\ Utils.checkRobotsTxt (Js.Str "") userAgent path = true
  /\ (forall baseUrl w,
        robots_unavailable w = true ->
        fst (Fetcher.robots_gate true baseUrl userAgent path w) = inl tt).
Proof.
  intros Hpath. repeat split.
  - (* the code says no: the record says no *)
    unfold Utils.checkRobotsTxt. simpl.
    destruct (String.eqb_spec text "") as [->|Hne]; [discriminate|]. simpl.
    pose proof (scan_result userAgent (Utils.robots_lines text)) as Hscan. cbn zeta in Hscan.
    intros Hv. unfold RobotsSpec.disallowed.
    destruct (RobotsSpec.last_applicable_record userAgent (Utils.robots_lines text))
      as [body|].
    + destruct Hscan as [Hd Ha]. rewrite Hd, Ha in Hv.
      destruct (rules_nonempty body) as [Nd Na]. rewrite Stdlib.Lists.List.Forall_forall in Nd, Na.
      apply verdict_false in Hv as [[d [Hin Hm]] Hall].
      exists body. split; [reflexivity|]. split.
      * exists d. split; [exact Hin|].
        rewrite <- pathMatchesRule_spec; [exact Hm | exact Hpath | exact (Nd d Hin)].
      * intros a Hin'.
        rewrite <- pathMatchesRule_spec; [now apply Hall | exact Hpath | exact (Na a Hin')].
    + destruct Hscan as [Hd Ha]. rewrite Hd, Ha in Hv. discriminate.
  - (* the record says no: the code says no *)
    intros (body & Hrec & [d [Hin Hm]] & Hall).
    unfold Utils.checkRobotsTxt. simpl.
    destruct (String.eqb_spec text "") as [->|Hne]; [discriminate|]. simpl.
    pose proof (scan_result userAgent (Utils.robots_lines text)) as Hscan. cbn zeta in Hscan.
    rewrite Hrec in Hscan. destruct Hscan as [Hd Ha]. rewrite Hd, Ha.
    destruct (rules_nonempty body) as [Nd Na]. rewrite Stdlib.Lists.List.Forall_forall in Nd, Na.
    apply verdict_false. split.
    + exists d. split; [exact Hin|].
      rewrite pathMatchesRule_spec; [exact Hm | exact Hpath | exact (Nd d Hin)].
    + intros a Hin'.
      rewrite pathMatchesRule_spec; [now apply Hall | exact Hpath | exact (Na a Hin')].
  - (* the robots.txt cannot be fetched *)
    intros baseUrl w Hw. unfold Fetcher.robots_gate, Net.bind.
    pose proof (fetchRobotsTxt_unavailable baseUrl userAgent w Hw) as Hnull.
    destruct (Fetcher.fetchRobotsTxt baseUrl userAgent w) as [[v|e] w'];
      simpl in Hnull; [|discriminate].
    inversion Hnull. reflexivity.
Qed.

(** X29. On the empty path, which no URL has, the guard of
    [pathMatchesRule] lets nothing match: every robots.txt allows it,
    whatever it disallows. *)
Lemma checkRobotsTxt_empty_path (robotsTxt : Js.value) (userAgent : string) :
  Utils.checkRobotsTxt robotsTxt userAgent "" = true.
Proof.
  unfold Utils.checkRobotsTxt.
  destruct (negb (Js.truthy robotsTxt) || negb (Js.is_string robotsTxt)); [reflexivity|].
  destruct robotsTxt as [| | | |text|]; try reflexivity.
  generalize (fold_left (Utils.scan_line userAgent) (Utils.robots_lines text)
                (Utils.mkScan None [] [])) as st.
  intros st. induction (Utils.disallowRules st) as [|rule rules IH]; [reflexivity|].
  simpl. unfold Utils.pathMatchesRule at 1.
  now rewrite orb_true_r.
Qed.

Definition newline : string := String "010" "".

(** A robots.txt with three records: the first and the last apply to
    [quackfetch/0.1], and only the rules of the last one count. *)
Definition robots_example : string :=
  "User-agent: *" +:+ newline +:+
  "Disallow: /" +:+ newline +:+
  "User-agent: otherbot" +:+ newline +:+
  "Disallow: /html" +:+ newline +:+
  "User-Agent: quackfetch" +:+ newline +:+
  "Disallow: /private*" +:+ newline +:+
  "Disallow: /tmp" +:+ newline +:+
  "Allow: /tmp/public" +:+ newline.

Example checkRobotsTxt_example :
  map (Utils.checkRobotsTxt (Js.Str robots_example) "quackfetch/0.1")
    ["/html/?q=x"; "/private"; "/privately"; "/tmp/x"; "/tmp/public/x"; "/"]
  = [true; false; false; false; true; true].
Proof. vm_compute. reflexivity. Qed.

(** The theorem on [robots_example] and the path [/tmp/x]: the last
    record that applies disallows [/tmp] and allows only [/tmp/public],
    so the code answers [false]. *)
Lemma checkRobotsTxt_last_record_witness :
  Utils.checkRobotsTxt (Js.Str robots_example) "quackfetch/0.1" "/tmp/x" = false.
Proof.
  refine (proj2 (proj1 (checkRobotsTxt_last_record (U := Basic.parser) robots_example
                          "quackfetch/0.1" "/tmp/x" _)) _).
  - discriminate.
  - exists ["Disallow: /private*"; "Disallow: /tmp"; "Allow: /tmp/public"; ""].
    split; [vm_compute; reflexivity|]. split.
    + exists "/tmp". split; [right; left; reflexivity | reflexivity].
    + intros a [<-|[]]. reflexivity.
Defined.

(** ** The cache *)

Section CacheFacts.

Context {V : Type}.

Implicit Types (c : Lru.t V) (k : string) (l : list string).

(** The last [n] elements of a list. *)
Definition newest (n : nat) (l : list string) : list string :=
  drop (length l - n) l.

Lemma lookup_absent c k : ~ In k (Lru.keys c) -> Lru.lookup k c = None.
Proof.
  unfold Lru.lookup, Lru.keys. induction (Lru.items c) as [|e es IH]; simpl; intros Hk.
  - reflexivity.
  - unfold Lru.has_key at 1. destruct (String.eqb_spec (Lru.key e) k) as [E|E].
    + exfalso. apply Hk. now left.
    + apply IH. intros Hin. apply Hk. now right.
Qed.

Lemma has_keeps_keys c k now :
  Lru.keys (snd (Lru.has k now c)) = Lru.keys c
  /\ Lru.max (snd (Lru.has k now c)) = Lru.max c.
Proof.
  unfold Lru.has. destruct (Lru.lookup k c) as [e|]; [|now split].
  destruct (Lru.isStale now e); [now split|].
  destruct (Lru.updateAgeOnHas c); [|now split].
  split; [|reflexivity]. unfold Lru.keys. simpl.
  rewrite map_map. apply map_ext. intros x. now destruct (Lru.has_key k x).
Qed.

Lemma set_fresh_keys c k (v : V) now :
  ~ In k (Lru.keys c) ->
  Lru.keys (Lru.set k v now c)
  = (if negb (Lru.size c =? 0) && (Lru.size c =? Lru.max c)
     then tl (Lru.keys c) else Lru.keys c) ++ [k]
  /\ Lru.max (Lru.set k v now c) = Lru.max c.
Proof.
  intros Hk. unfold Lru.set. rewrite (lookup_absent c k Hk).
  split; [|reflexivity]. unfold Lru.keys. simpl.
  rewrite map_app. simpl. f_equal.
  destruct (negb (Lru.size c =? 0) && (Lru.size c =? Lru.max c)); [|reflexivity].
  now destruct (Lru.items c).
Qed.

Lemma tl_drop (n : nat) l : tl (drop n l) = drop (S n) l.
Proof.
  revert l. induction n as [|n IH]; intros [|x l]; simpl; try reflexivity.
  apply IH.
Qed.

(** Inserting a fresh key into a cache that holds the newest [max] keys
    of [l] leaves the newest [max] keys of [l ++ [k]]. *)
Lemma newest_snoc (n : nat) l k :
  (0 < n)%nat ->
  (if negb (Z.of_nat (length (newest n l)) =? 0)
      && (Z.of_nat (length (newest n l)) =? Z.of_nat n)
   then tl (newest n l) else newest n l) ++ [k]
  = newest n (l ++ [k]).
Proof.
  intros Hn. unfold newest. rewrite length_drop, length_app. simpl.
  destruct (le_lt_dec n (length l)) as [Hfull|Hroom].
  - replace (length l - (length l - n))%nat with n by lia.
    rewrite Z.eqb_refl, andb_true_r.
    destruct (Z.eqb_spec (Z.of_nat n) 0) as [E|_]; [lia|]. simpl.
    rewrite tl_drop.
    replace (length l + 1 - n)%nat with (S (length l - n)) by lia.
    rewrite drop_app_le by lia. reflexivity.
  - replace (length l - n)%nat with 0%nat by lia.
    replace (length l + 1 - n)%nat with 0%nat by lia.
    rewrite !drop_0.
    replace (length l - 0)%nat with (length l) by lia.
    destruct (Z.eqb_spec (Z.of_nat (length l)) (Z.of_nat n)) as [E|_]; [lia|].
    now rewrite andb_false_r.
Qed.

Lemma newest_subset (n : nat) l k : In k (newest n l) -> In k l.
Proof.
  unfold newest. intros H. apply list_elem_of_In in H. apply list_elem_of_In.
  eapply subseteq_drop. exact H.
Qed.

(** Calls without a [get], inserting fresh and distinct keys: the cache
    goes on holding the newest [max] keys, in the order of insertion. *)
Lemma run_without_get (calls : list (Cache.call V)) c l :
  0 < Lru.max c ->
  forallb (fun call => negb (Cache.is_get call)) calls = true ->
  NoDup (l ++ Cache.inserted calls) ->
  Lru.keys c = newest (Z.to_nat (Lru.max c)) l ->
  Lru.keys (Cache.run calls c)
  = newest (Z.to_nat (Lru.max c)) (l ++ Cache.inserted calls)
  /\ Lru.max (Cache.run calls c) = Lru.max c.
Proof.
  revert c l. induction calls as [|call calls IH]; intros c l Hmax Hget Hnd Hkeys.
  - simpl. now rewrite app_nil_r.
  - simpl in Hget. apply andb_prop in Hget as [Hcall Hget].
    destruct call as [k v now|k now|k now]; simpl in *; try discriminate.
    + (* set *)
      assert (Hfresh : ~ In k (Lru.keys c)).
      { rewrite Hkeys. intros Hin. apply newest_subset in Hin.
        apply NoDup_app in Hnd as (_ & Hdisj & _).
        apply (Hdisj k); [now apply list_elem_of_In | left]. }
      destruct (set_fresh_keys c k v now Hfresh) as [Hk Hm].
      replace (l ++ k :: Cache.inserted calls) with ((l ++ [k]) ++ Cache.inserted calls)
        by now rewrite <- app_assoc.
      unfold Cache.set. rewrite <- Hm.
      apply IH; [now rewrite Hm | exact Hget | now rewrite <- app_assoc |].
      rewrite Hk, Hm. unfold Lru.size.
      replace (length (Lru.items c)) with (length (Lru.keys c))
        by (unfold Lru.keys; apply length_map).
      rewrite Hkeys.
      pose proof (newest_snoc (Z.to_nat (Lru.max c)) l k ltac:(lia)) as Hsnoc.
      rewrite Z2Nat.id in Hsnoc by lia. exact Hsnoc.
    + (* has *)
      destruct (has_keeps_keys c k now) as [Hk Hm].
      unfold Cache.has. rewrite <- Hm.
      apply IH; [now rewrite Hm | exact Hget | exact Hnd | now rewrite Hk, Hm].
Qed.

End CacheFacts.

(** C2, as the code has it. In a cache created with capacity
    [maxSize >= 1], inserting [maxSize + 1] distinct keys, with reads by
    [has] at any moment between the insertions, leaves exactly [maxSize]
    entries: the first-inserted key is evicted and the others stay, in
    the order of insertion. ([get] is left out: it moves the entry it
    reads to the most recently used end.) *)
Theorem cache_evicts_first_inserted {V : Type}
    (maxSize : Z) (ttl : option Z) (cache : Lru.t V)
    (calls : list (Cache.call V)) (first : string) (others : list string) :
  0 < maxSize ->
  Cache.createCache (Cache.mkOptions (Some maxSize) ttl) = Some cache ->
  forallb (fun call => negb (Cache.is_get call)) calls = true ->
  Cache.inserted calls = first :: others ->
  NoDup (first :: others) ->
  Z.of_nat (length others) = maxSize ->
  let final := Cache.run calls cache in
  Cache.stat_size (Cache.getStats final) = maxSize
  /\ ~ In first (Lru.keys final)
  /\ Lru.keys final = others.
Proof.
  intros Hmax Hcreate Hget Hins Hnd Hlen final.
  assert (Hc : Lru.max cache = maxSize /\ Lru.items cache = []).
  { unfold Cache.createCache, Lru.create in Hcreate. simpl in Hcreate.
    destruct (_ || _); [discriminate|]. inversion Hcreate. now split. }
  destruct Hc as [Hm Hitems].
  destruct (run_without_get calls cache [] ltac:(lia) Hget) as [Hkeys _].
  { simpl. now rewrite Hins. }
  { unfold Lru.keys. now rewrite Hitems. }
  assert (Hfinal : Lru.keys final = others).
  { unfold final. rewrite Hkeys, Hins, Hm. simpl. unfold newest. simpl.
    replace (S (length others) - Z.to_nat maxSize)%nat with 1%nat by lia.
    reflexivity. }
  repeat split.
  - simpl. unfold Lru.size.
    replace (length (Lru.items final)) with (length (Lru.keys final))
      by (unfold Lru.keys; apply length_map).
    now rewrite Hfinal.
  - rewrite Hfinal. apply NoDup_cons in Hnd as [Hnotin _].
    intros Hin. apply Hnotin. now apply list_elem_of_In.
  - exact Hfinal.
Qed.

(** A cache for two entries, three insertions and reads by [has],
    one of them of the first key. *)
Definition has_only_calls : list (Cache.call nat) :=
  [ Cache.DoSet "a" 1%nat 1000; Cache.DoSet "b" 2%nat 1001; Cache.DoHas "a" 1002;
    Cache.DoHas "zzz" 1003; Cache.DoSet "c" 3%nat 1004 ].

Definition cache_of_two : Lru.t nat := Lru.mk 2 300000 false false [].

(** The theorem on [has_only_calls]. *)
Lemma cache_evicts_first_inserted_witness :
  Cache.stat_size (Cache.getStats (Cache.run has_only_calls cache_of_two)) = 2
  /\ ~ In "a" (Lru.keys (Cache.run has_only_calls cache_of_two))
  /\ Lru.keys (Cache.run has_only_calls cache_of_two) = ["b"; "c"].
Proof.
  refine (cache_evicts_first_inserted 2 None cache_of_two has_only_calls "a" ["b"; "c"]
            _ _ _ _ _ _); try reflexivity.
  compute_done.
Defined.

(** C2 fails for a read by [get]: the cache holds two entries, [a] and
    [b] are inserted, [a] is read, [c] is inserted. The entry evicted is
    [b]; the first-inserted key [a] is still there. *)
Lemma get_refreshes_recency :
  let calls := [ Cache.DoSet "a" 1%nat 1000; Cache.DoSet "b" 2%nat 1001;
                 Cache.DoGet "a" 1002; Cache.DoSet "c" 3%nat 1003 ] in
  Cache.createCache (V := nat) (Cache.mkOptions (Some 2) None) = Some cache_of_two
  /\ Cache.inserted calls = ["a"; "b"; "c"]
  /\ Lru.keys (Cache.run calls cache_of_two) = ["a"; "c"]
  /\ fst (Cache.has "a" 1004 (Cache.run calls cache_of_two)) = true
  /\ fst (Cache.has "b" 1004 (Cache.run calls cache_of_two)) = false.
Proof. repeat split; vm_compute; reflexivity. Qed.

(** ** The parser *)

(** A result block is well formed when it has a title or a URL: the
    blocks for which the loops push a result. *)
Definition well_formed (element : Dom.result_element) : bool :=
  negb (String.eqb (Js.trim (Dom.link_text element)) "")
  || negb (String.eqb (Parser.resolve_redirect (default "" (Dom.link_href element))) "").

Definition well_formed_generic (element : Dom.generic_element) : bool :=
  negb (String.eqb (Js.trim (Dom.first_link_text element)) "")
  || negb (String.eqb (default "" (Dom.first_link_href element)) "").

Definition count {E : Type} (p : E -> bool) (l : list E) : nat :=
  length (List.filter p l).

Section EachLoop.

Context {E : Type} (body : nat -> E -> option Parser.SearchResult) (wf : E -> bool).

(** The body pushes a result exactly on the well-formed elements, ranked
    one above the number of results so far and with a title. *)
Hypothesis body_spec : forall n e,
  match body n e with
  | Some r => wf e = true /\ Parser.rank r = S n /\ Parser.title r <> ""
  | None => wf e = false
  end.


Lemma each_length (M : nat) (elements : list E) (results : list Parser.SearchResult) :
  (length results <= M)%nat ->
  length (Parser.each body M elements results)
  = Nat.min M (length results + count wf elements).
Proof using body_spec.
  revert results. induction elements as [|e rest IH]; intros results Hle; simpl.
  - unfold count. simpl. lia.
  - unfold count in *. simpl.
    pose proof (body_spec (length results) e) as Hb.
    destruct (Nat.leb_spec M (length results)) as [Hfull|Hroom].
    + lia.
    + destruct (body (length results) e) as [r|].
      * destruct Hb as (-> & _). rewrite IH; rewrite length_app; simpl; lia.
      * rewrite Hb. now apply IH.
Qed.

Lemma each_origin (M : nat) (elements : list E) (results : list Parser.SearchResult)
    (r : Parser.SearchResult) :
  In r (Parser.each body M elements results) ->
  In r results \/ exists n e, In e elements /\ body n e = Some r.
Proof using Type.
  revert results. induction elements as [|e rest IH]; intros results Hin; simpl in Hin.
  - now left.
  - destruct (M <=? length results)%nat; [now left|].
    destruct (body (length results) e) as [r'|] eqn:Hb.
    + apply IH in Hin as [Hin|(n & e' & He & Hn)].
      * apply in_app_or in Hin as [Hin|[<-|[]]]; [now left|].
        right. exists (length results), e. split; [now left | exact Hb].
      * right. exists n, e'. split; [now right | exact Hn].
    + apply IH in Hin as [Hin|(n & e' & He & Hn)]; [now left|].
      right. exists n, e'. split; [now right | exact Hn].
Qed.

End EachLoop.

Lemma or_else_nonempty (a b : string) : b <> "" -> Parser.or_else a b <> "".
Proof.
  intros Hb. unfold Parser.or_else. destruct (String.eqb_spec a ""); congruence.
Qed.

Lemma result_of_spec {U : Url.Parser} {C : Dom.Clock} (now : Z) (n : nat)
    (e : Dom.result_element) :
  match Parser.result_of now n e with
  | Some r => well_formed e = true /\ Parser.rank r = S n /\ Parser.title r <> ""
  | None => well_formed e = false
  end.
Proof.
  unfold Parser.result_of, well_formed.
  destruct (negb _ || negb _); [|reflexivity].
  simpl. repeat split; [lia|]. now apply or_else_nonempty.
Qed.

Lemma generic_result_of_spec {U : Url.Parser} {C : Dom.Clock} (now : Z) (n : nat)
    (e : Dom.generic_element) :
  match Parser.generic_result_of now n e with
  | Some r => well_formed_generic e = true /\ Parser.rank r = S n /\ Parser.title r <> ""
  | None => well_formed_generic e = false
  end.
Proof.
  unfold Parser.generic_result_of, well_formed_generic.
  destruct (negb _ || negb _); [|reflexivity].
  simpl. repeat split; [lia|]. now apply or_else_nonempty.
Qed.

(** [parseSearchHtml] on a non-empty text, as its two loops. *)
Lemma parseSearchHtml_text {U : Url.Parser} {L : Dom.Loader} {C : Dom.Clock}
    (now : Z) (text : string) (options : Parser.options) :
  text <> "" ->
  Parser.parseSearchHtml now (Js.Str text) options
  = let M := default 10%nat (Parser.maxResults options) in
    let first := Parser.each (Parser.result_of now) M
                   (Dom.result_elements (Dom.load text)) [] in
    if (length first =? 0)%nat
    then Parser.each (Parser.generic_result_of now) M
           (Dom.generic_elements (Dom.load text)) first
    else first.
Proof.
  intros Ht. unfold Parser.parseSearchHtml. simpl.
  destruct (String.eqb_spec text "") as [|_]; [congruence|]. reflexivity.
Qed.

Lemma parseSearchHtml_no_text {U : Url.Parser} {L : Dom.Loader} {C : Dom.Clock}
    (now : Z) (html : Js.value) (options : Parser.options) :
  (forall text, html = Js.Str text -> text = "") ->
  Parser.parseSearchHtml now html options = [].
Proof.
  intros Hh. unfold Parser.parseSearchHtml.
  destruct html as [| |b|n|s|]; simpl; try reflexivity.
  - now destruct b.
  - now destruct (negb (n =? 0)).
  - rewrite (Hh s eq_refl). reflexivity.
Qed.

(** The number of results: the limit or the number of well-formed
    blocks, whichever is smaller, for the first strategy if it finds
    a result and else for the fallback. *)
Lemma parseSearchHtml_length {U : Url.Parser} {L : Dom.Loader} {C : Dom.Clock}
    (now : Z) (text : string) (M : nat) :
  text <> "" ->
  let N := count well_formed (Dom.result_elements (Dom.load text)) in
  let N' := count well_formed_generic (Dom.generic_elements (Dom.load text)) in
  length (Parser.parseSearchHtml now (Js.Str text) (Parser.mkOptions (Some M)))
  = if (Nat.min M N =? 0)%nat then Nat.min M N' else Nat.min M N.
Proof.
  intros Ht N N'. rewrite (parseSearchHtml_text now text _ Ht). cbv zeta. simpl default.
  pose proof (each_length (Parser.result_of now) well_formed (result_of_spec now) M
                (Dom.result_elements (Dom.load text)) [] ltac:(simpl; lia)) as L1.
  simpl in L1. fold N in L1. rewrite L1.
  destruct (Nat.min M N =? 0)%nat eqn:E; [|exact L1].
  apply Nat.eqb_eq in E. rewrite E in L1.
  destruct (Parser.each (Parser.result_of now) M _ []) as [|x xs]; [|discriminate].
  rewrite (each_length (Parser.generic_result_of now) well_formed_generic
             (generic_result_of_spec now)) by (simpl; lia).
  reflexivity.
Qed.



Example parseSearchHtml_example :
  Parser.parseSearchHtml (U := Basic.parser) (L := Basic.loader) (C := Basic.clock)
    1700000000000 (Js.Str Basic.page_one_result) (Parser.mkOptions None)
  = [ Parser.mkSearchResult "Title" "https://example.com/" "Snippet" 1 "example.com"
        "2023-11-14T22:13:20.000Z" None ].
Proof. vm_compute. reflexivity. Qed.

(** ** Redirect links *)

Lemma prefix_nil (s : string) : String.prefix "" s = true.
Proof. now destruct s. Qed.

Lemma prefix_app (p s : string) : String.prefix p (p +:+ s) = true.
Proof. apply prefix_iff. now exists s. Qed.

Lemma substring_from_app (a s : string) :
  Js.substring_from (String.length a) (a +:+ s) = s.
Proof.
  unfold Js.substring_from. rewrite length_append.
  replace (String.length a + String.length s - String.length a)%nat
    with (String.length s) by lia.
  rewrite substring_app_suffix. apply substring_all.
Qed.

Definition cons_first (c : ascii) (l : list string) : list string :=
  match l with
  | [] => [String c ""]
  | p :: ps => String c p :: ps
  end.

Lemma split_go_miss (sep : string) (c : ascii) (s : string) :
  String.prefix sep (String c s) = false ->
  Js.split_go sep 0 (String c s) = cons_first c (Js.split_go sep 0 s).
Proof. intros Hp. cbn [Js.split_go]. now rewrite Hp. Qed.

Lemma split_go_skip (sep a s : string) :
  Js.split_go sep (String.length a) (a +:+ s) = Js.split_go sep 0 s.
Proof. induction a as [|c a IH]; [reflexivity | exact IH]. Qed.

Lemma split_go_hit (c : ascii) (sep s : string) :
  Js.split_go (String c sep) 0 (String c sep +:+ s)
  = "" :: Js.split_go (String c sep) 0 s.
Proof.
  rewrite append_cons. cbn [Js.split_go].
  rewrite prefix_cons, Ascii.eqb_refl, prefix_app. f_equal.
  replace (String.length (String c sep) - 1)%nat with (String.length sep)
    by (simpl; lia).
  apply split_go_skip.
Qed.

Lemma includes_cons (c : ascii) (s sub : string) :
  Js.includes (String c s) sub = String.prefix sub (String c s) || Js.includes s sub.
Proof. reflexivity. Qed.

Lemma split_go_none (sep s : string) :
  Js.includes s sep = false -> Js.split_go sep 0 s = [s].
Proof.
  induction s as [|c s IH]; intros Hs; [reflexivity|].
  rewrite includes_cons in Hs. apply orb_false_iff in Hs as [Hp Hs].
  rewrite (split_go_miss _ _ _ Hp), (IH Hs). reflexivity.
Qed.

(** [rawUrl.split('uddg=')[1]] on a link that starts with the first
    redirect prefix. *)
Lemma split_redirect (v : string) :
  Js.includes v "uddg=" = false ->
  nth 1 (Js.split "uddg=" ("/l/?uddg=" +:+ v)) "undefined" = v.
Proof.
  intros Hv. unfold Js.split.
  change ("/l/?uddg=" +:+ v)
    with (String "/" (String "l" (String "/" (String "?" ("uddg=" +:+ v))))).
  rewrite !split_go_miss by reflexivity.
  rewrite split_go_hit, (split_go_none _ _ Hv). reflexivity.
Qed.

Lemma includes_amp (c : ascii) (s : string) :
  Js.includes (String c s) "&" = false ->
  Parser.not_char "&" c = true /\ Js.includes s "&" = false.
Proof.
  rewrite includes_cons, prefix_cons, prefix_nil. unfold Parser.not_char.
  rewrite (Ascii.eqb_sym c). destruct (Ascii.eqb "&" c); simpl; [discriminate | auto].
Qed.

Lemma take_while_value (v rest : string) :
  Js.includes v "&" = false ->
  rest = "" \/ String.prefix "&" rest = true ->
  Parser.take_while (Parser.not_char "&") (v +:+ rest) = v.
Proof.
  intros Hv Hrest. induction v as [|c v IH].
  - rewrite append_nil. destruct Hrest as [->|Hr]; [reflexivity|].
    apply prefix_iff in Hr as [x ->]. reflexivity.
  - apply includes_amp in Hv as [Hc Hv]. rewrite append_cons. simpl.
    rewrite Hc. now rewrite (IH Hv).
Qed.

Lemma match_uddg_cons (c : ascii) (s : string) :
  Parser.match_uddg (String c s)
  = let group := Parser.take_while (Parser.not_char "&") (Js.substring_from 5 (String c s)) in
    if String.prefix "uddg=" (String c s) && negb (String.eqb group "")
    then Some group else Parser.match_uddg s.
Proof. reflexivity. Qed.

(** The regular expression finds the value that follows [uddg=]. *)
Lemma match_uddg_hit (v rest : string) :
  v <> "" -> Js.includes v "&" = false ->
  rest = "" \/ String.prefix "&" rest = true ->
  Parser.match_uddg ("uddg=" +:+ v +:+ rest) = Some v.
Proof.
  intros Hne Hv Hrest.
  change ("uddg=" +:+ v +:+ rest) with (String "u" ("ddg=" +:+ v +:+ rest)).
  rewrite match_uddg_cons. cbv zeta.
  change (String "u" ("ddg=" +:+ v +:+ rest)) with ("uddg=" +:+ (v +:+ rest)).
  rewrite prefix_app, (substring_from_app "uddg="), (take_while_value _ _ Hv Hrest).
  destruct (String.eqb_spec v ""); [congruence | reflexivity].
Qed.

(** A prefix without [&] of a text cut by [&] lies before the cut. *)
Lemma prefix_before_amp (p a s : string) :
  Js.includes p "&" = false ->
  String.prefix p (a +:+ "&" +:+ s) = true -> String.prefix p a = true.
Proof.
  revert a. induction p as [|x p IH]; intros a Hp H; [apply prefix_nil|].
  apply includes_amp in Hp as [Hx Hp].
  destruct a as [|y a].
  - rewrite append_nil in H. change ("&" +:+ s) with (String "&" s) in H.
    rewrite prefix_cons in H. unfold Parser.not_char in Hx.
    destruct (Ascii.eqb x "&"); discriminate.
  - rewrite append_cons, prefix_cons in H. rewrite prefix_cons.
    destruct (Ascii.eqb x y); [now apply IH | discriminate].
Qed.

(** The regular expression passes over a text without [uddg=] that ends
    at an [&]. *)
Lemma match_uddg_skip (x s : string) :
  Js.includes x "uddg=" = false ->
  Parser.match_uddg (x +:+ "&" +:+ s) = Parser.match_uddg s.
Proof.
  induction x as [|c x IH]; intros Hx.
  - rewrite append_nil. change ("&" +:+ s) with (String "&" s).
    rewrite match_uddg_cons. reflexivity.
  - rewrite includes_cons in Hx. apply orb_false_iff in Hx as [Hp Hx].
    rewrite append_cons, match_uddg_cons. cbv zeta.
    rewrite <- append_cons.
    destruct (String.prefix "uddg=" (String c x +:+ "&" +:+ s)) eqn:E.
    + apply prefix_before_amp in E; [congruence | reflexivity].
    + simpl andb. cbv iota. now apply IH.
Qed.

Lemma match_uddg_miss (c : ascii) (s : string) :
  String.prefix "uddg=" (String c s) = false ->
  Parser.match_uddg (String c s) = Parser.match_uddg s.
Proof. intros Hp. rewrite match_uddg_cons. cbv zeta. now rewrite Hp. Qed.

(** The target of a link [/l/?uddg=v] whose value [v] is followed by
    nothing: the decoded value, or the raw link when [v] does not
    decode. *)
Lemma resolve_redirect_uddg (v : string) :
  Js.includes v "&" = false -> Js.includes v "uddg=" = false ->
  Parser.resolve_redirect ("/l/?uddg=" +:+ v)
  = match Js.decodeURIComponent v with
    | Some target => target
    | None => "/l/?uddg=" +:+ v
    end.
Proof.
  intros Hamp Hv. unfold Parser.resolve_redirect, Js.startsWith.
  rewrite prefix_app, (split_redirect v Hv).
  destruct (Js.decodeURIComponent v) as [target|] eqn:Hdec; [reflexivity|].
  unfold Parser.decode_match.
  assert (Hne : v <> "") by (intros ->; discriminate).
  replace (Parser.match_uddg ("/l/?uddg=" +:+ v)) with (Some v).
  - now rewrite Hdec.
  - change ("/l/?uddg=" +:+ v)
      with (String "/" (String "l" (String "/" (String "?" ("uddg=" +:+ v))))).
    rewrite !match_uddg_miss by reflexivity.
    rewrite <- (append_empty_r v) at 2.
    symmetry. apply match_uddg_hit; auto.
Qed.

(** The target of a link [/l/?kh=...&uddg=v...]: the decoded value of
    the parameter, whatever follows it, or the raw link when [v] does not
    decode. *)
Lemma resolve_redirect_kh (k v rest : string) :
  Js.includes ("/l/?kh=" +:+ k) "uddg=" = false ->
  v <> "" -> Js.includes v "&" = false ->
  rest = "" \/ String.prefix "&" rest = true ->
  let rawUrl := "/l/?kh=" +:+ k +:+ "&uddg=" +:+ v +:+ rest in
  Parser.resolve_redirect rawUrl
  = match Js.decodeURIComponent v with
    | Some target => target
    | None => rawUrl
    end.
Proof.
  intros Hk Hne Hv Hrest rawUrl. unfold Parser.resolve_redirect, Js.startsWith.
  replace (String.prefix "/l/?uddg=" rawUrl) with false by reflexivity.
  unfold rawUrl at 1. rewrite prefix_app.
  unfold Parser.decode_match.
  replace (Parser.match_uddg rawUrl) with (Some v); [reflexivity|].
  unfold rawUrl.
  replace ("/l/?kh=" +:+ k +:+ "&uddg=" +:+ v +:+ rest)
    with (("/l/?kh=" +:+ k) +:+ "&" +:+ ("uddg=" +:+ v +:+ rest))
    by (now rewrite append_assoc).
  rewrite (match_uddg_skip _ _ Hk). symmetry. now apply match_uddg_hit.
Qed.

Example resolve_redirect_examples :
  Parser.resolve_redirect "/l/?uddg=https%3A%2F%2Fexample.com" = "https://example.com"
  /\ Parser.resolve_redirect "/l/?kh=-1&uddg=https%3A%2F%2Fexample.com%2Fa&rut=0f"
     = "https://example.com/a"
  /\ Parser.resolve_redirect "/l/?uddg=%E0%A4%A" = "/l/?uddg=%E0%A4%A"
  /\ Parser.resolve_redirect "https://example.com/x" = "https://example.com/x".
Proof. repeat split; vm_compute; reflexivity. Qed.

(** In the first branch the text after [uddg=] is decoded whole: the
    parameters that follow the value stay in the target, where the
    regular expression of the second branch stops at the [&]. *)
Example resolve_redirect_following_parameters :
  Parser.resolve_redirect "/l/?uddg=https%3A%2F%2Fexample.com&rut=abc"
  = "https://example.com&rut=abc"
  /\ Parser.resolve_redirect "/l/?kh=-1&uddg=https%3A%2F%2Fexample.com&rut=abc"
     = "https://example.com".
Proof. split; vm_compute; reflexivity. Qed.





(** ** The retry loop *)

(** The error that one turn of the loop catches on a reply, if any: the
    abort after [timeout], the error made from a status that is not ok,
    the network error, or the error of a body that breaks off. *)
Definition attempt_error (timeout : Z) (r : Net.reply) : option Js.error :=
  if timeout <=? Net.latency r
  then Some (Js.mkError "AbortError" "This operation was aborted")
  else
    match Net.result r with
    | Net.Response status statusText body =>
        if Net.ok status
        then match body with
             | Net.Text _ _ => None
             | Net.Broken _ msg => Some (Js.TypeError msg)
             end
        else Some (Js.Error ("HTTP " +:+ pretty status +:+ ": " +:+ statusText))
    | Net.NetworkError msg => Some (Js.TypeError msg)
    end.

(** The attempt fails with an error that the loop retries. *)
Definition fails_retryably (timeout : Z) (r : Net.reply) : bool :=
  match attempt_error timeout r with
  | Some e => negb (Fetcher.not_retried e)
  | None => false
  end.

(** The error of the last reply. *)
Definition last_error (timeout : Z) (rs : list Net.reply) (lastError : option Js.error)
    : option Js.error :=
  fold_left (fun acc r => match attempt_error timeout r with
                          | Some e => Some e
                          | None => acc
                          end) rs lastError.

(** The time one attempt takes on a reply, from its request to the
    moment it has the page or fails: the timeout when the headers are
    late; else the time of the headers and, for a status that is ok, of
    the body, which no timer bounds. *)
Definition attempt_time (timeout : Z) (r : Net.reply) : Z :=
  if timeout <=? Net.latency r then Z.max 0 timeout
  else
    Z.max 0 (Net.latency r)
    + match Net.result r with
      | Net.Response status _ body =>
          if Net.ok status then Z.max 0 (Net.delay_of body) else 0
      | Net.NetworkError _ => 0
      end.

(** What the loop does in [n] turns from the turn [attempt], when every
    turn fails: a request, and before each further request a sleep. *)
Fixpoint loop_shape (url : string) (retryDelay attempt : Z) (n : nat) : list (string + Z) :=
  match n with
  | O => []
  | S n' =>
      inl url ::
      match n' with
      | O => []
      | S _ => inr (retryDelay * 2 ^ attempt) :: loop_shape url retryDelay (attempt + 1) n'
      end
  end.

(** The same with the times, on the replies that the attempts get, the
    first request starting at [start]: an attempt on the reply [r] fails
    [attempt_time timeout r] after its request; at that moment the loop
    calls [sleep] with the delay of the turn, and the next request
    starts when that delay has passed (at once when it is negative). No
    sleep follows the last attempt. *)
Fixpoint backoff_events (url : string) (timeout retryDelay attempt start : Z)
    (replies : list Net.reply) : list Net.event :=
  match replies with
  | [] => []
  | r :: rest =>
      Net.Request url start ::
      match rest with
      | [] => []
      | _ :: _ =>
          let failed := start + attempt_time timeout r in
          let delay := retryDelay * 2 ^ attempt in
          Net.Sleep delay failed
            :: backoff_events url timeout retryDelay (attempt + 1)
                 (failed + Z.max 0 delay) rest
      end
  end.

(** The world after one attempt on the next reply [r] of the network. *)
Definition answered (url : string) (timeout : Z) (r : Net.reply) (w : Net.world)
    : Net.world :=
  Net.mkWorld (Net.now w + attempt_time timeout r) (Net.rateLimitMap w)
    (tl (Net.network w)) (Net.trace w ++ [Net.Request url (Net.now w)]).

Lemma bind_ret {A B : Type} (a : A) (k : A -> Net.M B) (w : Net.world) :
  Net.bind (Net.ret a) k w = k a w.
Proof. reflexivity. Qed.

Lemma bind_sleep {B : Type} (ms : Z) (k : unit -> Net.M B) (w : Net.world) :
  Net.bind (Net.sleep ms) k w
  = k tt (Net.advance ms (Net.record (Net.Sleep ms (Net.now w)) w)).
Proof. reflexivity. Qed.

(** The [catch] block of the loop, with the turns that follow it. *)
Definition handler (url : string) (timeout retries retryDelay : Z) (n : nat)
    (attempt : Z) (error : Js.error) : Net.M string :=
  if Fetcher.not_retried error then Net.throw error
  else
    await _ <- (if attempt <? retries
                then Net.sleep (retryDelay * 2 ^ attempt)
                else Net.ret tt) in
    Fetcher.attempts url timeout retries retryDelay n (attempt + 1) (Some error).

(** One turn of the loop, on the next reply of the network. *)
Lemma attempts_turn (url : string) (timeout retries retryDelay : Z) (n : nat)
    (attempt : Z) (lastError : option Js.error) (w : Net.world) :
  let r := fst (Net.next_reply w) in
  Fetcher.attempts url timeout retries retryDelay (S n) attempt lastError w
  = match attempt_error timeout r with
    | None => (inl (reply_text r), answered url timeout r w)
    | Some e => handler url timeout retries retryDelay n attempt e (answered url timeout r w)
    end.
Proof.
  cbv zeta. cbn [Fetcher.attempts]. fold (handler url timeout retries retryDelay n attempt).
  generalize (handler url timeout retries retryDelay n attempt) as h. intros h.
  unfold answered, attempt_error, attempt_time, reply_text, Net.try_catch, Net.bind,
    Net.fetch, Net.text, Net.next_reply, Net.throw, Net.ret, Net.advance, Net.record.
  destruct w as [now map network trace]. cbn [Net.now Net.rateLimitMap Net.network Net.trace].
  destruct network as [|r rest]; cbn [fst snd tl Net.latency Net.result Net.now
    Net.rateLimitMap Net.network Net.trace].
  - destruct (timeout <=? 0); reflexivity.
  - destruct (timeout <=? Net.latency r); [reflexivity|].
    destruct (Net.result r) as [status statusText body|msg]; [|now rewrite Z.add_0_r].
    destruct (Net.ok status); cbn [negb]; [|now rewrite Z.add_0_r].
    destruct body as [delay content|delay msg];
      cbn [Net.delay_of Net.now Net.rateLimitMap Net.network Net.trace];
      now rewrite Z.add_assoc.
Qed.

Lemma answered_network (url : string) (timeout : Z) (w : Net.world)
    (r : Net.reply) (rest : list Net.reply) :
  Net.network w = r :: rest ->
  fst (Net.next_reply w) = r /\ Net.network (answered url timeout r w) = rest.
Proof. intros H. unfold Net.next_reply, answered. rewrite H. split; reflexivity. Qed.

Lemma backoff_events_cons (url : string) (timeout retryDelay attempt start : Z)
    (r : Net.reply) (rest : list Net.reply) :
  rest <> [] ->
  backoff_events url timeout retryDelay attempt start (r :: rest)
  = Net.Request url start
    :: Net.Sleep (retryDelay * 2 ^ attempt) (start + attempt_time timeout r)
    :: backoff_events url timeout retryDelay (attempt + 1)
         (start + attempt_time timeout r + Z.max 0 (retryDelay * 2 ^ attempt)) rest.
Proof. destruct rest; [congruence | reflexivity]. Qed.

(** The loop on [fails], failures that it retries, and then on [last],
    a reply that ends it: a page, an error that is not retried, or the
    failure of the last turn. *)
Lemma attempts_run (url : string) (timeout retries retryDelay : Z)
    (fails : list Net.reply) :
  forall (attempt : Z) (lastError : option Js.error) (w : Net.world)
         (last : Net.reply) (rest : list Net.reply) (n : nat),
    Net.network w = fails ++ last :: rest ->
    forallb (fails_retryably timeout) fails = true ->
    attempt + Z.of_nat (length fails) <= retries ->
    (fails_retryably timeout last = true ->
     n = 0%nat /\ attempt + Z.of_nat (length fails) = retries) ->
    let out := Fetcher.attempts url timeout retries retryDelay (length fails + S n)
                 attempt lastError w in
    fst out = match attempt_error timeout last with
              | None => inl (reply_text last)
              | Some e =>
                  if Fetcher.not_retried e then inr e
                  else inr (Fetcher.exhausted url retries (Some e))
              end
    /\ Net.trace (snd out)
       = Net.trace w
         ++ backoff_events url timeout retryDelay attempt (Net.now w) (fails ++ [last])
    /\ Net.network (snd out) = rest
    /\ Net.rateLimitMap (snd out) = Net.rateLimitMap w.
Proof.
  induction fails as [|r fails IH];
    intros attempt lastError w last rest n Hnet Hfail Hcount Hend out; subst out.
  - cbn [length Nat.add app]. rewrite attempts_turn. cbv zeta.
    destruct (answered_network url timeout w last rest Hnet) as [-> Hrest].
    unfold fails_retryably in Hend.
    destruct (attempt_error timeout last) as [e|]; [|now repeat split].
    unfold handler. destruct (Fetcher.not_retried e); [now repeat split|].
    destruct (Hend eq_refl) as [-> Hlast]. simpl in Hlast.
    destruct (Z.ltb_spec attempt retries) as [Hlt|_]; [lia|].
    rewrite bind_ret. now repeat split.
  - cbn [length Nat.add app] in *. rewrite attempts_turn. cbv zeta.
    destruct (answered_network url timeout w r (fails ++ last :: rest) Hnet) as [-> Hrest].
    simpl in Hfail. apply andb_prop in Hfail as [Hr Hfails].
    unfold fails_retryably in Hr.
    destruct (attempt_error timeout r) as [e|]; [|discriminate].
    apply negb_true_iff in Hr. unfold handler. rewrite Hr.
    destruct (Z.ltb_spec attempt retries) as [_|Hge]; [|lia].
    rewrite bind_sleep.
    set (w1 := Net.advance _ (Net.record _ (answered url timeout r w))).
    destruct (IH (attempt + 1) (Some e) w1 last rest n Hrest Hfails ltac:(lia))
      as (Hres & Htrace & Hleft & Hmap).
    { intros Hlast. destruct (Hend Hlast) as [-> Heq]. split; [reflexivity | lia]. }
    split; [exact Hres|]. split; [|split; [exact Hleft | exact Hmap]].
    rewrite Htrace, backoff_events_cons by (now destruct fails).
    unfold w1, answered. simpl. rewrite <- !app_assoc. reflexivity.
Qed.

Lemma backoff_shape (url : string) (timeout retryDelay : Z) (replies : list Net.reply) :
  forall attempt start,
    map Net.shape (backoff_events url timeout retryDelay attempt start replies)
    = loop_shape url retryDelay attempt (length replies).
Proof.
  induction replies as [|r rest IH]; intros attempt start; [reflexivity|].
  destruct rest as [|r' rest']; [reflexivity|].
  rewrite backoff_events_cons by discriminate.
  cbn [map Net.shape]. rewrite IH. reflexivity.
Qed.



Lemma flat_map_seq_shift {A : Type} (f : nat -> list A) (start n : nat) :
  flat_map f (seq (S start) n) = flat_map (fun i => f (S i)) (seq start n).
Proof.
  revert start. induction n as [|n IH]; intros start; [reflexivity|].
  cbn [seq flat_map]. now rewrite IH.
Qed.




Definition server_error : Net.reply :=
  Net.mkReply 20 (Net.Response 500 "Internal Server Error" (Net.Text 0 "")).

(** A world at [now], with no tracker, whose network holds [replies]. *)
Definition fresh_world (now : Z) (replies : list Net.reply) : Net.world :=
  Net.mkWorld now ∅ replies [].


(** ** The search URL *)

(** C7 at the query of the test [should URL encode query parameters]:
    the URL requested carries [%20] for each space, where the claim and
    the test expect [+]. *)
Theorem searchDuckDuckGoHtml_space_is_percent20 :
  let options := Fetcher.mkSearchOptions None None None (Some false) in
  let out := Fetcher.searchDuckDuckGoHtml (U := Basic.parser) "test query with spaces" options
               (fresh_world 5000
                  [Net.mkReply 20 (Net.Response 200 "OK" (Net.Text 0 "<html></html>"))]) in
  fst out = inl "<html></html>"
  /\ map fst (Net.requests (Net.trace (snd out)))
     = ["https://html.duckduckgo.com/html/?q=test%20query%20with%20spaces"]
  /\ Fetcher.searchUrl "test query with spaces"
     <> "https://html.duckduckgo.com/html/?q=test+query+with+spaces".
Proof. repeat split; try (vm_compute; reflexivity). vm_compute. discriminate. Qed.

Lemma hex_digit_not_plus (n : N) : (n < 16)%N -> Ascii.eqb "+" (Js.hex_digit n) = false.
Proof.
  intros Hn. apply Ascii.eqb_neq. intros Heq.
  apply (f_equal N_of_ascii) in Heq. unfold Js.hex_digit in Heq.
  destruct (n <? 10)%N; rewrite N_ascii_embedding in Heq by lia;
    change (N_of_ascii "+") with 43%N in Heq; lia.
Qed.

(** The encoded query never holds a [+]: a space is written [%20]. *)
Lemma encodeURIComponent_no_plus (q : string) :
  Js.includes (Js.encodeURIComponent q) "+" = false.
Proof.
  induction q as [|c q IH]; [reflexivity|].
  cbn [Js.encodeURIComponent].
  destruct (Js.uri_unreserved c) eqn:Hc.
  - rewrite includes_cons, prefix_cons, IH.
    destruct (Ascii.eqb_spec "+" c) as [<-|]; [discriminate | reflexivity].
  - unfold Js.percent_byte. rewrite !includes_cons, !prefix_cons, IH.
    rewrite !hex_digit_not_plus; [reflexivity | |].
    + apply N.mod_lt. discriminate.
    + unfold Js.byte_of. pose proof (N_ascii_bounded c) as Hb.
      apply N.Div0.div_lt_upper_bound. lia.
Qed.

(** ** Rate limiting *)

(** The [lastRequest] that the map holds for a host; a host without a
    tracker would get one with [lastRequest: 0]. *)
Definition last_stamp (host : string) (w : Net.world) : Z :=
  match Net.rateLimitMap w !! host with
  | Some t => Net.lastRequest t
  | None => 0
  end.

(** The events a computation adds to the trace. *)
Definition new_events {A : Type} (m : Net.M A) (w : Net.world) : list Net.event :=
  drop (length (Net.trace w)) (Net.trace (snd (m w))).

(** [w'] comes after [w] with the same trackers: the clock has not gone
    back and the events added are not older than [w]. *)
Definition follows (w w' : Net.world) : Prop :=
  Net.rateLimitMap w' = Net.rateLimitMap w
  /\ Net.now w <= Net.now w'
  /\ exists new, Net.trace w' = Net.trace w ++ new
                 /\ Forall (fun e => Net.now w <= Net.time_of e) new.

(** Nothing happened, or the first thing that happened is a request
    started at the time of [w]. *)
Definition request_first (w w' : Net.world) : Prop :=
  w' = w \/ exists u rest, Net.trace w' = Net.trace w ++ Net.Request u (Net.now w) :: rest.

Lemma follows_refl (w : Net.world) : follows w w.
Proof.
  repeat split; [lia|]. exists []. split; [now rewrite app_nil_r | constructor].
Qed.

Lemma follows_trans (w1 w2 w3 : Net.world) : follows w1 w2 -> follows w2 w3 -> follows w1 w3.
Proof.
  intros (Hm1 & Hn1 & new1 & Ht1 & Hf1) (Hm2 & Hn2 & new2 & Ht2 & Hf2).
  repeat split; [congruence | lia |].
  exists (new1 ++ new2). split; [now rewrite Ht2, Ht1, app_assoc|].
  apply Forall_app. split; [exact Hf1|].
  eapply Forall_impl; [exact Hf2|]. simpl. intros e He. lia.
Qed.


Lemma sleep_follows (ms : Z) (w : Net.world) : follows w (snd (Net.sleep ms w)).
Proof.
  unfold Net.sleep, follows. simpl. repeat split; [lia|].
  exists [Net.Sleep ms (Net.now w)]. split; [reflexivity|].
  constructor; [simpl; lia | constructor].
Qed.

Lemma attempt_time_nonneg (timeout : Z) (r : Net.reply) : 0 <= attempt_time timeout r.
Proof.
  unfold attempt_time. destruct (timeout <=? Net.latency r); [lia|].
  destruct (Net.result r) as [status statusText body|msg]; [|lia].
  destruct (Net.ok status); lia.
Qed.

(** A world reached by one request started at the time of [w]. *)
Lemma request_follows (u : string) (elapsed : Z) (w : Net.world) :
  0 <= elapsed ->
  let w' := Net.mkWorld (Net.now w + elapsed) (Net.rateLimitMap w) (tl (Net.network w))
              (Net.trace w ++ [Net.Request u (Net.now w)]) in
  follows w w' /\ request_first w w'.
Proof.
  intros He. cbv zeta. split.
  - repeat split; simpl; [lia|]. exists [Net.Request u (Net.now w)].
    split; [reflexivity | constructor; [simpl; lia | constructor]].
  - right. exists u, []. reflexivity.
Qed.

(** The robots.txt gate leaves the world as it is, or has started one
    request: with the check on, for the robots.txt address that the base
    resolves to. *)
Lemma robots_gate_world {U : Url.Parser} (checkRobots : bool)
    (baseUrl userAgent path : string) (w : Net.world) :
  let w' := snd (Fetcher.robots_gate checkRobots baseUrl userAgent path w) in
  w' = w
  \/ (checkRobots = true
      /\ exists resolved,
           Url.new_at "/robots.txt" baseUrl = Some resolved
           /\ w' = Net.mkWorld (Net.now w + robots_time (fst (Net.next_reply w)))
                     (Net.rateLimitMap w) (tl (Net.network w))
                     (Net.trace w ++ [Net.Request (Url.href resolved) (Net.now w)])).
Proof.
  cbv zeta. unfold Fetcher.robots_gate. destruct checkRobots; [|now left].
  unfold Net.bind. rewrite fetchRobotsTxt_run.
  destruct (Url.new_at "/robots.txt" baseUrl) as [resolved|].
  - right. split; [reflexivity|]. exists resolved. split; [reflexivity|].
    cbv zeta. set (robotsTxt := if robots_unavailable w then _ else _).
    cbn [fst snd].
    now destruct (Js.truthy robotsTxt && negb (Utils.checkRobotsTxt robotsTxt userAgent path)).
  - left. reflexivity.
Qed.


Lemma handler_follows (url : string) (timeout retries retryDelay : Z) (n : nat)
    (attempt : Z) (e : Js.error) (w : Net.world) :
  (forall lastError w2,
     follows w2 (snd (Fetcher.attempts url timeout retries retryDelay n (attempt + 1)
                        lastError w2))) ->
  follows w (snd (handler url timeout retries retryDelay n attempt e w)).
Proof.
  intros IH. unfold handler. destruct (Fetcher.not_retried e); [apply follows_refl|].
  destruct (attempt <? retries).
  - rewrite bind_sleep.
    eapply follows_trans; [apply (sleep_follows (retryDelay * 2 ^ attempt) w) | apply IH].
  - rewrite bind_ret. apply IH.
Qed.

Lemma attempts_follows (url : string) (timeout retries retryDelay : Z) (n : nat) :
  forall (attempt : Z) (lastError : option Js.error) (w : Net.world),
    let w' := snd (Fetcher.attempts url timeout retries retryDelay n attempt lastError w) in
    follows w w' /\ request_first w w'.
Proof.
  induction n as [|n IH]; intros attempt lastError w; cbv zeta.
  - simpl. split; [apply follows_refl | now left].
  - rewrite attempts_turn. cbv zeta.
    set (r := fst (Net.next_reply w)).
    destruct (request_follows url (attempt_time timeout r) w (attempt_time_nonneg timeout r))
      as [Hf Hr].
    fold (answered url timeout r w) in Hf, Hr.
    destruct (attempt_error timeout r) as [e|]; [|now split].
    assert (Hh : follows (answered url timeout r w)
                   (snd (handler url timeout retries retryDelay n attempt e
                           (answered url timeout r w)))).
    { apply handler_follows. intros lastError' w2. apply IH. }
    split; [eapply follows_trans; eassumption|].
    destruct Hr as [Heq|(u & rest & Ht)].
    + exfalso. apply (f_equal Net.trace) in Heq. unfold answered in Heq. simpl in Heq.
      apply (f_equal (@length _)) in Heq. rewrite length_app in Heq. simpl in Heq. lia.
    + destruct Hh as (_ & _ & new & Hnew & _).
      right. exists u, (rest ++ new). rewrite Hnew, Ht. now rewrite <- app_assoc.
Qed.


(** [enforceRateLimit]: when less than [rateLimitMs] has passed since
    the host's last stamp, the call sleeps until [rateLimitMs] after it;
    then it stamps the host's tracker with the time reached. *)
Lemma enforceRateLimit_world (host : string) (rateLimitMs : Z) (w : Net.world) :
  let last := last_stamp host w in
  let waits := Net.now w - last <? rateLimitMs in
  let stamp := if waits then last + rateLimitMs else Net.now w in
  let w1 := snd (Fetcher.enforceRateLimit host rateLimitMs w) in
  fst (Fetcher.enforceRateLimit host rateLimitMs w) = inl tt
  /\ Net.now w1 = stamp
  /\ last_stamp host w1 = stamp
  /\ (forall other, other <> host ->
        Net.rateLimitMap w1 !! other = Net.rateLimitMap w !! other)
  /\ Net.network w1 = Net.network w
  /\ Net.trace w1
     = Net.trace w
       ++ (if waits then [Net.Sleep (rateLimitMs - (Net.now w - last)) (Net.now w)] else []).
Proof.
  cbv zeta. unfold last_stamp, Fetcher.enforceRateLimit, Fetcher.getRateLimitTracker,
    Fetcher.set_lastRequest, Net.date_now, Net.bind.
  destruct (Net.rateLimitMap w !! host) as [t|] eqn:Hlook; simpl.
  - destruct (Z.ltb_spec (Net.now w - Net.lastRequest t) rateLimitMs) as [Hlt|Hge]; simpl.
    + rewrite lookup_alter_eq, Hlook. simpl.
      repeat split; try lia.
      intros other Hne. now rewrite lookup_alter_ne.
    + rewrite lookup_alter_eq, Hlook. simpl.
      repeat split; [|now rewrite app_nil_r].
      intros other Hne. now rewrite lookup_alter_ne.
  - destruct (Z.ltb_spec (Net.now w - 0) rateLimitMs) as [Hlt|Hge]; simpl.
    + rewrite lookup_alter_eq, lookup_insert_eq. simpl.
      repeat split; try lia.
      intros other Hne. now rewrite lookup_alter_ne, lookup_insert_ne.
    + rewrite lookup_alter_eq, lookup_insert_eq. simpl.
      repeat split; [|now rewrite app_nil_r].
      intros other Hne. now rewrite lookup_alter_ne, lookup_insert_ne.
Qed.





Definition ok_page : Net.reply :=
  Net.mkReply 20 (Net.Response 200 "OK" (Net.Text 0 "<html></html>")).
Definition no_robots : Net.reply :=
  Net.mkReply 20 (Net.Response 404 "Not Found" (Net.Text 0 "")).

(** Two calls in a row with the default interval: the second call sleeps
    until one second after the first request of the first call. *)
Example rate_limit_two_calls :
  let options := Fetcher.mkSearchOptions None None None (Some false) in
  let w1 := snd (Fetcher.searchDuckDuckGoHtml (U := Basic.parser) "a" options
                   (fresh_world 10000 [ok_page; ok_page])) in
  let w2 := snd (Fetcher.searchDuckDuckGoHtml (U := Basic.parser) "b" options w1) in
  map snd (Net.requests (Net.trace w2)) = [10000; 11000]
  /\ Net.sleeps (Net.trace w2) = [980].
Proof. split; vm_compute; reflexivity. Qed.


(** ** The orchestrator and its cache *)

Section LruLookup.

Context {V : Type}.

Implicit Types (c : Lru.t V) (k : string).

Lemma find_app_none {A : Type} (f : A -> bool) (l : list A) (x : A) :
  List.find f l = None -> f x = true -> List.find f (l ++ [x]) = Some x.
Proof.
  induction l as [|y l IH]; simpl; intros Hl Hx; [now rewrite Hx|].
  destruct (f y); [discriminate | now apply IH].
Qed.

Lemma find_without k (l : list (Lru.entry V)) :
  List.find (Lru.has_key k) (Lru.without k l) = None.
Proof.
  unfold Lru.without. induction l as [|e l IH]; simpl; [reflexivity|].
  destruct (Lru.has_key k e) eqn:He; simpl; [exact IH | now rewrite He].
Qed.

Lemma find_tl_none {A : Type} (f : A -> bool) (l : list A) :
  List.find f l = None -> List.find f (tl l) = None.
Proof. destruct l as [|x l]; simpl; [auto | now destruct (f x)]. Qed.

(** After [set(k, v)] the cache holds [k] with the value [v], aged from
    the moment of the call. *)
Lemma lookup_set c k (v : V) now :
  Lru.lookup k (Lru.set k v now c)
  = Some (Lru.mkEntry k v (if Lru.ttl c =? 0 then 0 else now) (Lru.ttl c)).
Proof.
  unfold Lru.set.
  assert (Hk : forall s t, Lru.has_key k (Lru.mkEntry k v s t) = true)
    by (intros; unfold Lru.has_key; simpl; apply String.eqb_refl).
  destruct (Lru.lookup k c) eqn:Hl; unfold Lru.lookup in *; simpl;
    apply find_app_none; auto.
  - apply find_without.
  - destruct (_ && _); [now apply find_tl_none | exact Hl].
Qed.

(** [has] and [get] agree on what is absent. *)
Lemma get_absent c k now :
  fst (Lru.has k now c) = false -> fst (Lru.get k now c) = None.
Proof.
  unfold Lru.has, Lru.get. destruct (Lru.lookup k c) as [e|]; [|reflexivity].
  destruct (Lru.isStale now e); [reflexivity|].
  destruct (Lru.updateAgeOnHas c); discriminate.
Qed.

Lemma get_ttl c k now : Lru.ttl (snd (Lru.get k now c)) = Lru.ttl c.
Proof.
  unfold Lru.get. destruct (Lru.lookup k c) as [e|]; [|reflexivity].
  now destruct (Lru.isStale now e).
Qed.

Lemma set_ttl c k (v : V) now : Lru.ttl (Lru.set k v now c) = Lru.ttl c.
Proof. unfold Lru.set. now destruct (Lru.lookup k c). Qed.

(** A value read back within its time to live. *)
Lemma get_after_set c k (v : V) now elapsed :
  0 <= elapsed ->
  Lru.ttl c = 0 \/ elapsed <= Lru.ttl c ->
  fst (Lru.get k (now + elapsed) (Lru.set k v now c)) = Some v.
Proof.
  intros Hpos Httl. unfold Lru.get. rewrite lookup_set. unfold Lru.isStale. simpl.
  destruct (Z.eqb_spec (Lru.ttl c) 0) as [E|E]; [reflexivity|]. simpl.
  destruct (Z.eqb_spec now 0) as [E'|E']; [reflexivity|]. simpl.
  destruct (Z.ltb_spec (Lru.ttl c) (now + elapsed - now)) as [Hlt|_]; [lia|].
  reflexivity.
Qed.

(** What [has] reports absent, it leaves as it is. *)
Lemma has_absent c k now : fst (Lru.has k now c) = false -> snd (Lru.has k now c) = c.
Proof.
  unfold Lru.has. destruct (Lru.lookup k c) as [e|]; [|reflexivity].
  destruct (Lru.isStale now e); [reflexivity|].
  destruct (Lru.updateAgeOnHas c); [discriminate | reflexivity].
Qed.

Lemma find_restarted k now (l : list (Lru.entry V)) :
  List.find (Lru.has_key k)
    (map (fun x => if Lru.has_key k x then Lru.restart now x else x) l)
  = option_map (Lru.restart now) (List.find (Lru.has_key k) l).
Proof.
  induction l as [|x l IH]; [reflexivity|]. cbn [map List.find].
  destruct (Lru.has_key k x) eqn:Hx.
  - unfold Lru.has_key in *. simpl. now rewrite Hx.
  - rewrite Hx. exact IH.
Qed.

(** A value stored is found by [has] and then read by [get], within its
    time to live. *)
Lemma hit_after_set c k (v : V) now elapsed :
  0 <= elapsed ->
  Lru.ttl c = 0 \/ elapsed <= Lru.ttl c ->
  let asked := Lru.has k (now + elapsed) (Lru.set k v now c) in
  fst asked = true /\ fst (Lru.get k (now + elapsed) (snd asked)) = Some v.
Proof.
  intros Hpos Httl. cbv zeta.
  pose proof (get_after_set c k v now elapsed Hpos Httl) as Hget.
  pose proof (lookup_set c k v now) as Hlook.
  set (c1 := Lru.set k v now c) in *.
  set (e := Lru.mkEntry k v (if Lru.ttl c =? 0 then 0 else now) (Lru.ttl c)) in *.
  assert (Hlive : Lru.isStale (now + elapsed) e = false).
  { unfold Lru.isStale, e. simpl.
    destruct (Z.eqb_spec (Lru.ttl c) 0) as [E|E]; [reflexivity|]. simpl.
    destruct (Z.eqb_spec now 0) as [E'|E']; [reflexivity|]. simpl.
    destruct (Z.ltb_spec (Lru.ttl c) (now + elapsed - now)) as [Hlt|_]; [lia | reflexivity]. }
  unfold Lru.has. rewrite Hlook, Hlive.
  destruct (Lru.updateAgeOnHas c1); [|split; [reflexivity | exact Hget]].
  split; [reflexivity|]. cbn [fst snd].
  unfold Lru.get, Lru.lookup. cbn [Lru.items Lru.with_items].
  rewrite find_restarted. fold (Lru.lookup k c1). rewrite Hlook. cbn [option_map].
  assert (Hfresh : Lru.isStale (now + elapsed) (Lru.restart (now + elapsed) e) = false).
  { unfold Lru.isStale, Lru.restart, e. simpl.
    destruct (Z.eqb_spec (Lru.ttl c) 0) as [E|E]; [reflexivity|]. simpl.
    destruct (Z.eqb_spec (now + elapsed) 0) as [E'|E']; [reflexivity|]. simpl.
    destruct (Z.ltb_spec (Lru.ttl c) (now + elapsed - (now + elapsed))) as [Hlt|_];
      [lia | reflexivity]. }
  rewrite Hfresh. reflexivity.
Qed.

End LruLookup.

(** The key has a live entry in the shared cache. *)
Definition live_entry (key : string) (st : Index.state) : bool :=
  match Index.defaultCache st with
  | Some c => fst (Cache.has key (Net.now (Index.world st)) c)
  | None => false
  end.

Lemma parse_uncached {U : Url.Parser} {L : Dom.Loader} {C : Dom.Clock}
    (now : Z) (html : Js.value) (options : Parser.options) :
  Forall (fun r => Parser.cached r = None) (Parser.parseSearchHtml now html options).
Proof.
  apply Stdlib.Lists.List.Forall_forall. intros r Hin.
  unfold Parser.parseSearchHtml in Hin.
  destruct (negb (Js.truthy html) || negb (Js.is_string html)); [destruct Hin|].
  destruct html as [| | | |text|]; try destruct Hin.
  assert (Hfirst : forall M els, In r (Parser.each (Parser.result_of now) M els []) ->
                                 Parser.cached r = None).
  { intros M els H. apply each_origin in H as [[]|(n & e & _ & Hn)].
    unfold Parser.result_of in Hn. destruct (negb _ || negb _); [|discriminate].
    now inversion Hn. }
  destruct (length _ =? 0)%nat; [|now apply Hfirst in Hin].
  apply each_origin in Hin as [Hin|(n & e & _ & Hn)]; [now apply Hfirst in Hin|].
  unfold Parser.generic_result_of in Hn. destruct (negb _ || negb _); [|discriminate].
  now inversion Hn.
Qed.

Lemma fetch_and_parse_uncached {U : Url.Parser} {L : Dom.Loader} {C : Dom.Clock}
    (q : string) (max : nat) (userAgent : string) (rateLimit : Z)
    (w w' : Net.world) (results : list Parser.SearchResult) :
  Index.fetch_and_parse q max userAgent rateLimit w = (inl results, w') ->
  Forall (fun r => Parser.cached r = None) results.
Proof.
  unfold Index.fetch_and_parse, Net.bind.
  destruct (Fetcher.searchDuckDuckGoHtml q _ w) as [[html|e] w1]; simpl.
  - intros [= <- _]. apply parse_uncached.
  - discriminate.
Qed.

(** The miss path of [search], when the page comes and has results. *)
Lemma search_miss_stores {U : Url.Parser} {L : Dom.Loader} {C : Dom.Clock}
    (q key : string) (max : nat) (userAgent : string) (rateLimit : Z)
    (w : Net.world) (cache : Lru.t (list Parser.SearchResult))
    (results : list Parser.SearchResult) (st1 : Index.state) :
  Index.search_miss q key max userAgent rateLimit true (Index.mkState w (Some cache))
  = (inl results, st1) ->
  results <> [] ->
  Forall (fun r => Parser.cached r = None) results
  /\ st1 = Index.mkState (Index.world st1)
             (Some (Lru.set key results (Net.now (Index.world st1)) cache)).
Proof.
  unfold Index.search_miss. cbn [Index.world Index.defaultCache].
  destruct (Index.fetch_and_parse q max userAgent rateLimit w) as [[found|e] w'] eqn:Hfetch;
    [|discriminate].
  intros [= <- <-] Hres. split; [exact (fetch_and_parse_uncached _ _ _ _ _ _ _ Hfetch)|].
  destruct found; [congruence | reflexivity].
Qed.

(** C1, as the code has it. With caching enabled, when a first
    [search(q, options)] misses the cache, succeeds and has results, a
    second call with the same query and the same relevant options
    ([options.max || 10] and [options.useInstantApi || false], the two
    that enter the cache key), made before the entry's time to live has
    run out, starts no request and returns the results of the first
    call, each with [cached: true]; the results of the first call carry
    no [cached] flag. *)
Theorem search_cache_hit {U : Url.Parser} {L : Dom.Loader} {C : Dom.Clock}
    (q : string) (options options' : Index.options) (st st1 : Index.state)
    (results : list Parser.SearchResult) (cache : Lru.t (list Parser.SearchResult))
    (elapsed : Z) :
  let key := Index.generateCacheKey q options in
  default true (Index.useCache options) = true ->
  default true (Index.useCache options') = true ->
  live_entry key st = false ->
  Index.search (Js.Str q) options st = (inl results, st1) ->
  results <> [] ->
  Index.relevantOptions options' = Index.relevantOptions options ->
  Index.defaultCache st1 = Some cache ->
  0 <= elapsed ->
  Lru.ttl cache = 0 \/ elapsed <= Lru.ttl cache ->
  let second := Index.search (Js.Str q) options' (Index.elapse elapsed st1) in
  fst second = inl (map Index.stamp results)
  /\ Net.trace (Index.world (snd second)) = Net.trace (Index.world st1)
  /\ Forall (fun r => Parser.cached r = Some true) (map Index.stamp results)
  /\ Forall (fun r => Parser.cached r = None) results.
Proof.
  intros key Huse Huse' Hmiss Hfirst Hres Hrelevant Hcache Hpos Httl second.
  assert (Hkey : Index.generateCacheKey q options' = key).
  { unfold key, Index.generateCacheKey. now rewrite Hrelevant. }
  unfold Index.search in Hfirst. rewrite Huse in Hfirst.
  destruct (negb (Js.truthy (Js.Str q)) || negb (Js.is_string (Js.Str q))) eqn:Hguard;
    [discriminate|].
  destruct (String.length (Js.trim q) =? 0)%nat eqn:Hblank; [discriminate|].
  fold key in Hfirst.
  (* the first call: a miss, then the results stored *)
  assert (Hstored : exists cache1,
             Forall (fun r => Parser.cached r = None) results
             /\ st1 = Index.mkState (Index.world st1)
                        (Some (Lru.set key results (Net.now (Index.world st1)) cache1))).
  { unfold Index.initialize, live_entry in *.
    destruct (Index.defaultCache st) as [c|] eqn:Hdefault.
    - rewrite Hdefault in Hfirst. unfold Cache.has in *.
      pose proof (has_absent c key (Net.now (Index.world st)) Hmiss) as Hsame.
      destruct (Lru.has key (Net.now (Index.world st)) c) as [present c1].
      simpl in Hmiss, Hsame. subst present c1.
      exists c. eapply search_miss_stores; eassumption.
    - destruct (Cache.createCache _) as [c|] eqn:Hcreate; [|discriminate].
      cbn [Index.defaultCache Index.world] in Hfirst.
      assert (Hempty : Cache.has key (Net.now (Index.world st)) c = (false, c)).
      { unfold Cache.createCache, Lru.create in Hcreate.
        match type of Hcreate with
        | (if ?refused then _ else _) = _ => destruct refused; [discriminate|]
        end.
        now inversion Hcreate. }
      rewrite Hempty in Hfirst.
      exists c. eapply search_miss_stores; eassumption. }
  destruct Hstored as (cache1 & Huncached & Hst1).
  set (w' := Index.world st1) in *.
  assert (Hc : cache = Lru.set key results (Net.now w') cache1).
  { rewrite Hst1 in Hcache. simpl in Hcache. now inversion Hcache. }
  (* the second call: a hit *)
  assert (Httl1 : Lru.ttl cache1 = 0 \/ elapsed <= Lru.ttl cache1).
  { rewrite Hc, set_ttl in Httl. exact Httl. }
  destruct (hit_after_set cache1 key results (Net.now w') elapsed Hpos Httl1)
    as [Hhas Hget]. cbv zeta in Hhas, Hget. rewrite <- Hc in Hhas, Hget.
  assert (Hsecond : fst second = inl (map Index.stamp results)
                    /\ Index.world (snd second) = Net.advance elapsed w').
  { unfold second, Index.search. rewrite Hguard, Hblank, Huse', Hkey.
    unfold Index.elapse, Index.initialize. fold w'. rewrite Hcache.
    cbn [Index.defaultCache Index.world]. unfold Cache.has, Cache.get.
    replace (Net.now (Net.advance elapsed w')) with (Net.now w' + elapsed)
      by (unfold Net.advance; simpl; lia).
    destruct (Lru.has key (Net.now w' + elapsed) cache) as [present cache2].
    simpl in Hhas, Hget. subst present.
    destruct (Lru.get key (Net.now w' + elapsed) cache2) as [[hit|] cache3];
      simpl in Hget; [|discriminate].
    inversion Hget. now split. }
  destruct Hsecond as [Hout Hworld]. rewrite Hout, Hworld.
  split; [reflexivity|]. split; [reflexivity|]. split; [|exact Huncached].
  apply Forall_map. apply Forall_true. reflexivity.
Qed.

Definition one_result_page : Net.reply :=
  Net.mkReply 20 (Net.Response 200 "OK" (Net.Text 0 Basic.page_one_result)).

(** A fresh process whose network answers two searches: no robots.txt,
    then the page with one result, twice. *)
Definition fresh_process : Index.state :=
  Index.mkState
    (fresh_world 1000000 [no_robots; one_result_page; no_robots; one_result_page])
    None.

Definition cache_test_options : Index.options :=
  Index.mkOptions (Some 10%nat) (Some 60000) None None None None (Some true).

Definition basic_search : Js.value -> Index.options -> Index.state ->
                          (list Parser.SearchResult + Index.failure) * Index.state :=
  Index.search (U := Basic.parser) (L := Basic.loader) (C := Basic.clock).

Definition results_of (out : (list Parser.SearchResult + Index.failure) * Index.state)
    : list Parser.SearchResult :=
  match fst out with
  | inl results => results
  | inr _ => []
  end.

Definition requests_so_far (out : (list Parser.SearchResult + Index.failure) * Index.state)
    : nat :=
  length (Net.requests (Net.trace (Index.world (snd out)))).

(** The theorem on the cache test of [test/integration.test.js], the
    second call one second after the first. *)
Lemma search_cache_hit_witness :
  let first := basic_search (Js.Str "cached query") cache_test_options fresh_process in
  let second := basic_search (Js.Str "cached query") cache_test_options
                  (Index.elapse 1000 (snd first)) in
  fst second = inl (map Index.stamp (results_of first))
  /\ Net.trace (Index.world (snd second)) = Net.trace (Index.world (snd first))
  /\ Forall (fun r => Parser.cached r = Some true) (map Index.stamp (results_of first))
  /\ Forall (fun r => Parser.cached r = None) (results_of first).
Proof.
  cbv zeta.
  set (first := basic_search (Js.Str "cached query") cache_test_options fresh_process).
  refine (search_cache_hit (U := Basic.parser) (L := Basic.loader) (C := Basic.clock)
            "cached query" cache_test_options cache_test_options fresh_process (snd first)
            (results_of first)
            (default (Lru.mk 0 0 false false []) (Index.defaultCache (snd first)))
            1000 _ _ _ _ _ _ _ _ _);
    try reflexivity; try (vm_compute; reflexivity).
  - vm_compute. discriminate.
  - lia.
  - right. vm_compute. discriminate.
Defined.

(** C1 fails as stated. After the same first call, a second call with
    the same query and [max] starts new requests and returns results
    without the [cached] flag when it comes after the time to live of the
    entry (here 60001 ms later, with [cacheTTL = 60000]), and also when
    it comes at once with another [useInstantApi], which is part of the
    cache key. *)
Lemma identical_query_and_max_can_miss :
  let first := basic_search (Js.Str "cached query") cache_test_options fresh_process in
  let late := basic_search (Js.Str "cached query") cache_test_options
                (Index.elapse 60001 (snd first)) in
  let instant := Index.mkOptions (Some 10%nat) (Some 60000) None None None (Some true)
                   (Some true) in
  let other := basic_search (Js.Str "cached query") instant (snd first) in
  requests_so_far first = 2%nat
  /\ map Parser.cached (results_of first) = [None]
  /\ requests_so_far late = 4%nat
  /\ map Parser.cached (results_of late) = [None]
  /\ requests_so_far other = 4%nat
  /\ map Parser.cached (results_of other) = [None].
Proof. repeat split; vm_compute; reflexivity. Qed.

Example search_validates_first :
  fst (basic_search (Js.Str "   ") cache_test_options fresh_process)
  = inr Index.invalid_query
  /\ requests_so_far (basic_search (Js.Str "   ") cache_test_options fresh_process) = 0%nat.
Proof. split; vm_compute; reflexivity. Qed.

(** The cache key of the test, written out with [Index.quote] for the
    double quote; a [max] of 0 gives the key of the default. *)
Example generateCacheKey_examples :
  Index.generateCacheKey "cached query" cache_test_options
  = "search:cached query:{" +:+ Index.quote +:+ "max" +:+ Index.quote +:+ ":10,"
    +:+ Index.quote +:+ "useInstantApi" +:+ Index.quote +:+ ":false}"
  /\ Index.generateCacheKey "q" (Index.mkOptions (Some 0%nat) None None None None None None)
     = Index.generateCacheKey "q" (Index.mkOptions None None None None None None None).
Proof. split; vm_compute; reflexivity. Qed.

(** An error of the fetcher comes back with the query in front, between
    double quotes: here no reply at all, with the default three
    attempts. *)
Example search_wraps_errors :
  fst (basic_search (Js.Str "q") cache_test_options
         (Index.mkState (fresh_world 1000000 []) None))
  = inr (Index.Thrown
           (Js.Error ("Search failed for query " +:+ Index.quote +:+ "q" +:+ Index.quote
                      +:+ ": Failed to fetch https://html.duckduckgo.com/html/?q=q"
                      +:+ " after 3 attempts: fetch failed"))).
Proof. vm_compute. reflexivity. Qed.

(* ================================================================== *)
(** * Further properties *)
(* ================================================================== *)

(** Properties read off the sources themselves: edge cases, invariants,
    round trips and bounds of the functions modelled above. *)

(** ** More on normalizeUrl *)










(** ** More on the robots.txt rules *)

Lemma prefix_app_r (p s more : string) :
  String.prefix p s = true -> String.prefix p (s +:+ more) = true.
Proof.
  intros H. apply prefix_iff in H as [x ->]. apply prefix_iff.
  exists (x +:+ more). now rewrite append_assoc.
Qed.

Lemma append_not_empty (s more : string) : s <> "" -> s +:+ more <> "".
Proof. destruct s; [congruence | rewrite append_cons; discriminate]. Qed.

(** A rule that matches a path matches every path that extends it. *)
Lemma pathMatchesRule_app (path rule more : string) :
  Utils.pathMatchesRule path rule = true ->
  Utils.pathMatchesRule (path +:+ more) rule = true.
Proof.
  unfold Utils.pathMatchesRule, Js.startsWith.
  destruct (String.eqb_spec rule "") as [|Hrule]; [discriminate|].
  destruct (String.eqb_spec path "") as [|Hpath]; [discriminate|]. simpl.
  destruct (String.eqb_spec (path +:+ more) "") as [E|_];
    [now apply append_not_empty in E|].
  destruct (String.eqb_spec (path +:+ more) rule) as [_|_]; [reflexivity|].
  destruct (String.eqb_spec path rule) as [->|_].
  - intros _. destruct (Js.endsWith rule "*") eqn:Hstar.
    + apply endsWith_inv in Hstar. apply prefix_iff.
      exists ("*" +:+ more). rewrite Hstar at 1. now rewrite append_assoc.
    + now rewrite prefix_app.
  - destruct (Js.endsWith rule "*").
    + apply prefix_app_r.
    + destruct (String.prefix rule path) eqn:Hp; [|discriminate].
      intros _. now rewrite (prefix_app_r _ _ more Hp).
Qed.

(** X3. The final [*] of a rule adds nothing: since a rule without it
    already matches by prefix, [rule*] and [rule] match the same paths. *)
Theorem pathMatchesRule_star_redundant (path rule : string) :
  rule <> "" ->
  Js.endsWith rule "*" = false ->
  Utils.pathMatchesRule path (rule +:+ "*") = Utils.pathMatchesRule path rule.
Proof.
  intros Hrule Hstar. unfold Utils.pathMatchesRule, Js.startsWith.
  rewrite Hstar, endsWith_app, slice_0_m1_app.
  destruct (String.eqb_spec (rule +:+ "*") "") as [E|_];
    [now apply append_not_empty in E|].
  destruct (String.eqb_spec rule "") as [|_]; [congruence|].
  destruct (String.eqb_spec path "") as [|_]; [reflexivity|]. simpl.
  destruct (String.eqb_spec path (rule +:+ "*")) as [->|_].
  - rewrite prefix_app. now destruct (String.eqb (rule +:+ "*") rule).
  - destruct (String.eqb_spec path rule) as [->|_].
    + apply prefix_iff. exists "". now rewrite append_empty_r.
    + now destruct (String.prefix rule path).
Qed.

(** The theorem on [/private] and the path [/private/notes.txt]. *)
Lemma pathMatchesRule_star_redundant_witness :
  Utils.pathMatchesRule "/private/notes.txt" "/private*"
  = Utils.pathMatchesRule "/private/notes.txt" "/private".
Proof.
  apply (pathMatchesRule_star_redundant "/private/notes.txt" "/private");
    [discriminate | reflexivity].
Defined.

(** The state in which the scan of [checkRobotsTxt] ends. *)
Definition final_scan (text userAgent : string) : Utils.scan :=
  fold_left (Utils.scan_line userAgent) (Utils.robots_lines text) (Utils.mkScan None [] []).

(** X4. What is disallowed stays disallowed below: when [checkRobotsTxt]
    refuses a path, it refuses every path that extends it, unless one of
    the allow rules it ends with matches the longer path. *)
Theorem checkRobotsTxt_disallow_extends (text userAgent path more : string) :
  Utils.checkRobotsTxt (Js.Str text) userAgent path = false ->
  (forall a, In a (Utils.allowRules (final_scan text userAgent)) ->
             Utils.pathMatchesRule (path +:+ more) a = false) ->
  Utils.checkRobotsTxt (Js.Str text) userAgent (path +:+ more) = false.
Proof.
  unfold Utils.checkRobotsTxt, final_scan. simpl.
  destruct (String.eqb_spec text "") as [|_]; [discriminate|]. simpl.
  intros Hpath Hallow. apply verdict_false in Hpath as [[d [Hin Hd]] _].
  apply verdict_false. split; [|exact Hallow].
  exists d. split; [exact Hin | now apply pathMatchesRule_app].
Qed.

(** The theorem on [robots_example]: [/private] is refused, and so is
    [/private/notes.txt]. *)
Lemma checkRobotsTxt_disallow_extends_witness :
  Utils.checkRobotsTxt (Js.Str robots_example) "quackfetch/0.1" ("/private" +:+ "/notes.txt")
  = false.
Proof.
  apply checkRobotsTxt_disallow_extends; [reflexivity|].
  intros a [<-|[]]. reflexivity.
Defined.

(** ** Line endings in robots.txt *)

Definition carriage_return : string := String "013" "".

(** The text with a carriage return before every line feed. *)
Fixpoint crlf (s : string) : string :=
  match s with
  | EmptyString => EmptyString
  | String c s' =>
      if Ascii.eqb c "010" then String "013" (String "010" (crlf s'))
      else String c (crlf s')
  end.

(** A carriage return after every piece but the last. *)
Fixpoint with_returns (pieces : list string) : list string :=
  match pieces with
  | [] => []
  | [p] => [p]
  | p :: rest => (p +:+ carriage_return) :: with_returns rest
  end.

Lemma split_char_cons (sep c : ascii) (s : string) :
  Js.split_char sep (String c s)
  = if Ascii.eqb c sep then "" :: Js.split_char sep s
    else cons_first c (Js.split_char sep s).
Proof. reflexivity. Qed.

Lemma split_char_not_nil (sep : ascii) (s : string) : Js.split_char sep s <> [].
Proof.
  destruct s as [|c s]; [discriminate|]. rewrite split_char_cons.
  destruct (Ascii.eqb c sep); [discriminate|].
  now destruct (Js.split_char sep s).
Qed.

Lemma with_returns_cons_first (c : ascii) (pieces : list string) :
  pieces <> [] -> with_returns (cons_first c pieces) = cons_first c (with_returns pieces).
Proof.
  destruct pieces as [|p [|q rest]]; [congruence | reflexivity | reflexivity].
Qed.

Lemma split_crlf (s : string) :
  Js.split_char "010" (crlf s) = with_returns (Js.split_char "010" s).
Proof.
  induction s as [|c s IH]; [reflexivity|].
  cbn [crlf]. rewrite (split_char_cons "010" c s).
  destruct (Ascii.eqb c "010") eqn:Hc.
  - rewrite (split_char_cons "010" "013"). change (Ascii.eqb "013" "010") with false. cbv iota.
    rewrite (split_char_cons "010" "010"), Ascii.eqb_refl, IH.
    pose proof (split_char_not_nil "010" s) as Hne.
    destruct (Js.split_char "010" s) as [|p rest]; [congruence | reflexivity].
  - rewrite split_char_cons, Hc, IH.
    symmetry. apply with_returns_cons_first, split_char_not_nil.
Qed.

(** A text without carriage return starts [s] as it starts [s] followed
    by a carriage return. *)
Definition no_return (p : string) : bool :=
  forallb (fun c => negb (Ascii.eqb c "013")) (list_ascii_of_string p).

Lemma prefix_before_return (p : string) :
  no_return p = true ->
  forall s, String.prefix p (s +:+ carriage_return) = String.prefix p s.
Proof.
  unfold no_return. induction p as [|a p IH]; intros Hp s.
  - now destruct s.
  - simpl in Hp. apply andb_prop in Hp as [Ha Hp]. apply negb_true_iff in Ha.
    destruct s as [|c s].
    + change ("" +:+ carriage_return) with (String "013" ""). rewrite prefix_cons, Ha.
      reflexivity.
    + rewrite append_cons, !prefix_cons. rewrite (IH Hp s). reflexivity.
Qed.

Lemma find_agree {A : Type} (f g : A -> bool) (l : list A) :
  Forall (fun x => f x = g x) l -> List.find f l = List.find g l.
Proof.
  induction 1 as [|x l Hx _ IH]; [reflexivity|]. simpl. now rewrite Hx, IH.
Qed.

(** After its first byte, no white-space character holds a carriage
    return: a carriage return put behind a text that is not empty does
    not change the white-space character that the text starts with. *)
Lemma white_width_return (c : ascii) (s : string) :
  Js.white_width (String c s +:+ carriage_return) = Js.white_width (String c s).
Proof.
  unfold Js.white_width.
  rewrite (find_agree (fun p => String.prefix p (String c s +:+ carriage_return))
             (fun p => String.prefix p (String c s)) Js.white_space); [reflexivity|].
  assert (Htails : forallb (fun p => match p with
                                     | String _ p' => no_return p'
                                     | EmptyString => false
                                     end) Js.white_space = true) by reflexivity.
  rewrite forallb_forall in Htails. apply Stdlib.Lists.List.Forall_forall. intros p Hp.
  specialize (Htails p Hp). destruct p as [|a p']; [discriminate|].
  rewrite append_cons, !prefix_cons. now rewrite (prefix_before_return p' Htails s).
Qed.

Lemma all_white_return (s : string) :
  forall inside, Js.all_white_go inside (s +:+ carriage_return) = Js.all_white_go inside s.
Proof.
  induction s as [|c s IH]; intros inside.
  - destruct inside; reflexivity.
  - rewrite append_cons. cbn [Js.all_white_go]. rewrite <- append_cons.
    destruct inside as [|k]; [|apply IH].
    rewrite white_width_return. destruct (Js.white_width (String c s)); [reflexivity | apply IH].
Qed.

Lemma trimEnd_return (s : string) : Js.trimEnd (s +:+ carriage_return) = Js.trimEnd s.
Proof.
  induction s as [|c s IH]; [reflexivity|].
  rewrite append_cons. cbn [Js.trimEnd]. rewrite <- append_cons.
  unfold Js.all_white. rewrite all_white_return, IH. reflexivity.
Qed.

Lemma trimStart_return (s : string) :
  forall inside,
    Js.trimEnd (Js.trimStart_go inside (s +:+ carriage_return))
    = Js.trimEnd (Js.trimStart_go inside s).
Proof.
  induction s as [|c s IH]; intros inside.
  - destruct inside; reflexivity.
  - rewrite append_cons. cbn [Js.trimStart_go]. rewrite <- append_cons.
    destruct inside as [|k]; [|apply IH].
    rewrite white_width_return.
    destruct (Js.white_width (String c s)); [apply trimEnd_return | apply IH].
Qed.

Lemma trim_return (s : string) : Js.trim (s +:+ carriage_return) = Js.trim s.
Proof. unfold Js.trim, Js.trimStart. apply trimStart_return. Qed.

Lemma trim_with_returns (pieces : list string) :
  map Js.trim (with_returns pieces) = map Js.trim pieces.
Proof.
  induction pieces as [|p [|q rest] IH]; [reflexivity | reflexivity |].
  change (with_returns (p :: q :: rest))
    with ((p +:+ carriage_return) :: with_returns (q :: rest)).
  cbn [map] in *. now rewrite trim_return, IH.
Qed.

(** X5. Line endings do not matter: a robots.txt whose lines end in
    carriage return and line feed gets the answer of the same text with
    line feeds alone, for every user agent and path. *)
Theorem checkRobotsTxt_ignores_carriage_returns (text userAgent path : string) :
  Utils.checkRobotsTxt (Js.Str (crlf text)) userAgent path
  = Utils.checkRobotsTxt (Js.Str text) userAgent path.
Proof.
  unfold Utils.checkRobotsTxt, Utils.robots_lines.
  rewrite split_crlf, trim_with_returns.
  destruct text as [|c s]; [reflexivity|].
  cbn [crlf]. now destruct (Ascii.eqb c "010").
Qed.

Example crlf_example :
  crlf ("User-agent: *" +:+ newline +:+ "Disallow: /private" +:+ newline)
  = "User-agent: *" +:+ carriage_return +:+ newline
    +:+ "Disallow: /private" +:+ carriage_return +:+ newline.
Proof. reflexivity. Qed.

(** ** More on the robots.txt gate *)

(** The address that [new URL('/robots.txt', base)] serializes to. *)
Lemma robots_href (base : Url.t) :
  Url.href (Url.mk (Url.protocol base) (Url.hostname base) (Url.port base)
              "/robots.txt" None [] "")
  = Url.protocol base +:+ "//" +:+ Url.host base +:+ "/robots.txt".
Proof. unfold Url.href, Url.host. simpl. now rewrite !append_empty_r. Qed.


(** The robots.txt address built from the protocol and the host name of
    the page. *)
Definition robots_url (urlObj : Url.t) : string :=
  (Url.protocol urlObj +:+ "//" +:+ Url.hostname urlObj) +:+ "/robots.txt".

(** What the platform's parser does on the base that [fetchHtml] builds
    from a page it has parsed, the protocol and the host name: it reads
    them back, with no port. *)
Definition reads_origin_back {U : Url.Parser} (urlObj : Url.t) : Prop :=
  exists base,
    Url.new (Url.protocol urlObj +:+ "//" +:+ Url.hostname urlObj) = Some base
    /\ Url.protocol base = Url.protocol urlObj
    /\ Url.hostname base = Url.hostname urlObj
    /\ Url.port base = "".

Lemma origin_resolved {U : Url.Parser} (urlObj : Url.t) :
  reads_origin_back urlObj ->
  exists resolved,
    Url.new_at "/robots.txt" (Url.protocol urlObj +:+ "//" +:+ Url.hostname urlObj)
    = Some resolved
    /\ Url.href resolved = robots_url urlObj.
Proof.
  intros (base & Hbase & Hprotocol & Hhost & Hport).
  unfold Url.new_at. rewrite Hbase. eexists. split; [reflexivity|].
  rewrite robots_href. unfold robots_url, Url.host. rewrite Hport, Hprotocol, Hhost. simpl.
  now rewrite !append_assoc.
Qed.

(** The gate with the check on, for a base that resolves. *)
Lemma robots_gate_on {U : Url.Parser} (baseUrl userAgent path : string) (w : Net.world)
    (resolved : Url.t) :
  Url.new_at "/robots.txt" baseUrl = Some resolved ->
  let r := fst (Net.next_reply w) in
  let robotsTxt := if robots_unavailable w then Js.Null else Js.Str (reply_text r) in
  Fetcher.robots_gate true baseUrl userAgent path w
  = (if Js.truthy robotsTxt && negb (Utils.checkRobotsTxt robotsTxt userAgent path)
     then inr (Js.Error ("Access to " +:+ path +:+ " is disallowed by robots.txt"))
     else inl tt,
     Net.mkWorld (Net.now w + robots_time r) (Net.rateLimitMap w) (tl (Net.network w))
       (Net.trace w ++ [Net.Request (Url.href resolved) (Net.now w)])).
Proof.
  intros Hresolved. cbv zeta. unfold Fetcher.robots_gate, Net.bind.
  rewrite fetchRobotsTxt_run, Hresolved. cbv zeta.
  set (robotsTxt := if robots_unavailable w then _ else _). cbv beta iota.
  now destruct (Js.truthy robotsTxt && negb (Utils.checkRobotsTxt robotsTxt userAgent path)).
Qed.

Lemma attempts_trace_grows (url : string) (timeout retries retryDelay : Z) (n : nat)
    (attempt : Z) (lastError : option Js.error) (w : Net.world) :
  exists new,
    Net.trace (snd (Fetcher.attempts url timeout retries retryDelay n attempt lastError w))
    = Net.trace w ++ new.
Proof.
  destruct (attempts_follows url timeout retries retryDelay n attempt lastError w)
    as [(_ & _ & new & Hnew & _) _].
  now exists new.
Qed.

(** X7. With the robots.txt check on (the default), the first thing
    [fetchHtml] does is to request [robots.txt] at the protocol and host
    name of the page, at the time of the call. The port of the page's URL
    is not part of that address. (The base is parsed again to resolve
    the address: the statement is for a parser that reads the protocol
    and the host name back.) *)
Theorem fetchHtml_asks_robots_first {U : Url.Parser} (url : string)
    (options : Fetcher.options) (urlObj : Url.t) (w : Net.world) :
  Url.new url = Some urlObj ->
  reads_origin_back urlObj ->
  default true (Fetcher.checkRobots options) = true ->
  exists later,
    Net.trace (snd (Fetcher.fetchHtml url options w))
    = Net.trace w ++ Net.Request (robots_url urlObj) (Net.now w) :: later.
Proof.
  intros Hnew Horigin Hcheck. unfold Fetcher.fetchHtml. rewrite Hnew, Hcheck.
  destruct (origin_resolved urlObj Horigin) as (resolved & Hresolved & Hhref).
  unfold Net.bind. rewrite (robots_gate_on _ _ _ w resolved Hresolved). cbv zeta.
  rewrite Hhref.
  destruct (Js.truthy _ && negb _).
  - exists []. reflexivity.
  - match goal with
    | |- context [Fetcher.attempts ?a ?b ?c ?d ?n ?i ?l ?w1] =>
        destruct (attempts_trace_grows a b c d n i l w1) as [new Hgrow]
    end.
    exists new. rewrite Hgrow. simpl. now rewrite <- app_assoc.
Qed.

(** The theorem on a page at port 8443 of a host without robots.txt. *)
Definition port_parser : Url.Parser :=
  fun s =>
    if String.eqb s "https://example.com:8443/status"
    then Some (Url.mk "https:" "example.com" "8443" "/status" None [] "")
    else Basic.parse_url s.

Lemma fetchHtml_asks_robots_first_witness :
  exists later,
    Net.trace (snd (Fetcher.fetchHtml (U := port_parser) "https://example.com:8443/status"
                      (Fetcher.mkOptions None None None None None)
                      (fresh_world 5000 [no_robots; ok_page])))
    = Net.Request "https://example.com/robots.txt" 5000 :: later.
Proof.
  apply (fetchHtml_asks_robots_first (U := port_parser) "https://example.com:8443/status"
           (Fetcher.mkOptions None None None None None)
           (Url.mk "https:" "example.com" "8443" "/status" None [] "")
           (fresh_world 5000 [no_robots; ok_page])); [reflexivity | | reflexivity].
  exists (Url.mk "https:" "example.com" "" "/" None [] ""). repeat split; reflexivity.
Defined.

(** X8. When the robots.txt of the host is served and refuses the path
    (path and query string of the page), [fetchHtml] throws the error
    that names the path and never requests the page: the robots.txt
    request is the only one, and the replies after it are left. *)
Theorem fetchHtml_robots_disallowed {U : Url.Parser} (url : string)
    (options : Fetcher.options) (urlObj : Url.t) (w : Net.world)
    (r : Net.reply) (rest : list Net.reply) :
  let userAgent := default Fetcher.defaultUserAgent (Fetcher.userAgent options) in
  let path := Url.pathname urlObj +:+ Url.search urlObj in
  Url.new url = Some urlObj ->
  reads_origin_back urlObj ->
  default true (Fetcher.checkRobots options) = true ->
  Net.network w = r :: rest ->
  robots_unavailable w = false ->
  Utils.checkRobotsTxt (Js.Str (reply_text r)) userAgent path = false ->
  let out := Fetcher.fetchHtml url options w in
  fst out = inr (Js.Error ("Access to " +:+ path +:+ " is disallowed by robots.txt"))
  /\ Net.trace (snd out) = Net.trace w ++ [Net.Request (robots_url urlObj) (Net.now w)]
  /\ Net.network (snd out) = rest.
Proof.
  intros userAgent path Hnew Horigin Hcheck Hnet Hserved Hrefused out.
  subst out. unfold Fetcher.fetchHtml. rewrite Hnew, Hcheck.
  fold userAgent path.
  destruct (origin_resolved urlObj Horigin) as (resolved & Hresolved & Hhref).
  unfold Net.bind. rewrite (robots_gate_on _ _ _ w resolved Hresolved). cbv zeta.
  rewrite Hhref, Hserved.
  assert (Hr : fst (Net.next_reply w) = r) by (unfold Net.next_reply; now rewrite Hnet).
  rewrite Hr, Hrefused.
  assert (Hbody : reply_text r <> "").
  { intros E. rewrite E in Hrefused. discriminate. }
  simpl. destruct (String.eqb_spec (reply_text r) "") as [|_]; [congruence|]. simpl.
  rewrite Hnet. repeat split.
Qed.

Definition robots_refusing_private : Net.reply :=
  Net.mkReply 20 (Net.Response 200 "OK"
                    (Net.Text 0 ("User-agent: *" +:+ newline +:+ "Disallow: /private"))).

(** The theorem on a host whose robots.txt disallows [/private]. *)
Lemma fetchHtml_robots_disallowed_witness :
  let out := Fetcher.fetchHtml (U := Basic.parser) "https://example.com/private/a?x=1"
               (Fetcher.mkOptions None None None None None)
               (fresh_world 5000 [robots_refusing_private; ok_page]) in
  fst out = inr (Js.Error "Access to /private/a?x=1 is disallowed by robots.txt")
  /\ Net.trace (snd out) = [Net.Request "https://example.com/robots.txt" 5000]
  /\ Net.network (snd out) = [ok_page].
Proof.
  apply (fetchHtml_robots_disallowed (U := Basic.parser) "https://example.com/private/a?x=1"
           (Fetcher.mkOptions None None None None None)
           (Url.mk "https:" "example.com" "" "/private/a" (Some "x=1") [("x", "1")] "")
           (fresh_world 5000 [robots_refusing_private; ok_page])
           robots_refusing_private [ok_page]); try reflexivity.
  exists (Url.mk "https:" "example.com" "" "/" None [] ""). repeat split; reflexivity.
Defined.

(** ** More on the retry loop *)

(** What the loop does on [k] failures that it retries, from the turn
    [attempt]: each request is followed by the sleep of its turn. *)
Definition retry_shape (url : string) (retryDelay attempt : Z) (k : nat) : list (string + Z) :=
  flat_map (fun i => [inl url; inr (retryDelay * 2 ^ (attempt + Z.of_nat i))]) (seq 0 k).

Lemma retry_shape_S (url : string) (retryDelay attempt : Z) (k : nat) :
  retry_shape url retryDelay attempt (S k)
  = inl url :: inr (retryDelay * 2 ^ attempt) :: retry_shape url retryDelay (attempt + 1) k.
Proof.
  unfold retry_shape. cbn [seq flat_map app]. rewrite Z.add_0_r. do 2 f_equal.
  rewrite flat_map_seq_shift. apply flat_map_ext. intros i.
  replace (attempt + 1 + Z.of_nat i) with (attempt + Z.of_nat (S i)) by lia.
  reflexivity.
Qed.

Lemma loop_shape_retry (url : string) (retryDelay : Z) (k : nat) :
  forall attempt,
    loop_shape url retryDelay attempt (S k)
    = retry_shape url retryDelay attempt k ++ [inl url].
Proof.
  induction k as [|k IH]; intros attempt; [reflexivity|].
  change (loop_shape url retryDelay attempt (S (S k)))
    with (inl url :: inr (retryDelay * 2 ^ attempt)
            :: loop_shape url retryDelay (attempt + 1) (S k) : list (string + Z)).
  now rewrite IH, retry_shape_S.
Qed.

(** [fetchHtml] once the gate is passed: the loop on failures that it
    retries and then on a reply that ends it. *)
Lemma fetchHtml_run {U : Url.Parser} (url : string) (options : Fetcher.options)
    (urlObj : Url.t) (w w0 : Net.world)
    (fails : list Net.reply) (last : Net.reply) (rest : list Net.reply) :
  let userAgent := default Fetcher.defaultUserAgent (Fetcher.userAgent options) in
  let timeout := default 10000 (Fetcher.timeout options) in
  let retries := default 2 (Fetcher.retries options) in
  let retryDelay := default 1000 (Fetcher.retryDelay options) in
  let checkRobots := default true (Fetcher.checkRobots options) in
  Url.new url = Some urlObj ->
  Fetcher.robots_gate checkRobots (Url.protocol urlObj +:+ "//" +:+ Url.hostname urlObj)
    userAgent (Url.pathname urlObj +:+ Url.search urlObj) w = (inl tt, w0) ->
  Net.network w0 = fails ++ last :: rest ->
  Z.of_nat (length fails) <= retries ->
  forallb (fails_retryably timeout) fails = true ->
  fails_retryably timeout last = false ->
  let out := Fetcher.fetchHtml url options w in
  fst out = match attempt_error timeout last with
            | None => inl (reply_text last)
            | Some e => inr e
            end
  /\ Net.trace (snd out)
     = Net.trace w0
       ++ backoff_events url timeout retryDelay 0 (Net.now w0) (fails ++ [last])
  /\ Net.network (snd out) = rest.
Proof.
  intros userAgent timeout retries retryDelay checkRobots Hnew Hgate Hnet Hlen Hfail Hlast out.
  subst out. unfold Fetcher.fetchHtml. rewrite Hnew. unfold Net.bind.
  fold userAgent timeout retries retryDelay checkRobots. rewrite Hgate.
  replace (Z.to_nat (retries + 1))
    with (length fails + S (Z.to_nat (retries - Z.of_nat (length fails))))%nat by lia.
  destruct (attempts_run url timeout retries retryDelay fails 0 None w0 last rest
              (Z.to_nat (retries - Z.of_nat (length fails))) Hnet Hfail ltac:(lia))
    as (Hres & Htrace & Hleft & _).
  { rewrite Hlast. discriminate. }
  split; [|split; [exact Htrace | exact Hleft]].
  rewrite Hres. unfold fails_retryably in Hlast.
  destruct (attempt_error timeout last) as [e|]; [|reflexivity].
  apply negb_false_iff in Hlast. now rewrite Hlast.
Qed.



(** X10. An error that the loop does not retry ends [fetchHtml] at once
    and is thrown as it is, not wrapped in the message of the exhausted
    retries: the abort of an attempt that takes [timeout] or longer, or
    an error whose message contains [robots.txt]. No sleep follows, and
    the replies after it are left. *)
Theorem fetchHtml_stops_on_unretried_error {U : Url.Parser} (url : string)
    (options : Fetcher.options) (urlObj : Url.t) (w w0 : Net.world)
    (fails : list Net.reply) (bad : Net.reply) (rest : list Net.reply) (e : Js.error) :
  let userAgent := default Fetcher.defaultUserAgent (Fetcher.userAgent options) in
  let timeout := default 10000 (Fetcher.timeout options) in
  let retries := default 2 (Fetcher.retries options) in
  let retryDelay := default 1000 (Fetcher.retryDelay options) in
  let checkRobots := default true (Fetcher.checkRobots options) in
  Url.new url = Some urlObj ->
  Fetcher.robots_gate checkRobots (Url.protocol urlObj +:+ "//" +:+ Url.hostname urlObj)
    userAgent (Url.pathname urlObj +:+ Url.search urlObj) w = (inl tt, w0) ->
  Net.network w0 = fails ++ bad :: rest ->
  Z.of_nat (length fails) <= retries ->
  forallb (fails_retryably timeout) fails = true ->
  attempt_error timeout bad = Some e ->
  Fetcher.not_retried e = true ->
  let out := Fetcher.fetchHtml url options w in
  fst out = inr e
  /\ map Net.shape (Net.trace (snd out))
     = map Net.shape (Net.trace w0)
       ++ flat_map (fun i => [inl url; inr (retryDelay * 2 ^ Z.of_nat i)])
            (seq 0 (length fails))
       ++ [inl url]
  /\ Net.network (snd out) = rest
  /\ (timeout <= Net.latency bad ->
      e = Js.mkError "AbortError" "This operation was aborted").
Proof.
  intros userAgent timeout retries retryDelay checkRobots Hnew Hgate Hnet Hlen Hfail Hbad He out.
  destruct (fetchHtml_run url options urlObj w w0 fails bad rest Hnew Hgate Hnet Hlen Hfail)
    as (Hres & Htrace & Hleft).
  { unfold fails_retryably. fold timeout. now rewrite Hbad, He. }
  fold timeout retryDelay out in Hres, Htrace, Hleft. rewrite Hbad in Hres.
  split; [exact Hres|]. split; [|split; [exact Hleft|]].
  - rewrite Htrace, map_app, backoff_shape, length_app. simpl length.
    replace (length fails + 1)%nat with (S (length fails)) by lia.
    now rewrite loop_shape_retry.
  - intros Hlate. unfold attempt_error in Hbad.
    destruct (Z.leb_spec timeout (Net.latency bad)); [|lia]. now inversion Hbad.
Qed.

Definition slow_page : Net.reply :=
  Net.mkReply 2000 (Net.Response 200 "OK" (Net.Text 0 "OK")).

(** The theorem on the test [should respect timeout]: a page that takes
    two seconds, with a timeout of half a second. *)
Lemma fetchHtml_stops_on_unretried_error_witness :
  let out := Fetcher.fetchHtml (U := Basic.parser) "https://example.com/slow"
               (Fetcher.mkOptions None (Some 500) None None (Some false))
               (fresh_world 5000 [slow_page; ok_page]) in
  fst out = inr (Js.mkError "AbortError" "This operation was aborted")
  /\ map Net.shape (Net.trace (snd out)) = [inl "https://example.com/slow"]
  /\ Net.network (snd out) = [ok_page].
Proof.
  destruct (fetchHtml_stops_on_unretried_error (U := Basic.parser) "https://example.com/slow"
              (Fetcher.mkOptions None (Some 500) None None (Some false))
              (Url.mk "https:" "example.com" "" "/slow" None [] "")
              (fresh_world 5000 [slow_page; ok_page]) (fresh_world 5000 [slow_page; ok_page])
              [] slow_page [ok_page] (Js.mkError "AbortError" "This operation was aborted"))
    as (Hres & Htrace & Hrest & _); try reflexivity.
  - simpl. lia.
  - repeat split; assumption.
Defined.

(** ** How many requests a call can start *)

Lemma requests_app (a b : list Net.event) :
  Net.requests (a ++ b) = Net.requests a ++ Net.requests b.
Proof. unfold Net.requests. apply omap_app. Qed.

Lemma sleeps_app (a b : list Net.event) :
  Net.sleeps (a ++ b) = Net.sleeps a ++ Net.sleeps b.
Proof. unfold Net.sleeps. apply omap_app. Qed.

(** What a run adds to the trace, under three bounds: the number of
    requests, whom they are for, and the number of sleeps. *)
Definition adds {A : Type} (m : Net.M A) (w : Net.world)
    (max_requests : nat) (target : string -> Prop) (max_sleeps : nat) : Prop :=
  exists new,
    Net.trace (snd (m w)) = Net.trace w ++ new
    /\ (length (Net.requests new) <= max_requests)%nat
    /\ Forall (fun p => target (fst p)) (Net.requests new)
    /\ (length (Net.sleeps new) <= max_sleeps)%nat.

Lemma attempts_adds (url : string) (timeout retries retryDelay : Z) (n : nat) :
  forall (attempt : Z) (lastError : option Js.error) (w : Net.world),
    adds (Fetcher.attempts url timeout retries retryDelay n attempt lastError) w
      n (eq url) (Z.to_nat (retries - attempt)).
Proof.
  induction n as [|n IH]; intros attempt lastError w; unfold adds.
  - exists []. simpl. rewrite app_nil_r. repeat split; [lia | constructor | lia].
  - rewrite attempts_turn. cbv zeta.
    set (r := fst (Net.next_reply w)). set (w1 := answered url timeout r w).
    assert (Ht : Net.trace w1 = Net.trace w ++ [Net.Request url (Net.now w)]) by reflexivity.
    assert (Hstop : forall (out : string + Js.error),
               exists new,
                 Net.trace (snd (out, w1)) = Net.trace w ++ new
                 /\ (length (Net.requests new) <= S n)%nat
                 /\ Forall (fun p => url = fst p) (Net.requests new)
                 /\ (length (Net.sleeps new) <= Z.to_nat (retries - attempt))%nat).
    { intros out. exists [Net.Request url (Net.now w)]. simpl.
      repeat split; [lia | repeat constructor | lia]. }
    destruct (attempt_error timeout r) as [e|]; [|apply (Hstop (inl (reply_text r)))].
    unfold handler. destruct (Fetcher.not_retried e); [apply (Hstop (inr e))|].
    destruct (Z.ltb_spec attempt retries) as [Hlt|Hge].
    + rewrite bind_sleep.
      set (w2 := Net.advance _ (Net.record _ w1)).
      destruct (IH (attempt + 1) (Some e) w2) as (new & Hnew & Hreq & Hurl & Hsl).
      exists (Net.Request url (Net.now w) :: Net.Sleep (retryDelay * 2 ^ attempt) (Net.now w1)
                :: new).
      split; [|split; [|split]].
      * rewrite Hnew. unfold w2. simpl. rewrite <- !app_assoc. reflexivity.
      * change (S (length (Net.requests new)) <= S n)%nat. lia.
      * change (Forall (fun p => url = fst p) ((url, Net.now w) :: Net.requests new)).
        constructor; [reflexivity | exact Hurl].
      * change (S (length (Net.sleeps new)) <= Z.to_nat (retries - attempt))%nat. lia.
    + rewrite bind_ret.
      destruct (IH (attempt + 1) (Some e) w1) as (new & Hnew & Hreq & Hurl & Hsl).
      exists (Net.Request url (Net.now w) :: new).
      split; [|split; [|split]].
      * rewrite Hnew, Ht, <- app_assoc. reflexivity.
      * change (S (length (Net.requests new)) <= S n)%nat. lia.
      * change (Forall (fun p => url = fst p) ((url, Net.now w) :: Net.requests new)).
        constructor; [reflexivity | exact Hurl].
      * change (length (Net.sleeps new) <= Z.to_nat (retries - attempt))%nat. lia.
Qed.

(** The robots.txt address that [fetchHtml] resolves for a page:
    [/robots.txt] at the base made of the protocol and the host name of
    the page; none when the page or that base does not parse. *)
Definition robots_address {U : Url.Parser} (url : string) : option string :=
  match Url.new url with
  | Some urlObj =>
      option_map Url.href
        (Url.new_at "/robots.txt" (Url.protocol urlObj +:+ "//" +:+ Url.hostname urlObj))
  | None => None
  end.

(** The requests of [fetchHtml]: one for robots.txt when the check is
    on, then at most [retries + 1] for the page. *)
Lemma fetchHtml_adds {U : Url.Parser} (url : string) (options : Fetcher.options)
    (w : Net.world) :
  let retries := default 2 (Fetcher.retries options) in
  let checkRobots := default true (Fetcher.checkRobots options) in
  adds (Fetcher.fetchHtml url options) w
    ((if checkRobots then 1 else 0) + Z.to_nat (retries + 1))
    (fun u => u = url \/ (checkRobots = true /\ Some u = robots_address url))
    (Z.to_nat retries).
Proof.
  cbv zeta. unfold adds, robots_address, Fetcher.fetchHtml.
  destruct (Url.new url) as [urlObj|] eqn:Hnew.
  - unfold Net.bind.
    set (baseUrl := Url.protocol urlObj +:+ "//" +:+ Url.hostname urlObj).
    set (userAgent := default Fetcher.defaultUserAgent (Fetcher.userAgent options)).
    set (path := Url.pathname urlObj +:+ Url.search urlObj).
    set (checkRobots := default true (Fetcher.checkRobots options)).
    assert (Hgate : exists first,
               Net.trace (snd (Fetcher.robots_gate checkRobots baseUrl userAgent path w))
               = Net.trace w ++ first
               /\ (length (Net.requests first) <= (if checkRobots then 1 else 0))%nat
               /\ Forall (fun p => checkRobots = true
                                   /\ Some (fst p)
                                      = option_map Url.href
                                          (Url.new_at "/robots.txt" baseUrl))
                    (Net.requests first)
               /\ Net.sleeps first = []).
    { destruct (robots_gate_world checkRobots baseUrl userAgent path w)
        as [->|(Hon & resolved & Hresolved & ->)].
      - exists []. rewrite app_nil_r. repeat split; [simpl; lia | constructor].
      - exists [Net.Request (Url.href resolved) (Net.now w)]. rewrite Hon, Hresolved.
        split; [reflexivity|]. split; [simpl; lia|]. split; [|reflexivity].
        constructor; [now split | constructor]. }
    destruct Hgate as (first & Hfirst & Hcount & Htarget & Hquiet).
    destruct (Fetcher.robots_gate _ baseUrl userAgent path w) as [[[]|e] w1]; simpl in Hfirst.
    + destruct (attempts_adds url (default 10000 (Fetcher.timeout options))
                  (default 2 (Fetcher.retries options))
                  (default 1000 (Fetcher.retryDelay options))
                  (Z.to_nat (default 2 (Fetcher.retries options) + 1)) 0 None w1)
        as (new & Hnew' & Hreq & Hurl & Hsl).
      exists (first ++ new). rewrite Hnew', Hfirst, <- app_assoc.
      rewrite requests_app, sleeps_app, !length_app, Hquiet.
      split; [reflexivity|]. split; [lia|]. split.
      * apply Forall_app. split.
        -- eapply Forall_impl; [exact Htarget|]. simpl. intros p Hp. now right.
        -- eapply Forall_impl; [exact Hurl|]. simpl. intros p Hp. now left.
      * simpl. replace (default 2 (Fetcher.retries options) - 0)
          with (default 2 (Fetcher.retries options)) in Hsl by lia. exact Hsl.
    + exists first. split; [exact Hfirst|]. rewrite Hquiet.
      split; [lia|]. split; [|simpl; lia].
      eapply Forall_impl; [exact Htarget|]. simpl. intros p Hp. now right.
  - exists []. simpl. rewrite app_nil_r. split; [reflexivity|].
    split; [lia|]. split; [constructor | lia].
Qed.

Lemma new_events_app {A : Type} (m : Net.M A) (w : Net.world) (new : list Net.event) :
  Net.trace (snd (m w)) = Net.trace w ++ new -> new_events m w = new.
Proof. intros H. unfold new_events. rewrite H. apply drop_app_length. Qed.

(** X11. Whatever the network does, one call of [fetchHtml] starts at
    most [retries + 1] requests of the page, one more for robots.txt when
    the check is on, and no request for anything else; it sleeps at most
    [retries] times. *)
Theorem fetchHtml_request_bound {U : Url.Parser} (url : string)
    (options : Fetcher.options) (w : Net.world) :
  let retries := default 2 (Fetcher.retries options) in
  let checkRobots := default true (Fetcher.checkRobots options) in
  let new := new_events (Fetcher.fetchHtml url options) w in
  (length (Net.requests new) <= (if checkRobots then 1 else 0) + Z.to_nat (retries + 1))%nat
  /\ Forall (fun p => fst p = url
                      \/ (checkRobots = true /\ Some (fst p) = robots_address url))
       (Net.requests new)
  /\ (length (Net.sleeps new) <= Z.to_nat retries)%nat.
Proof.
  cbv zeta. destruct (fetchHtml_adds url options w) as (new & Hnew & Hbounds).
  rewrite (new_events_app _ _ _ Hnew). exact Hbounds.
Qed.

(** X12. [searchDuckDuckGoHtml] passes neither [retries] nor
    [retryDelay] on to [fetchHtml]: whatever its options and whatever the
    network does, one call starts at most four requests (robots.txt and
    three attempts) and sleeps at most three times (once for the rate
    limit, twice between attempts). *)
Theorem searchDuckDuckGoHtml_request_bound {U : Url.Parser} (query : string)
    (options : Fetcher.search_options) (w : Net.world) :
  let new := new_events (Fetcher.searchDuckDuckGoHtml query options) w in
  (length (Net.requests new) <= 4)%nat
  /\ (length (Net.sleeps new) <= 3)%nat
  /\ (default true (Fetcher.s_checkRobots options) = false ->
      (length (Net.requests new) <= 3)%nat
      /\ Forall (fun p => fst p = Fetcher.searchUrl query) (Net.requests new)).
Proof.
  cbv zeta. unfold Fetcher.searchDuckDuckGoHtml.
  set (rateLimitMs := default 1000 (Fetcher.s_rateLimitMs options)).
  set (fetchOptions := Fetcher.mkOptions _ _ _ _ _).
  destruct (enforceRateLimit_world "html.duckduckgo.com" rateLimitMs w)
    as (Hres & _ & _ & _ & _ & Htrace).
  destruct (Fetcher.enforceRateLimit "html.duckduckgo.com" rateLimitMs w) as [res w1] eqn:Hrate.
  simpl in Hres, Htrace. subst res.
  destruct (fetchHtml_adds (Fetcher.searchUrl query) fetchOptions w1)
    as (new & Hnew & Hreq & Hurl & Hsl).
  set (slept := if Net.now w - last_stamp "html.duckduckgo.com" w <? rateLimitMs
                then [Net.Sleep (rateLimitMs - (Net.now w - last_stamp "html.duckduckgo.com" w))
                        (Net.now w)]
                else []) in *.
  assert (Hall : new_events
                   (await _ <- Fetcher.enforceRateLimit "html.duckduckgo.com" rateLimitMs in
                    Fetcher.fetchHtml (Fetcher.searchUrl query) fetchOptions) w
                 = slept ++ new).
  { apply new_events_app. unfold Net.bind. rewrite Hrate, Hnew, Htrace.
    now rewrite <- app_assoc. }
  rewrite Hall, requests_app, sleeps_app, !length_app.
  assert (Hs : Net.requests slept = [] /\ (length (Net.sleeps slept) <= 1)%nat).
  { unfold slept. destruct (_ <? _); simpl; split; (reflexivity || lia). }
  destruct Hs as [Hs1 Hs2]. rewrite Hs1. simpl in Hreq, Hsl |- *.
  split; [destruct (default true (Fetcher.s_checkRobots options)); simpl in Hreq; lia|].
  split; [lia|].
  intros Hoff. rewrite Hoff in Hreq. simpl in Hreq. split; [lia|].
  eapply Forall_impl; [exact Hurl|]. simpl. intros p [Hp|[Hon _]]; [exact Hp|].
  rewrite Hoff in Hon. discriminate.
Qed.

(** X13. With a negative [retries] the loop of [fetchHtml] has no turn:
    once the robots.txt gate is passed, no request of the page is made
    and the [throw] after the loop fails on reading the message of an
    error that was never caught: the call rejects with a [TypeError]
    where the documentation announces an [Error]. *)
Theorem fetchHtml_negative_retries {U : Url.Parser} (url : string)
    (options : Fetcher.options) (urlObj : Url.t) (w w0 : Net.world) :
  let userAgent := default Fetcher.defaultUserAgent (Fetcher.userAgent options) in
  let checkRobots := default true (Fetcher.checkRobots options) in
  Url.new url = Some urlObj ->
  Fetcher.robots_gate checkRobots (Url.protocol urlObj +:+ "//" +:+ Url.hostname urlObj)
    userAgent (Url.pathname urlObj +:+ Url.search urlObj) w = (inl tt, w0) ->
  default 2 (Fetcher.retries options) < 0 ->
  Fetcher.fetchHtml url options w
  = (inr (Js.TypeError "Cannot read properties of undefined (reading 'message')"), w0).
Proof.
  intros userAgent checkRobots Hnew Hgate Hneg.
  unfold Fetcher.fetchHtml. rewrite Hnew. unfold Net.bind.
  fold userAgent checkRobots. rewrite Hgate.
  replace (Z.to_nat (default 2 (Fetcher.retries options) + 1)) with 0%nat by lia.
  reflexivity.
Qed.

(** The theorem on [retries = -1], the robots.txt check off. *)
Lemma fetchHtml_negative_retries_witness :
  Fetcher.fetchHtml (U := Basic.parser) "https://example.com/test"
    (Fetcher.mkOptions None None (Some (-1)) None (Some false))
    (fresh_world 5000 [ok_page])
  = (inr (Js.TypeError "Cannot read properties of undefined (reading 'message')"),
     fresh_world 5000 [ok_page]).
Proof.
  apply (fetchHtml_negative_retries (U := Basic.parser) "https://example.com/test"
           (Fetcher.mkOptions None None (Some (-1)) None (Some false))
           (Url.mk "https:" "example.com" "" "/test" None [] "")
           (fresh_world 5000 [ok_page]) (fresh_world 5000 [ok_page])); reflexivity.
Defined.

(** ** How long a call can take *)

(** The time that the body of a reply takes to arrive when it is read,
    which is when the status is ok. *)
Definition body_time (r : Net.reply) : Z :=
  match Net.result r with
  | Net.Response status _ body => if Net.ok status then Z.max 0 (Net.delay_of body) else 0
  | Net.NetworkError _ => 0
  end.

(** The same for the replies that a network holds, added up. *)
Definition body_times (replies : list Net.reply) : Z :=
  fold_right (fun r total => body_time r + total) 0 replies.

Lemma body_time_nonneg (r : Net.reply) : 0 <= body_time r.
Proof.
  unfold body_time. destruct (Net.result r) as [status statusText body|msg]; [|lia].
  destruct (Net.ok status); lia.
Qed.

Lemma body_times_nonneg (replies : list Net.reply) : 0 <= body_times replies.
Proof.
  induction replies as [|r rest IH]; simpl; [lia|].
  pose proof (body_time_nonneg r). lia.
Qed.

(** The reply that the next request gets is the first of the network. *)
Lemma body_times_next (w : Net.world) :
  body_times (Net.network w)
  = body_time (fst (Net.next_reply w)) + body_times (tl (Net.network w)).
Proof. unfold Net.next_reply. destruct (Net.network w); reflexivity. Qed.

(** The timer of an attempt bounds the wait for the headers, not the
    reading of the body. *)
Lemma attempt_time_bound (timeout : Z) (r : Net.reply) :
  0 <= timeout -> attempt_time timeout r <= timeout + body_time r.
Proof.
  intros Ht. unfold attempt_time, body_time.
  destruct (Z.leb_spec timeout (Net.latency r)).
  - pose proof (body_time_nonneg r) as Hb. unfold body_time in Hb. lia.
  - destruct (Net.result r) as [status statusText body|msg]; [|lia].
    destruct (Net.ok status); lia.
Qed.

(** The loop from the turn [attempt], with [n] turns to go: its timers
    add up to [n] timeouts, its sleeps to
    [retryDelay * (2^(attempt + n - 1) - 2^attempt)], and the bodies it
    reads are among those the network holds. *)
Lemma attempts_time (url : string) (timeout retries retryDelay : Z) (n : nat) :
  0 <= timeout -> 0 <= retryDelay ->
  forall (attempt : Z) (lastError : option Js.error) (w : Net.world),
    0 <= attempt ->
    attempt + Z.of_nat n = retries + 1 ->
    let w' := snd (Fetcher.attempts url timeout retries retryDelay n attempt lastError w) in
    Net.now w <= Net.now w'
    /\ Net.now w' + body_times (Net.network w')
       <= Net.now w + Z.of_nat n * timeout
          + retryDelay * (2 ^ (attempt + Z.of_nat (n - 1)) - 2 ^ attempt)
          + body_times (Net.network w).
Proof.
  intros Ht Hd. induction n as [|n IH]; intros attempt lastError w Ha Hcount; cbv zeta.
  - replace (attempt + Z.of_nat (0 - 1)) with attempt by (simpl; lia).
    simpl. lia.
  - rewrite attempts_turn. cbv zeta.
    set (r := fst (Net.next_reply w)). set (w1 := answered url timeout r w).
    pose proof (attempt_time_bound timeout r Ht) as Hbound.
    pose proof (attempt_time_nonneg timeout r) as Hpos.
    pose proof (body_times_next w) as Hnext. fold r in Hnext.
    assert (Hnow1 : Net.now w1 = Net.now w + attempt_time timeout r) by reflexivity.
    assert (Hnet1 : Net.network w1 = tl (Net.network w)) by reflexivity.
    assert (Hpow : 0 < 2 ^ attempt) by (apply Z.pow_pos_nonneg; lia).
    assert (Hgrow : 2 ^ attempt <= 2 ^ (attempt + Z.of_nat (S n - 1))).
    { apply Z.pow_le_mono_r; lia. }
    assert (Hslack : 0 <= retryDelay * (2 ^ (attempt + Z.of_nat (S n - 1)) - 2 ^ attempt))
      by nia.
    assert (Hstop : forall out : string + Js.error,
               Net.now w <= Net.now (snd (out, w1))
               /\ Net.now (snd (out, w1)) + body_times (Net.network (snd (out, w1)))
                  <= Net.now w + Z.of_nat (S n) * timeout
                     + retryDelay * (2 ^ (attempt + Z.of_nat (S n - 1)) - 2 ^ attempt)
                     + body_times (Net.network w)).
    { intros out. cbn [snd]. rewrite Hnow1, Hnet1, Nat2Z.inj_succ. nia. }
    destruct (attempt_error timeout r) as [e|]; [|apply (Hstop (inl (reply_text r)))].
    unfold handler. destruct (Fetcher.not_retried e); [apply (Hstop (inr e))|].
    destruct (Z.ltb_spec attempt retries) as [Hlt|Hge].
    + rewrite bind_sleep.
      set (w2 := Net.advance _ (Net.record _ w1)).
      assert (Hw2 : Net.now w2 = Net.now w1 + retryDelay * 2 ^ attempt).
      { unfold w2. simpl. nia. }
      assert (Hnet2 : Net.network w2 = Net.network w1) by reflexivity.
      destruct n as [|n]; [lia|].
      specialize (IH (attempt + 1) (Some e) w2 ltac:(lia) ltac:(lia)). cbv zeta in IH.
      replace (attempt + 1 + Z.of_nat (S n - 1)) with (attempt + Z.of_nat (S (S n) - 1))
        in IH by lia.
      replace (2 ^ (attempt + 1)) with (2 ^ attempt + 2 ^ attempt) in IH
        by (rewrite Z.pow_add_r by lia; lia).
      rewrite Hw2, Hnet2, Hnow1, Hnet1 in IH.
      clearbody w2 w1. clear Hstop Hgrow Hslack.
      set (P := 2 ^ attempt) in *. set (Q := 2 ^ (attempt + _)) in *.
      assert (0 <= retryDelay * P) by nia.
      rewrite Z.mul_sub_distr_l in *. rewrite Z.mul_add_distr_l in IH.
      rewrite !Nat2Z.inj_succ in *. lia.
    + rewrite bind_ret.
      assert (n = 0%nat) by lia. subst n.
      replace (attempt + Z.of_nat (1 - 1)) with attempt by (simpl; lia).
      unfold Fetcher.attempts, Net.throw. cbn [snd]. rewrite Hnow1, Hnet1. lia.
Qed.

(** X14. A call of [fetchHtml] ends, and the clock never goes back. The
    timeout bounds the wait for the headers of each attempt, not the
    reading of a body: the timer is cleared once the headers are there.
    With [retries], [timeout] and [retryDelay] not negative the call
    takes at most [retries + 1] timeouts, the sleeps
    [retryDelay * (2^retries - 1)] between the attempts and five seconds
    for robots.txt when the check is on, and on top of them the time
    that the bodies of the replies take to arrive. *)
Theorem fetchHtml_time_bound {U : Url.Parser} (url : string)
    (options : Fetcher.options) (w : Net.world) :
  let timeout := default 10000 (Fetcher.timeout options) in
  let retries := default 2 (Fetcher.retries options) in
  let retryDelay := default 1000 (Fetcher.retryDelay options) in
  let checkRobots := default true (Fetcher.checkRobots options) in
  0 <= timeout -> 0 <= retries -> 0 <= retryDelay ->
  let w' := snd (Fetcher.fetchHtml url options w) in
  Net.now w <= Net.now w'
  <= Net.now w + (if checkRobots then 5000 else 0)
     + (retries + 1) * timeout + retryDelay * (2 ^ retries - 1)
     + body_times (Net.network w).
Proof.
  intros timeout retries retryDelay checkRobots Ht Hr Hd w'. subst w'.
  assert (Hpow : 0 < 2 ^ retries) by (apply Z.pow_pos_nonneg; lia).
  pose proof (body_times_nonneg (Net.network w)) as Hbodies.
  unfold Fetcher.fetchHtml.
  destruct (Url.new url) as [urlObj|]; [|simpl; destruct checkRobots; nia].
  unfold Net.bind. fold timeout retries retryDelay checkRobots.
  set (baseUrl := Url.protocol urlObj +:+ "//" +:+ Url.hostname urlObj).
  set (userAgent := default Fetcher.defaultUserAgent (Fetcher.userAgent options)).
  set (path := Url.pathname urlObj +:+ Url.search urlObj).
  assert (Hgate : let w1 := snd (Fetcher.robots_gate checkRobots baseUrl userAgent path w) in
                  Net.now w <= Net.now w1
                  /\ Net.now w1 + body_times (Net.network w1)
                     <= Net.now w + (if checkRobots then 5000 else 0)
                        + body_times (Net.network w)).
  { cbv zeta.
    destruct (robots_gate_world checkRobots baseUrl userAgent path w)
      as [->|(Hon & resolved & _ & ->)]; [destruct checkRobots; lia|].
    rewrite Hon. cbn [Net.now Net.network].
    pose proof (robots_time_bound (fst (Net.next_reply w))).
    pose proof (body_times_next w). pose proof (body_time_nonneg (fst (Net.next_reply w))).
    lia. }
  cbv zeta in Hgate.
  destruct (Fetcher.robots_gate checkRobots baseUrl userAgent path w) as [[[]|e] w1];
    simpl in Hgate.
  - pose proof (attempts_time url timeout retries retryDelay (Z.to_nat (retries + 1))
                  Ht Hd 0 None w1 ltac:(lia) ltac:(lia)) as Hloop.
    cbv zeta in Hloop.
    replace (0 + Z.of_nat (Z.to_nat (retries + 1) - 1)) with retries in Hloop by lia.
    replace (Z.of_nat (Z.to_nat (retries + 1))) with (retries + 1) in Hloop by lia.
    change (2 ^ 0) with 1 in Hloop.
    match type of Hloop with
    | context [Net.network (snd ?out)] =>
        pose proof (body_times_nonneg (Net.network (snd out)))
    end.
    lia.
  - simpl. pose proof (body_times_nonneg (Net.network w1)). nia.
Qed.

(** A page whose headers come at once and whose body takes a minute. *)
Definition slow_body : Net.reply :=
  Net.mkReply 20 (Net.Response 200 "OK" (Net.Text 60000 "<html></html>")).

(** The theorem on a server error followed by such a page, with the
    default options but for the robots.txt check: the bound is 30
    seconds of timeouts, 3 seconds of sleeps and the minute of the body;
    the call takes 61040 ms, more than the timeouts and sleeps allow. *)
Lemma fetchHtml_time_bound_witness :
  let w := fresh_world 5000 [server_error; slow_body] in
  let w' := snd (Fetcher.fetchHtml (U := Basic.parser) "https://example.com/slow"
                   (Fetcher.mkOptions None None None None (Some false)) w) in
  Net.now w <= Net.now w'
  <= Net.now w + 0 + (2 + 1) * 10000 + 1000 * (2 ^ 2 - 1) + 60000.
Proof.
  apply (fetchHtml_time_bound (U := Basic.parser) "https://example.com/slow"
           (Fetcher.mkOptions None None None None (Some false))
           (fresh_world 5000 [server_error; slow_body]));
    simpl; lia.
Defined.

Example slow_body_outlasts_timeout :
  Net.now (snd (Fetcher.fetchHtml (U := Basic.parser) "https://example.com/slow"
                  (Fetcher.mkOptions None (Some 500) (Some 0) None (Some false))
                  (fresh_world 5000 [slow_body])))
  = 65020.
Proof. vm_compute. reflexivity. Qed.

(** ** Rate limiting, host by host *)







(** ** More on the search URL *)

Lemma byte_of_inj (c d : ascii) : Js.byte_of c = Js.byte_of d -> c = d.
Proof.
  unfold Js.byte_of. intros H. rewrite <- (ascii_N_embedding c), <- (ascii_N_embedding d).
  now rewrite H.
Qed.

Lemma hex_value_digit (n : N) : (n < 16)%N -> Js.hex_value (Js.hex_digit n) = Some n.
Proof.
  intros Hn. destruct n as [|p]; [reflexivity|].
  do 4 (destruct p as [p|p|]; try reflexivity); lia.
Qed.

Lemma hex_digit_unreserved (n : N) : (n < 16)%N -> Js.uri_unreserved (Js.hex_digit n) = true.
Proof.
  intros Hn. destruct n as [|p]; [reflexivity|].
  do 4 (destruct p as [p|p|]; try reflexivity); lia.
Qed.

Lemma byte_high_lt (c : ascii) : (Js.byte_of c / 16 < 16)%N.
Proof.
  unfold Js.byte_of. pose proof (N_ascii_bounded c).
  apply N.Div0.div_lt_upper_bound. lia.
Qed.

Lemma byte_low_lt (c : ascii) : (Js.byte_of c mod 16 < 16)%N.
Proof. apply N.mod_lt. discriminate. Qed.

Lemma byte_split (c : ascii) : (16 * (Js.byte_of c / 16) + Js.byte_of c mod 16 = Js.byte_of c)%N.
Proof. symmetry. apply N.div_mod. discriminate. Qed.

Lemma one_of_byte (cs : string) (c : ascii) (bound : N) :
  forallb (fun x => (Js.byte_of x <? bound)%N) (list_ascii_of_string cs) = true ->
  Js.one_of cs c = true -> (Js.byte_of c < bound)%N.
Proof.
  unfold Js.one_of. induction (list_ascii_of_string cs) as [|x l IH]; simpl; [discriminate|].
  intros Hall Hc. apply andb_prop in Hall as [Hx Hl].
  apply orb_prop in Hc as [Hc|Hc]; [|now apply IH].
  apply Ascii.eqb_eq in Hc. subst c. now apply N.ltb_lt.
Qed.

(** An unreserved character is an ASCII character. *)
Lemma unreserved_ascii (c : ascii) : Js.uri_unreserved c = true -> (Js.byte_of c < 128)%N.
Proof.
  unfold Js.uri_unreserved, Js.is_alnum, Js.is_upper, Js.is_lower, Js.is_digit, Js.in_range.
  intros H. apply orb_prop in H as [H|H]; [|now apply (one_of_byte "-_.!~*'()")].
  repeat (apply orb_prop in H as [H|H]);
    apply andb_prop in H as [_ H]; apply N.leb_le in H; lia.
Qed.

Lemma encode_cons (c : ascii) (s : string) :
  Js.encodeURIComponent (String c s)
  = if Js.uri_unreserved c then String c (Js.encodeURIComponent s)
    else Js.percent_byte c (Js.encodeURIComponent s).
Proof. reflexivity. Qed.

(** Every character of an encoded text is unreserved or a [%]. *)
Lemma encode_chars (s : string) :
  Forall (fun c => c = "%"%char \/ Js.uri_unreserved c = true)
    (list_ascii_of_string (Js.encodeURIComponent s)).
Proof.
  induction s as [|c s IH]; [constructor|].
  rewrite encode_cons. destruct (Js.uri_unreserved c) eqn:Hc.
  - constructor; [now right | exact IH].
  - unfold Js.percent_byte. simpl.
    constructor; [now left|].
    constructor; [right; apply hex_digit_unreserved, byte_high_lt|].
    constructor; [right; apply hex_digit_unreserved, byte_low_lt | exact IH].
Qed.

(** A character that is none of the characters of a text does not occur
    in it. *)
Lemma includes_char (P : ascii -> Prop) (d : ascii) (s : string) :
  Forall P (list_ascii_of_string s) -> ~ P d -> Js.includes s (String d "") = false.
Proof.
  intros Hs Hd. induction s as [|c s IH]; [reflexivity|].
  simpl in Hs. apply Forall_cons in Hs as [Hc Hs].
  rewrite includes_cons, prefix_cons, prefix_nil, (IH Hs).
  destruct (Ascii.eqb_spec d c) as [->|_]; [contradiction | reflexivity].
Qed.

Lemma encode_excludes (d : ascii) (s : string) :
  d <> "%"%char -> Js.uri_unreserved d = false ->
  Js.includes (Js.encodeURIComponent s) (String d "") = false.
Proof.
  intros Hp Hd. apply (includes_char _ d _ (encode_chars s)).
  intros [E|E]; congruence.
Qed.

(** X16. The query travels as one parameter: whatever the query, its
    encoded form in the search URL holds only unreserved characters and
    [%], so none of [&], [#], [=], [+] or a space; the query cannot end
    the parameter [q] or add another one. *)
Theorem searchUrl_single_parameter (query : string) :
  let encoded := Js.encodeURIComponent query in
  Fetcher.searchUrl query = "https://html.duckduckgo.com/html/?q=" +:+ encoded
  /\ Forall (fun c => c = "%"%char \/ Js.uri_unreserved c = true)
       (list_ascii_of_string encoded)
  /\ Js.includes encoded "&" = false
  /\ Js.includes encoded "#" = false
  /\ Js.includes encoded "=" = false
  /\ Js.includes encoded "+" = false
  /\ Js.includes encoded " " = false.
Proof.
  cbv zeta. split; [reflexivity|]. split; [apply encode_chars|].
  repeat split; apply encode_excludes; (discriminate || reflexivity).
Qed.

Lemma append_inj_l (a x y : string) : a +:+ x = a +:+ y -> x = y.
Proof.
  induction a as [|c a IH]; [auto|]. rewrite !append_cons. intros [= H]. auto.
Qed.

Lemma percent_byte_inj (c d : ascii) (s t : string) :
  Js.percent_byte c s = Js.percent_byte d t -> c = d /\ s = t.
Proof.
  unfold Js.percent_byte. intros [= Hhi Hlo Hst]. split; [|exact Hst].
  apply (f_equal Js.hex_value) in Hhi, Hlo.
  rewrite !hex_value_digit in Hhi, Hlo by (apply byte_high_lt || apply byte_low_lt).
  injection Hhi as Hhi. injection Hlo as Hlo.
  apply byte_of_inj. rewrite <- (byte_split c), <- (byte_split d). congruence.
Qed.

Lemma encode_inj (a b : string) :
  Js.encodeURIComponent a = Js.encodeURIComponent b -> a = b.
Proof.
  revert b. induction a as [|c a IH]; intros [|d b]; rewrite ?encode_cons.
  - reflexivity.
  - destruct (Js.uri_unreserved d); discriminate.
  - destruct (Js.uri_unreserved c); discriminate.
  - destruct (Js.uri_unreserved c) eqn:Hc, (Js.uri_unreserved d) eqn:Hd.
    + intros [= -> H]. f_equal. now apply IH.
    + unfold Js.percent_byte. intros [= -> _]. discriminate.
    + unfold Js.percent_byte. intros [= <- _]. discriminate.
    + intros H. apply percent_byte_inj in H as [-> H]. f_equal. now apply IH.
Qed.

(** X17. Two queries are sent as the same URL only when they are the
    same query: the search URL determines the query. *)
Theorem searchUrl_determines_query (q1 q2 : string) :
  Fetcher.searchUrl q1 = Fetcher.searchUrl q2 <-> q1 = q2.
Proof.
  split; [|now intros ->].
  unfold Fetcher.searchUrl. intros H. apply append_inj_l in H. now apply encode_inj.
Qed.

(** ** Encoding and decoding *)

(** The UTF-8 form of a text: ASCII bytes, and for every other character
    a lead byte followed by its continuation bytes, valid as
    [Js.utf8_valid] has it. [pending] holds the bytes of the character
    being read and the number of bytes it still needs. *)
Fixpoint utf8_go (pending : option (list N * nat)) (s : string) : bool :=
  match s with
  | EmptyString =>
      match pending with
      | None => true
      | Some _ => false
      end
  | String c s' =>
      let b := Js.byte_of c in
      match pending with
      | None =>
          if (b <? 128)%N then utf8_go None s'
          else match Js.utf8_length b with
               | Some n => utf8_go (Some ([b], (n - 1)%nat)) s'
               | None => false
               end
      | Some (bs, 1%nat) => Js.utf8_valid (bs ++ [b]) && utf8_go None s'
      | Some (bs, k) => (128 <=? b)%N && utf8_go (Some (bs ++ [b], (k - 1)%nat)) s'
      end
  end.

(** The strings that are the UTF-8 form of a text. *)
Definition is_utf8 (s : string) : bool := utf8_go None s.

(** What the decoder does on an escaped byte, in its state [pending]. *)
Definition after_byte (pending : option (list N * nat)) (b : N) (rest : string)
    : option string :=
  match pending with
  | None =>
      if (b <? 128)%N
      then option_map (String (ascii_of_N b)) (Js.decode_go Js.Plain None rest)
      else match Js.utf8_length b with
           | Some n => Js.decode_go Js.Plain (Some ([b], (n - 1)%nat)) rest
           | None => None
           end
  | Some (bs, 1%nat) =>
      if Js.utf8_valid (bs ++ [b])
      then option_map (String.append (Js.string_of_bytes (bs ++ [b])))
             (Js.decode_go Js.Plain None rest)
      else None
  | Some (bs, k) => Js.decode_go Js.Plain (Some (bs ++ [b], (k - 1)%nat)) rest
  end.

Lemma decode_percent (pending : option (list N * nat)) (c : ascii) (rest : string) :
  Js.decode_go Js.Plain pending (Js.percent_byte c rest)
  = after_byte pending (Js.byte_of c) rest.
Proof.
  unfold Js.percent_byte. cbn [Js.decode_go]. change (Ascii.eqb "%" "%") with true. cbv iota.
  rewrite (hex_value_digit _ (byte_high_lt c)), (hex_value_digit _ (byte_low_lt c)).
  rewrite byte_split. reflexivity.
Qed.

Lemma decode_plain (c : ascii) (rest : string) :
  Js.uri_unreserved c = true ->
  Js.decode_go Js.Plain None (String c rest)
  = option_map (String c) (Js.decode_go Js.Plain None rest).
Proof.
  intros Hc. cbn [Js.decode_go].
  destruct (Ascii.eqb_spec c "%") as [->|_]; [discriminate | reflexivity].
Qed.

Lemma high_not_unreserved (c : ascii) :
  (128 <= Js.byte_of c)%N -> Js.uri_unreserved c = false.
Proof.
  intros Hc. destruct (Js.uri_unreserved c) eqn:E; [|reflexivity].
  apply unreserved_ascii in E. lia.
Qed.

(** The last byte of a valid character is a continuation byte. *)
Lemma utf8_valid_last (bs : list N) (b : N) :
  Js.utf8_valid (bs ++ [b]) = true -> (128 <= b)%N.
Proof.
  destruct bs as [|b0 [|b1 [|b2 [|b3 bs]]]]; simpl; try discriminate.
  - intros H. apply andb_prop in H as [_ H]. apply andb_prop in H as [H _].
    now apply N.leb_le.
  - intros H. do 2 (apply andb_prop in H as [H _]).
    apply andb_prop in H as [_ H]. apply andb_prop in H as [H _]. now apply N.leb_le.
  - intros H. do 2 (apply andb_prop in H as [H _]).
    apply andb_prop in H as [_ H]. apply andb_prop in H as [H _]. now apply N.leb_le.
  - destruct bs; discriminate.
Qed.

Lemma string_of_bytes_snoc (bs : list N) (c : ascii) (s : string) :
  Js.string_of_bytes (bs ++ [Js.byte_of c]) +:+ s = Js.string_of_bytes bs +:+ String c s.
Proof.
  unfold Js.string_of_bytes. induction bs as [|b bs IH]; simpl.
  - unfold Js.byte_of. now rewrite ascii_N_embedding.
  - rewrite !append_cons. now rewrite IH.
Qed.

(** The text that the decoder owes for the bytes it holds. *)
Definition held (pending : option (list N * nat)) : string :=
  match pending with
  | None => ""
  | Some (bs, _) => Js.string_of_bytes bs
  end.

Lemma decode_encode_go (s : string) :
  forall pending,
    utf8_go pending s = true ->
    Js.decode_go Js.Plain pending (Js.encodeURIComponent s) = Some (held pending +:+ s).
Proof.
  induction s as [|c s IH]; intros pending Hs.
  - destruct pending; [discriminate | reflexivity].
  - rewrite encode_cons. cbn [utf8_go] in Hs.
    destruct pending as [[bs k]|].
    + (* inside a character *)
      assert (Hhigh : (128 <= Js.byte_of c)%N).
      { destruct k as [|[|k]].
        - apply andb_prop in Hs as [H _]. now apply N.leb_le.
        - apply andb_prop in Hs as [H _]. now apply utf8_valid_last in H.
        - apply andb_prop in Hs as [H _]. now apply N.leb_le. }
      rewrite (high_not_unreserved c Hhigh), decode_percent. unfold after_byte.
      destruct k as [|[|k]].
      * apply andb_prop in Hs as [_ Hs]. rewrite (IH _ Hs). simpl held.
        now rewrite string_of_bytes_snoc.
      * apply andb_prop in Hs as [Hv Hs]. rewrite Hv, (IH _ Hs). simpl.
        now rewrite string_of_bytes_snoc.
      * apply andb_prop in Hs as [_ Hs]. rewrite (IH _ Hs). simpl held.
        now rewrite string_of_bytes_snoc.
    + destruct (N.ltb_spec (Js.byte_of c) 128) as [Hlow|Hhigh].
      * destruct (Js.uri_unreserved c) eqn:Hc.
        -- rewrite (decode_plain c _ Hc), (IH _ Hs). reflexivity.
        -- rewrite decode_percent. unfold after_byte.
           destruct (N.ltb_spec (Js.byte_of c) 128) as [_|]; [|lia].
           rewrite (IH _ Hs). simpl. unfold Js.byte_of. now rewrite ascii_N_embedding.
      * rewrite (high_not_unreserved c Hhigh), decode_percent. unfold after_byte.
        destruct (N.ltb_spec (Js.byte_of c) 128) as [|_]; [lia|].
        destruct (Js.utf8_length (Js.byte_of c)) as [n|]; [|discriminate].
        rewrite (IH _ Hs). simpl held.
        change [Js.byte_of c] with ([] ++ [Js.byte_of c]).
        now rewrite string_of_bytes_snoc.
Qed.

(** Decoding undoes encoding. *)
Lemma decode_encode (s : string) :
  is_utf8 s = true -> Js.decodeURIComponent (Js.encodeURIComponent s) = Some s.
Proof. intros Hs. exact (decode_encode_go s None Hs). Qed.

Example is_utf8_examples :
  is_utf8 "https://example.com/a b?x=1&y=2" = true
  /\ is_utf8 ("caf" +:+ Js.string_of_bytes [195%N; 169%N]) = true
  /\ is_utf8 (Js.string_of_bytes [195%N]) = false
  /\ is_utf8 (Js.string_of_bytes [192%N; 128%N]) = false.
Proof. repeat split; reflexivity. Qed.

(** ** Redirect links and encoded targets *)

(** A text without [=] holds no [uddg=]. *)
Lemma no_equals_no_uddg (s : string) :
  Js.includes s "=" = false -> Js.includes s "uddg=" = false.
Proof.
  induction s as [|c s IH]; [reflexivity|].
  rewrite !includes_cons. intros H. apply orb_false_iff in H as [Hc Hs].
  rewrite (IH Hs), orb_false_r.
  destruct (String.prefix "uddg=" (String c s)) eqn:Hp; [|reflexivity].
  apply prefix_iff in Hp as [x Hx]. injection Hx as -> ->.
  rewrite !append_cons, !includes_cons, !prefix_cons, !prefix_nil in Hs.
  simpl in Hs. discriminate.
Qed.

Lemma encode_no_uddg (s : string) :
  Js.includes (Js.encodeURIComponent s) "uddg=" = false.
Proof. apply no_equals_no_uddg, encode_excludes; (discriminate || reflexivity). Qed.

Lemma encode_no_amp (s : string) :
  Js.includes (Js.encodeURIComponent s) "&" = false.
Proof. apply encode_excludes; (discriminate || reflexivity). Qed.

Lemma encode_not_empty (s : string) : s <> "" -> Js.encodeURIComponent s <> "".
Proof.
  destruct s as [|c s]; [congruence|]. intros _. rewrite encode_cons.
  destruct (Js.uri_unreserved c); discriminate.
Qed.

(** X18. The parser undoes the wrapping of a redirect link: for every
    target, the link [/l/?uddg=] followed by the encoded target resolves
    to the target, and so does a link [/l/?kh=...&uddg=] with the encoded
    target, whatever parameters follow it. *)
Theorem resolve_redirect_inverts_encoding (target : string) :
  is_utf8 target = true ->
  Parser.resolve_redirect ("/l/?uddg=" +:+ Js.encodeURIComponent target) = target
  /\ (forall k rest,
        target <> "" ->
        Js.includes ("/l/?kh=" +:+ k) "uddg=" = false ->
        rest = "" \/ String.prefix "&" rest = true ->
        Parser.resolve_redirect
          ("/l/?kh=" +:+ k +:+ "&uddg=" +:+ Js.encodeURIComponent target +:+ rest)
        = target).
Proof.
  intros Hutf. split.
  - rewrite (resolve_redirect_uddg _ (encode_no_amp target) (encode_no_uddg target)).
    now rewrite (decode_encode target Hutf).
  - intros k rest Hne Hk Hrest.
    rewrite (resolve_redirect_kh k _ rest Hk (encode_not_empty target Hne)
               (encode_no_amp target) Hrest).
    now rewrite (decode_encode target Hutf).
Qed.

(** The theorem on a target with a query string and a space. *)
Lemma resolve_redirect_inverts_encoding_witness :
  Parser.resolve_redirect "/l/?uddg=https%3A%2F%2Fexample.com%2Fa%20b%3Fx%3D1%26y%3D2"
  = "https://example.com/a b?x=1&y=2".
Proof.
  exact (proj1 (resolve_redirect_inverts_encoding "https://example.com/a b?x=1&y=2" eq_refl)).
Defined.

Lemma option_map_append (a x : string) (o : option string) :
  option_map (String.append a) (option_map (String.append x) o)
  = option_map (String.append (a +:+ x)) o.
Proof. destruct o; simpl; [now rewrite append_assoc | reflexivity]. Qed.

Lemma option_map_cons (c : ascii) (x : string) (o : option string) :
  option_map (String c) (option_map (String.append x) o)
  = option_map (String.append (String c x)) o.
Proof. now destruct o. Qed.

(** Decoding goes piece by piece: after a piece that decodes, the
    decoder starts afresh. *)
Lemma decode_go_app (a b : string) :
  forall esc pending decoded,
    Js.decode_go esc pending a = Some decoded ->
    Js.decode_go esc pending (a +:+ b)
    = option_map (String.append decoded) (Js.decode_go Js.Plain None b).
Proof.
  induction a as [|c a IH]; intros esc pending decoded Ha.
  - destruct esc, pending; try discriminate. injection Ha as <-.
    rewrite append_nil. now destruct (Js.decode_go Js.Plain None b).
  - rewrite append_cons. cbn [Js.decode_go] in Ha |- *.
    destruct esc as [| |hi].
    + destruct (Ascii.eqb c "%"); [now apply IH|].
      destruct pending; [discriminate|].
      destruct (Js.decode_go Js.Plain None a) as [a'|] eqn:Hd; [|discriminate].
      injection Ha as <-. rewrite (IH _ _ _ Hd). apply option_map_cons.
    + destruct (Js.hex_value c); [now apply IH | discriminate].
    + destruct (Js.hex_value c) as [lo|]; [|discriminate].
      destruct pending as [[bs [|[|k]]]|].
      * now apply IH.
      * destruct (Js.utf8_valid _); [|discriminate].
        destruct (Js.decode_go Js.Plain None a) as [a'|] eqn:Hd; [|discriminate].
        injection Ha as <-. rewrite (IH _ _ _ Hd). apply option_map_append.
      * now apply IH.
      * destruct (_ <? 128)%N.
        -- destruct (Js.decode_go Js.Plain None a) as [a'|] eqn:Hd; [|discriminate].
           injection Ha as <-. rewrite (IH _ _ _ Hd). apply option_map_cons.
        -- destruct (Js.utf8_length _); [now apply IH | discriminate].
Qed.

Lemma includes_across_amp (p a s : string) :
  Js.includes p "&" = false ->
  Js.includes a p = false -> Js.includes s p = false ->
  Js.includes (a +:+ "&" +:+ s) p = false.
Proof.
  intros Hp Ha Hs. induction a as [|c a IH].
  - rewrite append_nil. change ("&" +:+ s) with (String "&" s).
    rewrite includes_cons, Hs, orb_false_r.
    destruct (String.prefix p (String "&" s)) eqn:E; [|reflexivity].
    apply (prefix_before_amp p "" s Hp) in E.
    destruct p; [discriminate Ha | discriminate E].
  - rewrite includes_cons in Ha. apply orb_false_iff in Ha as [Hc Ha].
    rewrite append_cons, includes_cons, (IH Ha), orb_false_r.
    destruct (String.prefix p (String c (a +:+ "&" +:+ s))) eqn:E; [|reflexivity].
    rewrite <- append_cons in E. apply (prefix_before_amp p _ s Hp) in E. congruence.
Qed.

(** X19. In a link [/l/?uddg=...] the text after [uddg=] is decoded
    whole, so the parameters that follow the encoded target (DuckDuckGo
    adds some) stay in the result: the link resolves to the target
    followed by [&] and the decoded rest. *)
Theorem resolve_redirect_keeps_following_parameters (target rest decoded : string) :
  is_utf8 target = true ->
  Js.decodeURIComponent rest = Some decoded ->
  Js.includes rest "uddg=" = false ->
  Parser.resolve_redirect ("/l/?uddg=" +:+ Js.encodeURIComponent target +:+ "&" +:+ rest)
  = target +:+ "&" +:+ decoded.
Proof.
  intros Hutf Hrest Hno. unfold Parser.resolve_redirect, Js.startsWith.
  rewrite prefix_app, split_redirect.
  - unfold Js.decodeURIComponent in *.
    rewrite (decode_go_app _ _ _ _ _ (decode_encode_go target None Hutf)).
    change ("&" +:+ rest) with (String "&" rest). cbn [Js.decode_go].
    change (Ascii.eqb "&" "%") with false. cbv iota. rewrite Hrest. reflexivity.
  - apply includes_across_amp; [reflexivity | apply encode_no_uddg | exact Hno].
Qed.

(** The theorem on a link as DuckDuckGo writes it, with its [rut]
    parameter. *)
Lemma resolve_redirect_keeps_following_parameters_witness :
  Parser.resolve_redirect "/l/?uddg=https%3A%2F%2Fexample.com%2Fpage&rut=0f3a"
  = "https://example.com/page&rut=0f3a".
Proof.
  exact (resolve_redirect_keeps_following_parameters "https://example.com/page" "rut=0f3a"
           "rut=0f3a" eq_refl eq_refl eq_refl).
Defined.

(** ** More on the parser *)

Lemma match_http_cons (c : ascii) (s : string) :
  Parser.match_http (String c s)
  = match (if String.prefix "https://" (String c s)
           then Some (Js.substring_from 8 (String c s))
           else if String.prefix "http://" (String c s)
                then Some (Js.substring_from 7 (String c s))
                else None) with
    | Some rest =>
        let group := Parser.take_while (Parser.not_char "/") rest in
        if negb (String.eqb group "") then Some group else Parser.match_http s
    | None => Parser.match_http s
    end.
Proof. reflexivity. Qed.

(** The regular expression finds nothing in a text without a scheme. *)
Lemma match_http_none (s : string) :
  Js.includes s "http://" = false -> Js.includes s "https://" = false ->
  Parser.match_http s = None.
Proof.
  induction s as [|c s IH]; [reflexivity|].
  rewrite !includes_cons. intros H1 H2.
  apply orb_false_iff in H1 as [P1 H1]. apply orb_false_iff in H2 as [P2 H2].
  rewrite match_http_cons, P1, P2. now apply IH.
Qed.

Lemma take_while_until (x : ascii) (v rest : string) :
  Js.includes v (String x "") = false ->
  rest = "" \/ String.prefix (String x "") rest = true ->
  Parser.take_while (Parser.not_char x) (v +:+ rest) = v.
Proof.
  intros Hv Hrest. induction v as [|c v IH].
  - rewrite append_nil. destruct Hrest as [->|Hr]; [reflexivity|].
    apply prefix_iff in Hr as [y ->]. rewrite append_cons. simpl.
    unfold Parser.not_char. now rewrite Ascii.eqb_refl.
  - rewrite includes_cons, prefix_cons, prefix_nil in Hv.
    apply orb_false_iff in Hv as [Hc Hv].
    rewrite append_cons. simpl. unfold Parser.not_char at 1.
    rewrite Ascii.eqb_sym. destruct (Ascii.eqb x c); [discriminate|]. simpl.
    now rewrite (IH Hv).
Qed.

(** X20. When the URL parser refuses a text, [extractDomain] falls back
    on the regular expression: a text that holds neither [http://] nor
    [https://], as a relative link does, has the empty domain; a text
    that starts with one of them has the characters up to the next slash,
    without a leading [www.]. *)
Theorem extractDomain_fallback {U : Url.Parser} (url : string) :
  Url.new url = None ->
  (Js.includes url "http://" = false -> Js.includes url "https://" = false ->
   Parser.extractDomain url = "")
  /\ (forall scheme host rest,
        url = scheme +:+ host +:+ rest ->
        scheme = "http://" \/ scheme = "https://" ->
        host <> "" -> Js.includes host "/" = false ->
        rest = "" \/ String.prefix "/" rest = true ->
        Parser.extractDomain url = Parser.strip_www host).
Proof.
  intros Hnew. unfold Parser.extractDomain. rewrite Hnew. split.
  - intros H1 H2. destruct (String.eqb url ""); [reflexivity|].
    now rewrite match_http_none.
  - intros scheme host rest -> Hscheme Hhost Hslash Hrest.
    assert (Hgroup : Parser.take_while (Parser.not_char "/") (host +:+ rest) = host)
      by now apply take_while_until.
    assert (Hne : String.eqb host "" = false) by now apply String.eqb_neq.
    destruct Hscheme as [->| ->].
    + change ("http://" +:+ host +:+ rest)
        with (String "h" ("ttp://" +:+ host +:+ rest)).
      rewrite match_http_cons.
      change (String "h" ("ttp://" +:+ host +:+ rest)) with ("http://" +:+ (host +:+ rest)).
      replace (String.prefix "https://" ("http://" +:+ (host +:+ rest))) with false
        by reflexivity.
      rewrite prefix_app, (substring_from_app "http://"). cbv zeta.
      rewrite Hgroup, Hne. reflexivity.
    + change ("https://" +:+ host +:+ rest)
        with (String "h" ("ttps://" +:+ host +:+ rest)).
      rewrite match_http_cons.
      change (String "h" ("ttps://" +:+ host +:+ rest)) with ("https://" +:+ (host +:+ rest)).
      rewrite prefix_app, (substring_from_app "https://"). cbv zeta.
      rewrite Hgroup, Hne. reflexivity.
Qed.

(** The theorem on a redirect link, which is relative, and on a URL that
    the parser refuses for the space in its host. *)
Lemma extractDomain_fallback_witness :
  Parser.extractDomain (U := Basic.parser) "/l/?uddg=https%3A%2F%2Fexample.com" = ""
  /\ Parser.extractDomain (U := Basic.parser) "https://www.exa mple.com/page" = "exa mple.com".
Proof.
  split.
  - apply (proj1 (extractDomain_fallback (U := Basic.parser)
                    "/l/?uddg=https%3A%2F%2Fexample.com" eq_refl)); reflexivity.
  - apply (proj2 (extractDomain_fallback (U := Basic.parser)
                    "https://www.exa mple.com/page" eq_refl)
             "https://" "www.exa mple.com" "/page");
      try reflexivity; [now right | discriminate | now right].
Defined.

Section EachPrefix.

Context {E : Type} (body : nat -> E -> option Parser.SearchResult).

Lemma each_extends (M : nat) (elements : list E) (results : list Parser.SearchResult) :
  exists more, Parser.each body M elements results = results ++ more.
Proof using Type.
  revert results. induction elements as [|e rest IH]; intros results; simpl.
  - exists []. now rewrite app_nil_r.
  - destruct (M <=? length results)%nat; [exists []; now rewrite app_nil_r|].
    destruct (body (length results) e) as [r|]; [|apply IH].
    destruct (IH (results ++ [r])) as [more Hmore].
    exists (r :: more). rewrite Hmore, <- app_assoc. reflexivity.
Qed.

(** The loop with a smaller limit stops earlier and has pushed the same
    results until then. *)
Lemma each_take (m M : nat) (elements : list E) (results : list Parser.SearchResult) :
  (m <= M)%nat -> (length results <= m)%nat ->
  Parser.each body m elements results = take m (Parser.each body M elements results).
Proof using Type.
  intros HmM. revert results. induction elements as [|e rest IH]; intros results Hlen; simpl.
  - now rewrite take_ge.
  - destruct (Nat.leb_spec m (length results)) as [Hfull|Hroom].
    + assert (Hm : length results = m) by lia.
      destruct (M <=? length results)%nat; [now rewrite take_ge|].
      destruct (body (length results) e) as [r|].
      * destruct (each_extends M rest (results ++ [r])) as [more ->].
        rewrite <- app_assoc, <- Hm. now rewrite take_app_length.
      * destruct (each_extends M rest results) as [more ->].
        rewrite <- Hm. now rewrite take_app_length.
    + destruct (Nat.leb_spec M (length results)) as [|_]; [lia|].
      destruct (body (length results) e) as [r|]; [|now apply IH].
      apply IH. rewrite length_app. simpl. lia.
Qed.

End EachPrefix.

(** X21. Asking for fewer results gives a prefix of asking for more: at
    one reading of the clock, [parseSearchHtml] with the limit [m] returns
    the first [m] results of [parseSearchHtml] with a limit [M >= m],
    the same results with the same ranks. *)
Theorem parseSearchHtml_prefix {U : Url.Parser} {L : Dom.Loader} {C : Dom.Clock}
    (now : Z) (html : Js.value) (m M : nat) :
  (m <= M)%nat ->
  Parser.parseSearchHtml now html (Parser.mkOptions (Some m))
  = take m (Parser.parseSearchHtml now html (Parser.mkOptions (Some M))).
Proof.
  intros HmM. unfold Parser.parseSearchHtml. simpl default.
  destruct (negb (Js.truthy html) || negb (Js.is_string html)); [now rewrite take_nil|].
  destruct html as [| | | |text|]; try now rewrite take_nil.
  set (els := Dom.result_elements (Dom.load text)).
  set (gens := Dom.generic_elements (Dom.load text)).
  rewrite (each_take (Parser.result_of now) m M els [] HmM) by (simpl; lia).
  destruct (Parser.each (Parser.result_of now) M els []) as [|r first] eqn:Hfirst.
  - rewrite take_nil. simpl.
    apply (each_take (Parser.generic_result_of now) m M gens [] HmM). simpl. lia.
  - destruct m as [|m].
    + simpl. destruct gens; reflexivity.
    + reflexivity.
Qed.

(** The theorem on the page of three blocks, with the limits 2 and 3. *)
Lemma parseSearchHtml_prefix_witness :
  let parse := Parser.parseSearchHtml (U := Basic.parser) (L := Basic.loader)
                 (C := Basic.clock) 1700000000000 (Js.Str Basic.page_three_results) in
  parse (Parser.mkOptions (Some 2%nat)) = take 2 (parse (Parser.mkOptions (Some 3%nat))).
Proof.
  apply (parseSearchHtml_prefix (U := Basic.parser) (L := Basic.loader) (C := Basic.clock)
           1700000000000 (Js.Str Basic.page_three_results) 2 3).
  lia.
Defined.

(** X22. The limit is a limit: [parseSearchHtml] never returns more
    than [maxResults] results, ten when the option is absent, and none
    when the limit is zero; this holds of both strategies and of every
    input. *)
Theorem parseSearchHtml_at_most_maxResults {U : Url.Parser} {L : Dom.Loader} {C : Dom.Clock}
    (now : Z) (html : Js.value) (options : Parser.options) :
  (length (Parser.parseSearchHtml now html options)
   <= default 10 (Parser.maxResults options))%nat.
Proof.
  destruct options as [limit].
  assert (Hsame : Parser.parseSearchHtml now html (Parser.mkOptions limit)
                  = Parser.parseSearchHtml now html (Parser.mkOptions (Some (default 10%nat limit))))
    by now destruct limit.
  rewrite Hsame. simpl Parser.maxResults. set (M := default 10%nat limit).
  destruct html as [| |b|n|text|];
    try (rewrite parseSearchHtml_no_text by (intros ? [=]); simpl; lia).
  destruct (String.eqb_spec text "") as [->|Htext].
  - rewrite parseSearchHtml_no_text; [simpl; lia|]. now intros ? [= <-].
  - rewrite (parseSearchHtml_length now text M Htext).
    destruct (Nat.min M _ =? 0)%nat; lia.
Qed.

(** ** More on the cache *)

Section CacheInvariants.

Context {V : Type}.

Implicit Types (c : Lru.t V) (k : string) (l : list (Lru.entry V)).

Lemma lookup_some c k e :
  Lru.lookup k c = Some e -> Lru.key e = k /\ In e (Lru.items c).
Proof.
  unfold Lru.lookup. intros H. apply find_some in H as [Hin Hk].
  split; [now apply String.eqb_eq | exact Hin].
Qed.

Lemma lookup_none c k : Lru.lookup k c = None -> ~ In k (Lru.keys c).
Proof.
  unfold Lru.lookup, Lru.keys. intros H Hin. apply in_map_iff in Hin as (e & He & Hin).
  apply (find_none _ _ H) in Hin. unfold Lru.has_key in Hin.
  rewrite He, String.eqb_refl in Hin. discriminate.
Qed.

Lemma keys_without k l :
  map Lru.key (Lru.without k l)
  = List.filter (fun x => negb (String.eqb x k)) (map Lru.key l).
Proof.
  unfold Lru.without, Lru.has_key. induction l as [|e l IH]; simpl; [reflexivity|].
  destruct (String.eqb (Lru.key e) k); simpl; congruence.
Qed.

Lemma without_length k l : (length (Lru.without k l) <= length l)%nat.
Proof. unfold Lru.without. apply filter_length_le. Qed.

Lemma without_shorter k l e :
  In e l -> Lru.key e = k -> (length (Lru.without k l) < length l)%nat.
Proof.
  unfold Lru.without, Lru.has_key. induction l as [|x l IH]; simpl; [intros []|].
  intros [->|Hin] Hk.
  - rewrite Hk, String.eqb_refl. simpl.
    pose proof (filter_length_le (fun e0 => negb (String.eqb (Lru.key e0) k)) l). lia.
  - specialize (IH Hin Hk). destruct (negb _); simpl; lia.
Qed.

Lemma nodup_without_snoc k l :
  NoDup (map Lru.key l) -> NoDup (map Lru.key (Lru.without k l) ++ [k]).
Proof.
  intros Hnd. rewrite keys_without. apply NoDup_app. split; [|split].
  - apply NoDup_ListNoDup, List.NoDup_filter, NoDup_ListNoDup, Hnd.
  - intros x Hx Hk. apply list_elem_of_In in Hx. apply filter_In in Hx as [_ Hx].
    apply list_elem_of_In in Hk. destruct Hk as [<-|[]].
    rewrite String.eqb_refl in Hx. discriminate.
  - apply NoDup_singleton.
Qed.

Lemma nodup_tl {A : Type} (l : list A) : NoDup l -> NoDup (tl l).
Proof. destruct l; [auto | now intros H; apply NoDup_cons in H as [_ H]]. Qed.

(** The capacity is respected and no key is held twice. *)
Definition within_capacity c : Prop :=
  Lru.size c <= Lru.max c /\ NoDup (Lru.keys c).

Lemma set_within_capacity c k (v : V) now :
  0 < Lru.max c -> within_capacity c -> within_capacity (Lru.set k v now c).
Proof.
  unfold within_capacity, Lru.keys. intros Hmax [Hsize Hnd]. unfold Lru.set, Lru.size in *.
  destruct (Lru.lookup k c) as [e|] eqn:Hl; simpl Lru.items; simpl Lru.max.
  - apply lookup_some in Hl as [Hk Hin].
    pose proof (without_shorter k _ e Hin Hk).
    split; [rewrite length_app; simpl; lia|].
    rewrite map_app. simpl. now apply nodup_without_snoc.
  - apply lookup_none in Hl. unfold Lru.keys in Hl.
    destruct (Z.eqb_spec (Z.of_nat (length (Lru.items c))) 0) as [E0|E0]; simpl.
    + split; [rewrite length_app; simpl; lia|].
      rewrite map_app. simpl. apply NoDup_app. split; [exact Hnd|]. split.
      * intros x Hx Hk. apply list_elem_of_In in Hx, Hk. destruct Hk as [<-|[]]. auto.
      * apply NoDup_singleton.
    + destruct (Z.eqb_spec (Z.of_nat (length (Lru.items c))) (Lru.max c)) as [E|E].
      * destruct (Lru.items c) as [|x l]; [simpl in E0; lia|]. simpl in *.
        split; [rewrite length_app; simpl; lia|].
        rewrite map_app. simpl. apply NoDup_cons in Hnd as [_ Hnd].
        apply NoDup_app. split; [exact Hnd|]. split.
        -- intros y Hy Hk. apply list_elem_of_In in Hy, Hk. destruct Hk as [<-|[]]. auto.
        -- apply NoDup_singleton.
      * split; [rewrite length_app; simpl; lia|].
        rewrite map_app. simpl. apply NoDup_app. split; [exact Hnd|]. split.
        -- intros x Hx Hk. apply list_elem_of_In in Hx, Hk. destruct Hk as [<-|[]]. auto.
        -- apply NoDup_singleton.
Qed.

Lemma get_within_capacity c k now :
  within_capacity c -> within_capacity (snd (Lru.get k now c)).
Proof.
  unfold within_capacity, Lru.size, Lru.keys. intros [Hsize Hnd]. unfold Lru.get.
  destruct (Lru.lookup k c) as [e|] eqn:Hl; [|now split].
  apply lookup_some in Hl as [Hk Hin].
  pose proof (without_shorter k _ e Hin Hk).
  destruct (Lru.isStale now e); simpl.
  - split; [lia|]. rewrite keys_without.
    apply NoDup_ListNoDup, List.NoDup_filter, NoDup_ListNoDup, Hnd.
  - split; [rewrite length_app; simpl; lia|].
    rewrite map_app. simpl.
    replace (Lru.key (if Lru.updateAgeOnGet c then Lru.restart now e else e)) with k
      by (now destruct (Lru.updateAgeOnGet c)).
    now apply nodup_without_snoc.
Qed.

Lemma has_within_capacity c k now :
  within_capacity c -> within_capacity (snd (Lru.has k now c)).
Proof.
  unfold within_capacity, Lru.size. intros [Hsize Hnd].
  destruct (has_keeps_keys c k now) as [Hk Hm]. rewrite Hk, Hm. split; [|exact Hnd].
  replace (length (Lru.items (snd (Lru.has k now c))))
    with (length (Lru.keys (snd (Lru.has k now c)))) by (unfold Lru.keys; apply length_map).
  rewrite Hk. unfold Lru.keys. now rewrite length_map.
Qed.

Lemma step_max c (call : Cache.call V) : Lru.max (Cache.step c call) = Lru.max c.
Proof.
  destruct call as [k v now|k now|k now]; simpl.
  - unfold Cache.set, Lru.set. now destruct (Lru.lookup k c).
  - unfold Cache.get, Lru.get. destruct (Lru.lookup k c) as [e|]; [|reflexivity].
    now destruct (Lru.isStale now e).
  - apply (has_keeps_keys c k now).
Qed.

Lemma run_within_capacity (calls : list (Cache.call V)) c :
  0 < Lru.max c -> within_capacity c ->
  Lru.max (Cache.run calls c) = Lru.max c /\ within_capacity (Cache.run calls c).
Proof.
  revert c. induction calls as [|call calls IH]; intros c Hmax Hc; [now split|].
  simpl. destruct (IH (Cache.step c call)) as [Hm Hw].
  - now rewrite step_max.
  - destruct call as [k v now|k now|k now]; simpl.
    + now apply set_within_capacity.
    + now apply get_within_capacity.
    + now apply has_within_capacity.
  - rewrite Hm, step_max. now split.
Qed.

End CacheInvariants.

Lemma createCache_fresh {V : Type} (options : Cache.options) (cache : Lru.t V) :
  Cache.createCache options = Some cache ->
  cache = Lru.mk (default 100 (Cache.maxSize options)) (default 300000 (Cache.ttl options))
            false false [].
Proof.
  unfold Cache.createCache, Lru.create. destruct (_ || _); [discriminate|].
  now intros [= <-].
Qed.

(** X23. The capacity holds at every moment: in a cache created with
    [maxSize >= 1], after any calls of [set], [get] and [has], the size
    that [getStats] reports is at most [maxSize], and no key is held
    twice. *)
Theorem cache_never_exceeds_maxSize {V : Type} (options : Cache.options)
    (cache : Lru.t V) (calls : list (Cache.call V)) :
  Cache.createCache options = Some cache ->
  0 < default 100 (Cache.maxSize options) ->
  let stats := Cache.getStats (Cache.run calls cache) in
  Cache.stat_maxSize stats = default 100 (Cache.maxSize options)
  /\ 0 <= Cache.stat_size stats <= Cache.stat_maxSize stats
  /\ NoDup (Lru.keys (Cache.run calls cache)).
Proof.
  intros Hcreate Hmax stats. apply createCache_fresh in Hcreate. subst cache.
  set (c0 := Lru.mk _ _ false false []).
  destruct (run_within_capacity calls c0) as (Hm & Hsize & Hnd).
  - exact Hmax.
  - split; [unfold c0, Lru.size; simpl; lia | constructor].
  - subst stats. unfold Cache.getStats. cbn [Cache.stat_maxSize Cache.stat_size].
    fold c0. rewrite Hm. split; [reflexivity|]. split; [|exact Hnd].
    rewrite Hm in Hsize. unfold Lru.size in *. lia.
Qed.

(** The theorem on a cache for two entries and five calls. *)
Lemma cache_never_exceeds_maxSize_witness :
  let calls := [ Cache.DoSet "a" 1%nat 1000; Cache.DoSet "b" 2%nat 1001;
                 Cache.DoGet "a" 1002; Cache.DoSet "c" 3%nat 1003;
                 Cache.DoSet "a" 4%nat 1004 ] in
  let stats := Cache.getStats (Cache.run calls cache_of_two) in
  Cache.stat_maxSize stats = 2
  /\ 0 <= Cache.stat_size stats <= Cache.stat_maxSize stats
  /\ NoDup (Lru.keys (Cache.run calls cache_of_two)).
Proof.
  apply (cache_never_exceeds_maxSize (Cache.mkOptions (Some 2) None) cache_of_two);
    reflexivity.
Defined.

(** X24. What [set] stores can be read until its time to live has run
    out, and not after: [elapsed] milliseconds after [set(k, v)], [get(k)]
    returns [v] and [has(k)] is true when the cache has no time to live
    or [elapsed] is at most the time to live; otherwise [get(k)] returns
    nothing and [has(k)] is false. (The clock of the [set] does not read
    0, which the package keeps for an entry without a start.) *)
Theorem cache_entry_lifetime {V : Type} (c : Lru.t V) (k : string) (v : V)
    (now elapsed : Z) :
  now <> 0 ->
  let c' := Cache.set k v now c in
  let live := (Lru.ttl c =? 0) || (elapsed <=? Lru.ttl c) in
  fst (Cache.get k (now + elapsed) c') = (if live then Some v else None)
  /\ fst (Cache.has k (now + elapsed) c') = live.
Proof.
  intros Hnow c' live. subst c' live.
  unfold Cache.get, Cache.has, Cache.set, Lru.get, Lru.has. rewrite lookup_set.
  unfold Lru.isStale. simpl.
  destruct (Z.eqb_spec (Lru.ttl c) 0) as [E|E]; simpl.
  - split; [reflexivity|]. now destruct (Lru.updateAgeOnHas _).
  - destruct (Z.eqb_spec now 0) as [|_]; [contradiction|]. simpl.
    replace (now + elapsed - now) with elapsed by lia.
    destruct (Z.ltb_spec (Lru.ttl c) elapsed), (Z.leb_spec elapsed (Lru.ttl c)); try lia.
    + now split.
    + split; [reflexivity|]. now destruct (Lru.updateAgeOnHas _).
Qed.

(** The theorem on an entry read at the end of its minute, and a
    millisecond later. *)
Lemma cache_entry_lifetime_witness :
  let c := Lru.mk (V := nat) 2 60000 false false [] in
  (fst (Cache.get "a" (1000 + 60000) (Cache.set "a" 7%nat 1000 c)) = Some 7%nat
   /\ fst (Cache.has "a" (1000 + 60000) (Cache.set "a" 7%nat 1000 c)) = true)
  /\ (fst (Cache.get "a" (1000 + 60001) (Cache.set "a" 7%nat 1000 c)) = None
      /\ fst (Cache.has "a" (1000 + 60001) (Cache.set "a" 7%nat 1000 c)) = false).
Proof.
  split.
  - apply (cache_entry_lifetime (Lru.mk (V := nat) 2 60000 false false []) "a" 7%nat
             1000 60000). discriminate.
  - apply (cache_entry_lifetime (Lru.mk (V := nat) 2 60000 false false []) "a" 7%nat
             1000 60001). discriminate.
Defined.

Section CacheAges.

Context {V : Type}.

Implicit Types (c : Lru.t V) (k : string).

(** The options that [createCache] passes on: a time to live, and no
    restart of an entry's age on reading. *)
Definition configured (T : Z) c : Prop :=
  Lru.ttl c = T /\ Lru.updateAgeOnGet c = false /\ Lru.updateAgeOnHas c = false.

Lemma has_configured T c k now : configured T c -> snd (Lru.has k now c) = c.
Proof.
  intros (_ & _ & Hhas). unfold Lru.has. rewrite Hhas.
  destruct (Lru.lookup k c) as [e|]; [|reflexivity].
  now destruct (Lru.isStale now e).
Qed.

Lemma step_configured T c (call : Cache.call V) :
  configured T c -> configured T (Cache.step c call).
Proof.
  intros Hc. destruct call as [k v now|k now|k now]; simpl.
  - destruct Hc as (H1 & H2 & H3).
    unfold Cache.set, Lru.set. now destruct (Lru.lookup k c).
  - destruct Hc as (H1 & H2 & H3).
    unfold Cache.get, Lru.get. destruct (Lru.lookup k c) as [e|]; [|easy].
    now destruct (Lru.isStale now e).
  - unfold Cache.has. now rewrite (has_configured T c k now Hc).
Qed.

Lemma run_configured T (calls : list (Cache.call V)) c :
  configured T c -> configured T (Cache.run calls c).
Proof.
  revert c. induction calls as [|call calls IH]; intros c Hc; [exact Hc|].
  simpl. apply IH. now apply step_configured.
Qed.

(** Every entry held for [k] was aged at [t0], for the time [T]. *)
Definition aged (k : string) (t0 T : Z) c : Prop :=
  forall e, In e (Lru.items c) -> Lru.key e = k -> Lru.start e = t0 /\ Lru.ttl_of e = T.

Lemma in_without k (l : list (Lru.entry V)) e : In e (Lru.without k l) -> In e l.
Proof. unfold Lru.without. intros H. now apply filter_In in H. Qed.

Lemma in_tl {A : Type} (l : list A) (x : A) : In x (tl l) -> In x l.
Proof. destruct l; [auto | now right]. Qed.

Definition sets_key (k : string) (call : Cache.call V) : bool :=
  match call with
  | Cache.DoSet k' _ _ => String.eqb k' k
  | _ => false
  end.

Lemma step_aged k t0 T c (call : Cache.call V) :
  configured T c -> sets_key k call = false ->
  aged k t0 T c -> aged k t0 T (Cache.step c call).
Proof.
  intros Hc Hcall Ha. destruct call as [k' v now|k' now|k' now]; simpl in *.
  - apply String.eqb_neq in Hcall.
    unfold Cache.set, Lru.set. intros e Hin Hk.
    destruct (Lru.lookup k' c); simpl in Hin; apply in_app_or in Hin as [Hin|[<-|[]]].
    + apply Ha; [now apply in_without in Hin | exact Hk].
    + simpl in Hk. congruence.
    + apply Ha; [|exact Hk]. destruct (_ && _); [now apply in_tl|exact Hin].
    + simpl in Hk. congruence.
  - destruct Hc as (_ & Hget & _).
    unfold Cache.get, Lru.get. rewrite Hget.
    destruct (Lru.lookup k' c) as [e'|] eqn:Hl; [|exact Ha].
    apply lookup_some in Hl as [_ Hin'].
    intros e Hin Hk. destruct (Lru.isStale now e'); simpl in Hin.
    + apply Ha; [now apply in_without in Hin | exact Hk].
    + apply in_app_or in Hin as [Hin|[<-|[]]].
      * apply Ha; [now apply in_without in Hin | exact Hk].
      * now apply Ha.
  - unfold Cache.has. now rewrite (has_configured T c k' now Hc).
Qed.

Lemma run_aged k t0 T (calls : list (Cache.call V)) c :
  configured T c ->
  forallb (fun call => negb (sets_key k call)) calls = true ->
  aged k t0 T c -> aged k t0 T (Cache.run calls c).
Proof.
  revert c. induction calls as [|call calls IH]; intros c Hc Hcalls Ha; [exact Ha|].
  simpl in Hcalls. apply andb_prop in Hcalls as [Hcall Hcalls].
  apply negb_true_iff in Hcall. simpl. apply IH.
  - now apply step_configured.
  - exact Hcalls.
  - now apply step_aged.
Qed.

Lemma set_aged k (v : V) t0 T c :
  configured T c -> T <> 0 -> aged k t0 T (Lru.set k v t0 c).
Proof.
  intros (Httl & _ & _) HT e Hin Hk. unfold Lru.set in Hin.
  destruct (Lru.lookup k c) eqn:Hl; simpl in Hin; apply in_app_or in Hin as [Hin|[<-|[]]].
  - unfold Lru.without in Hin. apply filter_In in Hin as [_ Hne].
    unfold Lru.has_key in Hne. rewrite Hk, String.eqb_refl in Hne. discriminate.
  - simpl. rewrite Httl. destruct (Z.eqb_spec T 0); [contradiction | now split].
  - exfalso. apply lookup_none in Hl. apply Hl. unfold Lru.keys.
    apply in_map_iff. exists e. split; [exact Hk|].
    destruct (_ && _); [now apply in_tl | exact Hin].
  - simpl. rewrite Httl. destruct (Z.eqb_spec T 0); [contradiction | now split].
Qed.

End CacheAges.

(** X25. Reading does not keep an entry alive. In a cache made by
    [createCache] with a time to live, an entry stored at [t0] is gone
    once more than the time to live has passed since [t0], however often
    and whenever [get] and [has] have read it in between, and whatever
    was done to other keys. *)
Theorem cache_reads_keep_age {V : Type} (options : Cache.options) (cache : Lru.t V)
    (before later : list (Cache.call V)) (k : string) (v : V) (t0 t : Z) :
  let ttl := default 300000 (Cache.ttl options) in
  Cache.createCache options = Some cache ->
  ttl <> 0 ->
  t0 <> 0 ->
  forallb (fun call => negb (sets_key k call)) later = true ->
  ttl < t - t0 ->
  let c := Cache.run later (Cache.set k v t0 (Cache.run before cache)) in
  fst (Cache.get k t c) = None /\ fst (Cache.has k t c) = false.
Proof.
  intros ttl Hcreate Httl Ht0 Hlater Hlate c.
  apply createCache_fresh in Hcreate. subst cache. fold ttl in c.
  set (c0 := Lru.mk _ ttl false false []) in *.
  assert (H0 : configured ttl c0) by (repeat split).
  assert (H1 : configured ttl (Cache.run before c0)) by now apply run_configured.
  assert (H2 : configured ttl (Cache.set k v t0 (Cache.run before c0))).
  { apply (step_configured ttl _ (Cache.DoSet k v t0) H1). }
  assert (Ha : aged k t0 ttl c).
  { apply run_aged; [exact H2 | exact Hlater | now apply set_aged]. }
  assert (Hstale : forall e, Lru.lookup k c = Some e -> Lru.isStale t e = true).
  { intros e He. apply lookup_some in He as [Hk Hin].
    destruct (Ha e Hin Hk) as [Hs Hl]. unfold Lru.isStale. rewrite Hs, Hl.
    destruct (Z.eqb_spec ttl 0); [contradiction|].
    destruct (Z.eqb_spec t0 0); [contradiction|].
    destruct (Z.ltb_spec ttl (t - t0)); [reflexivity | lia]. }
  unfold Cache.get, Cache.has, Lru.get, Lru.has.
  destruct (Lru.lookup k c) as [e|]; [|now split].
  rewrite (Hstale e eq_refl). now split.
Qed.

(** The theorem on an entry with a minute to live, read after 59
    seconds and looked for after 61. *)
Lemma cache_reads_keep_age_witness :
  let c := Cache.run [Cache.DoGet "a" 60000; Cache.DoHas "a" 60001; Cache.DoSet "b" 2%nat 60002]
             (Cache.set "a" 1%nat 1000 (Lru.mk 2 60000 false false [])) in
  fst (Cache.get "a" 62000 c) = None /\ fst (Cache.has "a" 62000 c) = false.
Proof.
  apply (cache_reads_keep_age (Cache.mkOptions (Some 2) (Some 60000))
           (Lru.mk 2 60000 false false []) []
           [Cache.DoGet "a" 60000; Cache.DoHas "a" 60001; Cache.DoSet "b" 2%nat 60002]
           "a" 1%nat 1000 62000); try reflexivity; discriminate.
Defined.

(** X26. [has] is a pure question. On a cache made by [createCache],
    after any calls, [has(k)] changes nothing, and it is true exactly
    when [get(k)] at the same moment returns a value. *)
Theorem cache_has_is_pure {V : Type} (options : Cache.options) (cache : Lru.t V)
    (calls : list (Cache.call V)) (k : string) (now : Z) :
  Cache.createCache options = Some cache ->
  let c := Cache.run calls cache in
  snd (Cache.has k now c) = c
  /\ (fst (Cache.has k now c) = true <-> exists v, fst (Cache.get k now c) = Some v).
Proof.
  intros Hcreate c. apply createCache_fresh in Hcreate. subst cache.
  set (c0 := Lru.mk _ _ false false []) in *.
  assert (Hc : configured (default 300000 (Cache.ttl options)) c)
    by (apply run_configured; repeat split).
  split; [exact (has_configured _ c k now Hc)|].
  destruct Hc as (_ & _ & Hhas).
  unfold Cache.has, Cache.get, Lru.has, Lru.get. rewrite Hhas.
  destruct (Lru.lookup k c) as [e|].
  - destruct (Lru.isStale now e); simpl.
    + split; [discriminate | intros [v Hv]; discriminate].
    + split; [intros _; now exists (Lru.val e) | reflexivity].
  - simpl. split; [discriminate | intros [v Hv]; discriminate].
Qed.

(** The theorem on a cache holding one entry. *)
Lemma cache_has_is_pure_witness :
  let c := Cache.run [Cache.DoSet "a" 1%nat 1000] cache_of_two in
  snd (Cache.has "a" 2000 c) = c
  /\ (fst (Cache.has "a" 2000 c) = true <-> exists v, fst (Cache.get "a" 2000 c) = Some v).
Proof.
  apply (cache_has_is_pure (Cache.mkOptions (Some 2) None) cache_of_two
           [Cache.DoSet "a" 1%nat 1000] "a" 2000).
  reflexivity.
Defined.

(** X27. [set] drops at most one entry, and only to make room: a key of
    the cache is still there after [set(k, v)], unless [k] is new, the
    cache is full and the key is the least recently used one. *)
Theorem cache_set_evicts_at_most_one {V : Type} (c : Lru.t V) (k : string) (v : V)
    (now : Z) (other : string) :
  In other (Lru.keys c) ->
  In other (Lru.keys (Cache.set k v now c))
  \/ (hd_error (Lru.keys c) = Some other
      /\ ~ In k (Lru.keys c)
      /\ Cache.stat_size (Cache.getStats c) = Cache.stat_maxSize (Cache.getStats c)).
Proof.
  intros Hin. unfold Cache.set, Lru.set, Lru.keys in *.
  destruct (Lru.lookup k c) as [e|] eqn:Hl; simpl.
  - left. rewrite map_app, keys_without. apply in_or_app.
    destruct (String.eqb_spec other k) as [->|Hne]; [right; now left|].
    left. apply filter_In. split; [exact Hin|].
    apply negb_true_iff. now apply String.eqb_neq.
  - apply lookup_none in Hl. unfold Lru.keys in Hl.
    destruct (negb (Lru.size c =? 0) && (Lru.size c =? Lru.max c)) eqn:Hfull.
    + apply andb_prop in Hfull as [_ Hfull]. apply Z.eqb_eq in Hfull.
      destruct (Lru.items c) as [|x l]; [destruct Hin|]. simpl in Hin, Hl |- *.
      destruct Hin as [Hx|Hin].
      * right. subst other. split; [reflexivity|]. split; [exact Hl | exact Hfull].
      * left. rewrite map_app. apply in_or_app. now left.
    + left. rewrite map_app. apply in_or_app. now left.
Qed.

(** The theorem on a full cache of two entries: the newer key stays. *)
Lemma cache_set_evicts_at_most_one_witness :
  let c := Cache.run [Cache.DoSet "a" 1%nat 1000; Cache.DoSet "b" 2%nat 1001] cache_of_two in
  In "b" (Lru.keys (Cache.set "c" 3%nat 1002 c))
  \/ (hd_error (Lru.keys c) = Some "b"
      /\ ~ In "c" (Lru.keys c)
      /\ Cache.stat_size (Cache.getStats c) = Cache.stat_maxSize (Cache.getStats c)).
Proof.
  apply (cache_set_evicts_at_most_one
           (Cache.run [Cache.DoSet "a" 1%nat 1000; Cache.DoSet "b" 2%nat 1001] cache_of_two)
           "c" 3%nat 1002 "b").
  right. now left.
Defined.

(** ** The order of the keys *)

Section RecencyOrder.

Context {V : Type}.

(** A call is a use of the key [k] when it is a [set] or a [get] of
    [k]; a [has] is no use. *)
Definition uses (k : string) (call : Cache.call V) : bool :=
  match call with
  | Cache.DoSet key _ _ | Cache.DoGet key _ => String.eqb key k
  | Cache.DoHas _ _ => false
  end.

(** The position of the last use of [k] among [calls], counted from
    [i]. *)
Fixpoint last_use_from (k : string) (i : nat) (calls : list (Cache.call V)) : option nat :=
  match calls with
  | [] => None
  | call :: rest =>
      match last_use_from k (S i) rest with
      | Some j => Some j
      | None => if uses k call then Some i else None
      end
  end.

Definition last_use (k : string) (calls : list (Cache.call V)) : option nat :=
  last_use_from k 0 calls.

(** Both keys have been used, [k1] for the last time before [k2]. *)
Definition used_before (calls : list (Cache.call V)) (k1 k2 : string) : Prop :=
  exists n1 n2,
    last_use k1 calls = Some n1 /\ last_use k2 calls = Some n2 /\ (n1 < n2)%nat.

(** The call at position [n] is the last use of [k] among [calls]. *)
Definition last_used_at (calls : list (Cache.call V)) (k : string) (n : nat) : Prop :=
  (exists call, calls !! n = Some call /\ uses k call = true)
  /\ (forall m call, (n < m)%nat -> calls !! m = Some call -> uses k call = false).

(** Each element stands in the relation [R] to those after it. *)
Fixpoint in_order (R : string -> string -> Prop) (l : list string) : Prop :=
  match l with
  | [] => True
  | k :: rest => Forall (R k) rest /\ in_order R rest
  end.

Lemma last_use_from_snoc (k : string) (calls : list (Cache.call V)) (call : Cache.call V) :
  forall i,
    last_use_from k i (calls ++ [call])
    = if uses k call then Some (i + length calls)%nat else last_use_from k i calls.
Proof.
  induction calls as [|c calls IH]; intros i; simpl.
  - rewrite Nat.add_0_r. now destruct (uses k call).
  - rewrite IH. destruct (uses k call); [f_equal; lia | reflexivity].
Qed.

Lemma last_use_from_bound (k : string) (calls : list (Cache.call V)) :
  forall i n, last_use_from k i calls = Some n -> (i <= n < i + length calls)%nat.
Proof.
  induction calls as [|c calls IH]; intros i n; simpl; [discriminate|].
  destruct (last_use_from k (S i) calls) as [j|] eqn:Hj.
  - intros [= <-]. apply IH in Hj. lia.
  - destruct (uses k c); [|discriminate]. intros [= <-]. lia.
Qed.

Lemma last_use_from_none (k : string) (calls : list (Cache.call V)) :
  forall i, last_use_from k i calls = None ->
            forall m call, calls !! m = Some call -> uses k call = false.
Proof.
  induction calls as [|c calls IH]; intros i Hnone m call Hm; [discriminate|].
  simpl in Hnone. destruct (last_use_from k (S i) calls) as [j|] eqn:Hj; [discriminate|].
  destruct m as [|m]; simpl in Hm.
  - inversion Hm; subst c. now destruct (uses k call).
  - exact (IH (S i) Hj m call Hm).
Qed.

Lemma last_use_from_spec (k : string) (calls : list (Cache.call V)) :
  forall i n, last_use_from k i calls = Some n ->
              (i <= n)%nat /\ last_used_at calls k (n - i).
Proof.
  induction calls as [|c calls IH]; intros i n; simpl; [discriminate|].
  destruct (last_use_from k (S i) calls) as [j|] eqn:Hj.
  - intros [= <-]. destruct (IH (S i) j Hj) as (Hle & (call & Hcall & Huse) & Hlater).
    split; [lia|]. replace (j - i)%nat with (S (j - S i)) by lia. split.
    + exists call. split; [exact Hcall | exact Huse].
    + intros [|m] call' Hm Hlook; [lia|]. simpl in Hlook.
      apply (Hlater m call'); [lia | exact Hlook].
  - destruct (uses k c) eqn:Hu; [|discriminate]. intros [= <-].
    split; [lia|]. rewrite Nat.sub_diag. split.
    + exists c. split; [reflexivity | exact Hu].
    + intros [|m] call' Hm Hlook; [lia|]. simpl in Hlook.
      exact (last_use_from_none k calls (S i) Hj m call' Hlook).
Qed.

Lemma last_use_spec (k : string) (calls : list (Cache.call V)) (n : nat) :
  last_use k calls = Some n -> last_used_at calls k n.
Proof.
  intros H. apply last_use_from_spec in H as [_ H]. now rewrite Nat.sub_0_r in H.
Qed.

Lemma in_order_filter (R : string -> string -> Prop) (f : string -> bool) (l : list string) :
  in_order R l -> in_order R (List.filter f l).
Proof.
  induction l as [|k l IH]; simpl; [auto|]. intros [Hk Hl].
  destruct (f k); simpl; [|auto]. split; [|auto].
  apply Stdlib.Lists.List.Forall_forall. intros y Hy. apply filter_In in Hy as [Hy _].
  rewrite Stdlib.Lists.List.Forall_forall in Hk. auto.
Qed.

Lemma in_order_tl (R : string -> string -> Prop) (l : list string) :
  in_order R l -> in_order R (tl l).
Proof. destruct l; simpl; tauto. Qed.

Lemma in_order_weaken (R R' : string -> string -> Prop) (l : list string) :
  (forall x y, In x l -> In y l -> R x y -> R' x y) ->
  in_order R l -> in_order R' l.
Proof.
  induction l as [|k l IH]; simpl; [auto|]. intros HR [Hk Hl]. split.
  - rewrite Stdlib.Lists.List.Forall_forall in *. intros y Hy. apply HR; auto.
  - apply IH; auto.
Qed.

Lemma in_order_snoc (R : string -> string -> Prop) (l : list string) (k : string) :
  in_order R l -> Forall (fun y => R y k) l -> in_order R (l ++ [k]).
Proof.
  induction l as [|x l IH]; simpl; [intros _ _; split; [constructor | exact I]|].
  intros [Hx Hl] Hk. apply Forall_cons in Hk as [Hxk Hk]. split; [|auto].
  apply Forall_app. split; [exact Hx | constructor; [exact Hxk | constructor]].
Qed.

Lemma in_order_lookup (R : string -> string -> Prop) (l : list string) :
  in_order R l ->
  forall i j a b, l !! i = Some a -> l !! j = Some b -> (i < j)%nat -> R a b.
Proof.
  induction l as [|k l IH]; intros Hl i j a b Ha Hb Hij; [discriminate|].
  destruct Hl as [Hk Hl]. destruct j as [|j]; [lia|]. simpl in Hb.
  destruct i as [|i].
  - simpl in Ha. inversion Ha; subst a.
    rewrite Stdlib.Lists.List.Forall_forall in Hk. apply Hk.
    apply list_elem_of_In. eapply list_elem_of_lookup_2. exact Hb.
  - simpl in Ha. apply (IH Hl i j); [assumption | assumption | lia].
Qed.

(** The keys are in the order of their last use, and each has one. *)
Definition ordered (calls : list (Cache.call V)) (keys : list string) : Prop :=
  in_order (used_before calls) keys
  /\ Forall (fun k => exists n, last_use k calls = Some n) keys.

Lemma ordered_filter calls (f : string -> bool) keys :
  ordered calls keys -> ordered calls (List.filter f keys).
Proof.
  intros [Ho Hk]. split; [now apply in_order_filter|].
  rewrite Stdlib.Lists.List.Forall_forall in *. intros y Hy.
  apply filter_In in Hy as [Hy _]. auto.
Qed.

Lemma ordered_tl calls keys : ordered calls keys -> ordered calls (tl keys).
Proof.
  intros [Ho Hk]. split; [now apply in_order_tl|].
  destruct keys; [exact Hk | now apply Forall_cons in Hk as [_ Hk]].
Qed.

(** A call that uses none of the keys leaves their order. *)
Lemma ordered_unused calls call keys :
  ordered calls keys ->
  Forall (fun y => uses y call = false) keys ->
  ordered (calls ++ [call]) keys.
Proof.
  intros [Ho Hk] Hun. rewrite Stdlib.Lists.List.Forall_forall in Hun.
  assert (Hsame : forall y, In y keys -> last_use y (calls ++ [call]) = last_use y calls).
  { intros y Hy. unfold last_use. now rewrite last_use_from_snoc, (Hun y Hy). }
  split.
  - eapply in_order_weaken; [|exact Ho].
    intros x y Hx Hy (n1 & n2 & H1 & H2 & Hlt). exists n1, n2.
    now rewrite (Hsame x Hx), (Hsame y Hy).
  - rewrite Stdlib.Lists.List.Forall_forall in *. intros y Hy.
    rewrite (Hsame y Hy). auto.
Qed.

(** A call that uses [k], and none of the keys, puts [k] behind them. *)
Lemma ordered_used calls call keys k :
  ordered calls keys ->
  Forall (fun y => uses y call = false) keys ->
  uses k call = true ->
  ordered (calls ++ [call]) (keys ++ [k]).
Proof.
  intros Hord Hun Hk.
  assert (Hlast : last_use k (calls ++ [call]) = Some (length calls)).
  { unfold last_use. now rewrite last_use_from_snoc, Hk. }
  destruct (ordered_unused calls call keys Hord Hun) as [Ho Hknown].
  destruct Hord as [_ Hold]. rewrite Stdlib.Lists.List.Forall_forall in Hun, Hold.
  split.
  - apply in_order_snoc; [exact Ho|].
    apply Stdlib.Lists.List.Forall_forall. intros y Hy.
    destruct (Hold y Hy) as [n Hn]. exists n, (length calls).
    split; [|split; [exact Hlast|]].
    + unfold last_use. now rewrite last_use_from_snoc, (Hun y Hy).
    + apply last_use_from_bound in Hn. lia.
  - apply Forall_app. split; [exact Hknown|].
    constructor; [now exists (length calls) | constructor].
Qed.

Lemma others_unused k (call : Cache.call V) (keys : list string) :
  (forall key, uses key call = true -> key = k) ->
  Forall (fun y => uses y call = false)
    (List.filter (fun x => negb (String.eqb x k)) keys).
Proof.
  intros Hcall. apply Stdlib.Lists.List.Forall_forall. intros y Hy.
  apply filter_In in Hy as [_ Hy]. apply negb_true_iff, String.eqb_neq in Hy.
  destruct (uses y call) eqn:Hu; [|reflexivity]. now apply Hcall in Hu.
Qed.

Lemma absent_unused k (call : Cache.call V) (keys : list string) :
  (forall key, uses key call = true -> key = k) ->
  ~ In k keys ->
  Forall (fun y => uses y call = false) keys.
Proof.
  intros Hcall Hk. apply Stdlib.Lists.List.Forall_forall. intros y Hy.
  destruct (uses y call) eqn:Hu; [|reflexivity]. apply Hcall in Hu. congruence.
Qed.

Lemma uses_key k key (call : Cache.call V) :
  match call with
  | Cache.DoSet k' _ _ | Cache.DoGet k' _ => k' = k
  | Cache.DoHas _ _ => True
  end ->
  uses key call = true -> key = k.
Proof.
  destruct call as [k' v now|k' now|k' now]; simpl; try discriminate;
    intros <- H; now apply String.eqb_eq in H.
Qed.

(** One call keeps the keys in the order of their last use. *)
Lemma step_ordered calls (c : Lru.t V) (call : Cache.call V) :
  ordered calls (Lru.keys c) ->
  ordered (calls ++ [call]) (Lru.keys (Cache.step c call)).
Proof.
  intros Hord. destruct call as [k v now|k now|k now]; simpl.
  - (* set *)
    set (call := Cache.DoSet k v now).
    assert (Hcall : forall key, uses key call = true -> key = k)
      by (intros key; now apply uses_key).
    assert (Hk : uses k call = true) by apply String.eqb_refl.
    unfold Cache.set. destruct (Lru.lookup k c) as [e|] eqn:Hl.
    + assert (Hkeys : Lru.keys (Lru.set k v now c)
                      = List.filter (fun x => negb (String.eqb x k)) (Lru.keys c) ++ [k]).
      { unfold Lru.set, Lru.keys. rewrite Hl. simpl. now rewrite map_app, keys_without. }
      rewrite Hkeys. apply ordered_used; [now apply ordered_filter | | exact Hk].
      now apply others_unused.
    + apply lookup_none in Hl.
      destruct (set_fresh_keys c k v now Hl) as [-> _].
      apply ordered_used; [| |exact Hk].
      * destruct (_ && _); [now apply ordered_tl | exact Hord].
      * apply (absent_unused k); [exact Hcall|].
        destruct (_ && _); [|exact Hl]. intros Hin. apply Hl. now apply in_tl.
  - (* get *)
    set (call := Cache.DoGet k now).
    assert (Hcall : forall key, uses key call = true -> key = k)
      by (intros key; now apply uses_key).
    assert (Hk : uses k call = true) by apply String.eqb_refl.
    unfold Cache.get, Lru.get. destruct (Lru.lookup k c) as [e|] eqn:Hl.
    + apply lookup_some in Hl as [Hkey _].
      destruct (Lru.isStale now e); unfold Lru.keys; simpl.
      * rewrite keys_without. apply ordered_unused; [now apply ordered_filter|].
        now apply others_unused.
      * rewrite map_app, keys_without. simpl.
        replace (Lru.key (if Lru.updateAgeOnGet c then Lru.restart now e else e)) with k
          by (now destruct (Lru.updateAgeOnGet c)).
        apply ordered_used; [now apply ordered_filter | | exact Hk].
        now apply others_unused.
    + apply lookup_none in Hl. simpl.
      apply ordered_unused; [exact Hord|]. now apply (absent_unused k).
  - (* has *)
    unfold Cache.has. destruct (has_keeps_keys c k now) as [-> _].
    apply ordered_unused; [exact Hord|].
    apply Stdlib.Lists.List.Forall_forall. reflexivity.
Qed.

Lemma run_ordered (later : list (Cache.call V)) :
  forall calls (c : Lru.t V),
    ordered calls (Lru.keys c) ->
    ordered (calls ++ later) (Lru.keys (Cache.run later c)).
Proof.
  induction later as [|call later IH]; intros calls c Hord.
  - now rewrite app_nil_r.
  - simpl. replace (calls ++ call :: later) with ((calls ++ [call]) ++ later)
      by (now rewrite <- app_assoc).
    apply IH. now apply step_ordered.
Qed.

End RecencyOrder.

(** X28. The cache keeps its keys in the order of their last use, over
    any calls: in a cache made by [createCache], after any calls of
    [set], [get] and [has], of two keys that the cache holds the one
    listed first was last used before the other, where a [set] and a
    [get] of a key count as a use of it and a [has] does not. So the
    head of the list, which is what [set] evicts, is the key used the
    longest ago. *)
Theorem cache_recency_order {V : Type} (options : Cache.options) (cache : Lru.t V)
    (calls : list (Cache.call V)) (i j : nat) (k1 k2 : string) :
  Cache.createCache options = Some cache ->
  Lru.keys (Cache.run calls cache) !! i = Some k1 ->
  Lru.keys (Cache.run calls cache) !! j = Some k2 ->
  (i < j)%nat ->
  exists n1 n2,
    last_used_at calls k1 n1 /\ last_used_at calls k2 n2 /\ (n1 < n2)%nat.
Proof.
  intros Hcreate H1 H2 Hij. apply createCache_fresh in Hcreate. subst cache.
  set (c0 := Lru.mk _ _ false false []) in *.
  assert (Hord : ordered (V := V) [] (Lru.keys c0)) by (split; [exact I | constructor]).
  apply (run_ordered calls) in Hord as [Hord _]. rewrite app_nil_l in Hord.
  destruct (in_order_lookup _ _ Hord i j k1 k2 H1 H2 Hij) as (n1 & n2 & Hn1 & Hn2 & Hlt).
  exists n1, n2. split; [now apply last_use_spec|]. split; [now apply last_use_spec | exact Hlt].
Qed.

(** The theorem on a cache for two entries: after [a] and [b] are
    stored, [a] is read and [c] is stored, the cache holds [a] before
    [c]; [a] was last used by the [get], the third call, and [c] by its
    [set], the fourth. *)
Lemma cache_recency_order_witness :
  let calls := [ Cache.DoSet "a" 1%nat 1000; Cache.DoSet "b" 2%nat 1001;
                 Cache.DoGet "a" 1002; Cache.DoSet "c" 3%nat 1003 ] in
  exists n1 n2,
    last_used_at calls "a" n1 /\ last_used_at calls "c" n2 /\ (n1 < n2)%nat.
Proof.
  cbv zeta.
  apply (cache_recency_order (Cache.mkOptions (Some 2) None)
           (Lru.mk 2 300000 false false [])
           [ Cache.DoSet "a" 1%nat 1000; Cache.DoSet "b" 2%nat 1001;
             Cache.DoGet "a" 1002; Cache.DoSet "c" 3%nat 1003 ] 0 1 "a" "c");
    [reflexivity | reflexivity | reflexivity | lia].
Defined.

Example recency_example :
  let calls := [ Cache.DoSet "a" 1%nat 1000; Cache.DoSet "b" 2%nat 1001;
                 Cache.DoGet "a" 1002; Cache.DoSet "c" 3%nat 1003 ] in
  Lru.keys (Cache.run calls (Lru.mk 2 300000 false false [])) = ["a"; "c"]
  /\ last_use "a" calls = Some 2%nat
  /\ last_use "c" calls = Some 3%nat
  /\ last_use "b" calls = Some 1%nat.
Proof. repeat split; reflexivity. Qed.

(** ** The cache key *)

(** The characters of a text are not [d]. *)
Definition free_of (d : ascii) (s : string) : Prop :=
  Forall (fun c => c <> d) (list_ascii_of_string s).

Lemma free_of_app (d : ascii) (a b : string) :
  free_of d a -> free_of d b -> free_of d (a +:+ b).
Proof.
  unfold free_of. induction a as [|c a IH]; intros Ha Hb; [exact Hb|].
  rewrite append_cons. simpl in *. apply Forall_cons in Ha as [Hc Ha].
  constructor; [exact Hc | now apply IH].
Qed.

Lemma free_of_occurrence (d : ascii) (a b : string) : ~ free_of d (a +:+ String d b).
Proof.
  unfold free_of. induction a as [|c a IH]; intros H.
  - simpl in H. apply Forall_cons in H as [H _]. congruence.
  - rewrite append_cons in H. simpl in H. apply Forall_cons in H as [_ H]. auto.
Qed.

(** A text is cut in one way at the first occurrence of a character,
    and in one way at the last. *)
Lemma cut_at_first (d : ascii) (a1 a2 b1 b2 : string) :
  free_of d a1 -> free_of d a2 ->
  a1 +:+ String d b1 = a2 +:+ String d b2 -> a1 = a2 /\ b1 = b2.
Proof.
  unfold free_of. revert a2. induction a1 as [|c a1 IH]; intros [|c2 a2] H1 H2 Heq.
  - simpl in Heq. now inversion Heq.
  - simpl in Heq, H2. apply Forall_cons in H2 as [H2 _]. inversion Heq. congruence.
  - simpl in Heq, H1. apply Forall_cons in H1 as [H1 _]. inversion Heq. congruence.
  - rewrite !append_cons in Heq. simpl in H1, H2.
    apply Forall_cons in H1 as [_ H1]. apply Forall_cons in H2 as [_ H2].
    inversion Heq as [[Hc Hrest]]. destruct (IH a2 H1 H2 Hrest) as [-> ->]. now split.
Qed.

Lemma cut_at_last (d : ascii) (a1 a2 b1 b2 : string) :
  free_of d b1 -> free_of d b2 ->
  a1 +:+ String d b1 = a2 +:+ String d b2 -> a1 = a2 /\ b1 = b2.
Proof.
  intros H1 H2. revert a2. induction a1 as [|c a1 IH]; intros [|c2 a2] Heq.
  - simpl in Heq. now inversion Heq.
  - simpl in Heq. injection Heq as Hc Hb. subst c2 b1.
    now apply free_of_occurrence in H1.
  - simpl in Heq. injection Heq as Hc Hb. subst c b2.
    now apply free_of_occurrence in H2.
  - rewrite !append_cons in Heq. inversion Heq as [[Hc Hrest]].
    destruct (IH a2 Hrest) as [-> ->]. now split.
Qed.

Lemma pretty_N_char_digit (x : N) : Js.is_digit (pretty_N_char x) = true.
Proof. unfold pretty_N_char. repeat case_match; reflexivity. Qed.

(** A number is written with digits only. *)
Lemma pretty_N_go_digits (x : N) :
  forall s, Forall (fun c => Js.is_digit c = true) (list_ascii_of_string s) ->
            Forall (fun c => Js.is_digit c = true) (list_ascii_of_string (pretty_N_go x s)).
Proof.
  induction (N.lt_wf_0 x) as [x _ IH]; intros s Hs.
  destruct (N.eq_dec x 0%N) as [->|Hx]; [now rewrite pretty_N_go_0|].
  rewrite pretty_N_go_step by lia.
  apply IH; [apply N.div_lt; lia|].
  simpl. constructor; [apply pretty_N_char_digit | exact Hs].
Qed.

Lemma pretty_nat_digits (n : nat) :
  Forall (fun c => Js.is_digit c = true) (list_ascii_of_string (pretty n)).
Proof.
  unfold pretty, pretty_nat, pretty, pretty_N.
  case_decide; [repeat constructor | apply pretty_N_go_digits; constructor].
Qed.

Lemma pretty_nat_free (d : ascii) (n : nat) : Js.is_digit d = false -> free_of d (pretty n).
Proof.
  intros Hd. unfold free_of. eapply Forall_impl; [apply pretty_nat_digits|].
  simpl. intros c Hc ->. congruence.
Qed.

Lemma free_of_literal (d : ascii) (s : string) :
  forallb (fun c => negb (Ascii.eqb c d)) (list_ascii_of_string s) = true -> free_of d s.
Proof.
  intros H. unfold free_of. apply Stdlib.Lists.List.Forall_forall. intros c Hc.
  rewrite forallb_forall in H. specialize (H c Hc).
  apply negb_true_iff in H. now apply Ascii.eqb_neq.
Qed.

(** The part of [stringify] behind the number. *)
Definition after_max (useInstantApi : bool) : string :=
  Index.quote +:+ "useInstantApi" +:+ Index.quote +:+ ":"
  +:+ (if useInstantApi then "true" else "false") +:+ "}".

Lemma stringify_parts (relevant : nat * bool) :
  Index.stringify relevant
  = String "{" (Index.quote +:+ "max" +:+ Index.quote +:+ ":"
                +:+ (pretty (fst relevant) +:+ String "," (after_max (snd relevant)))).
Proof. reflexivity. Qed.

Lemma stringify_inj (r1 r2 : nat * bool) (a1 a2 : string) :
  a1 +:+ Index.stringify r1 = a2 +:+ Index.stringify r2 -> a1 = a2 /\ r1 = r2.
Proof.
  rewrite !stringify_parts. intros Heq.
  assert (Hfree : forall r : nat * bool,
             free_of "{" (Index.quote +:+ "max" +:+ Index.quote +:+ ":"
                          +:+ (pretty (fst r) +:+ String "," (after_max (snd r))))).
  { intros [n b]. simpl fst. simpl snd.
    change (Index.quote +:+ "max" +:+ Index.quote +:+ ":"
            +:+ (pretty n +:+ String "," (after_max b)))
      with ((Index.quote +:+ "max" +:+ Index.quote +:+ ":")
            +:+ (pretty n +:+ String "," (after_max b))).
    apply free_of_app; [now apply free_of_literal|].
    apply free_of_app; [now apply pretty_nat_free|].
    apply free_of_literal. now destruct b. }
  apply cut_at_last in Heq as [Ha Hrest]; [|apply Hfree..].
  split; [exact Ha|].
  change (Index.quote +:+ "max" +:+ Index.quote +:+ ":"
          +:+ (pretty (fst r1) +:+ String "," (after_max (snd r1))))
    with ((Index.quote +:+ "max" +:+ Index.quote +:+ ":")
          +:+ (pretty (fst r1) +:+ String "," (after_max (snd r1)))) in Hrest.
  change (Index.quote +:+ "max" +:+ Index.quote +:+ ":"
          +:+ (pretty (fst r2) +:+ String "," (after_max (snd r2))))
    with ((Index.quote +:+ "max" +:+ Index.quote +:+ ":")
          +:+ (pretty (fst r2) +:+ String "," (after_max (snd r2)))) in Hrest.
  apply append_inj_l in Hrest.
  apply cut_at_first in Hrest as [Hn Hb]; [|now apply pretty_nat_free..].
  apply (inj pretty) in Hn.
  destruct r1 as [n1 b1], r2 as [n2 b2]. simpl in *. subst n2.
  f_equal. destruct b1, b2; (reflexivity || discriminate).
Qed.

(** X30. The cache key separates what it is made of: two calls of
    [search] get the same key exactly when they have the same query and
    the same relevant options, [options.max || 10] and
    [options.useInstantApi || false], whatever characters the queries
    hold. So the cache never answers with the results of another query
    or of another limit; the only calls that share an entry are those
    that differ in other options, or in a [max] that is absent, 0 or
    10. *)
Theorem generateCacheKey_separates (q1 q2 : string) (o1 o2 : Index.options) :
  Index.generateCacheKey q1 o1 = Index.generateCacheKey q2 o2
  <-> q1 = q2 /\ Index.relevantOptions o1 = Index.relevantOptions o2.
Proof.
  split; [|intros [-> Hr]; unfold Index.generateCacheKey; now rewrite Hr].
  unfold Index.generateCacheKey. intros Heq. apply append_inj_l in Heq.
  change (q1 +:+ ":" +:+ Index.stringify (Index.relevantOptions o1))
    with (q1 +:+ (String ":" (Index.stringify (Index.relevantOptions o1)))) in Heq.
  change (q2 +:+ ":" +:+ Index.stringify (Index.relevantOptions o2))
    with (q2 +:+ (String ":" (Index.stringify (Index.relevantOptions o2)))) in Heq.
  replace (q1 +:+ String ":" (Index.stringify (Index.relevantOptions o1)))
    with ((q1 +:+ ":") +:+ Index.stringify (Index.relevantOptions o1)) in Heq
    by (now rewrite append_assoc).
  replace (q2 +:+ String ":" (Index.stringify (Index.relevantOptions o2)))
    with ((q2 +:+ ":") +:+ Index.stringify (Index.relevantOptions o2)) in Heq
    by (now rewrite append_assoc).
  apply stringify_inj in Heq as [Hq Hr]. split; [|exact Hr].
  apply (cut_at_last ":" q1 q2 "" "") in Hq as [Hq _]; [exact Hq | constructor..].
Qed.

Example generateCacheKey_colon :
  Index.generateCacheKey "a:b" (Index.mkOptions None None None None None None None)
  <> Index.generateCacheKey "a" (Index.mkOptions None None None None None None None).
Proof. vm_compute. discriminate. Qed.
